(** * nansen-skill: the signal-intelligence pipeline

    A shallow embedding of the trading shim of the repository: the TTL cache
    (src/cache.ts), the token-bucket rate limiter (rate-limiter.ts), the
    signal log (signal-log.ts) and the risk engine of NansenTrader
    (trader.ts), followed by the properties the specification states about
    them.

    Conventions of the embedding.
    - A JavaScript [number] is a rational [Q]: every finite double embeds
      exactly, and NaN and the infinities are left out.  [Num] computes on
      them exactly (no rounding), the results kept in lowest terms
      ([Qred]) so that equal numbers are equal terms; [Double] rounds
      every operation to the nearest double, as the source's numbers do,
      and [RateLimiterDouble] is the rate limiter in that arithmetic.
    - [Date.now()] is an explicit argument: a millisecond reading [Z].  A
      date string made by [new Date().toISOString()] is stored as the
      reading it renders, since [new Date(s).getTime()] gives it back.
    - An optional property of an object is an [option]; a property that is
      present and holds [undefined] reads the same as a missing one in all
      of the code below and is stored as [None].
    - A method that mutates [this] returns the new state next to its
      result. *)

From Stdlib Require Import ZArith QArith Qabs Qround Qminmax Lqa Lia List Bool.
From Stdlib Require Import Floats.
From stdpp Require Import base option list sorting gmap strings.

Local Open Scope Z_scope.

(** ** JavaScript numbers *)

Module Num.

Abbreviation number := Q.

Definition of_Z (z : Z) : number := inject_Z z.

Definition add (a b : number) : number := Qred (a + b).
Definition sub (a b : number) : number := Qred (a - b).
Definition mul (a b : number) : number := Qred (a * b).
Definition div (a b : number) : number := Qred (a / b).
Definition abs (a : number) : number := Qabs a.

(** [a < b], [a > b] and [a >= b] of the source. *)
Definition lt (a b : number) : bool := negb (Qle_bool b a).
Definition gt (a b : number) : bool := lt b a.
Definition ge (a b : number) : bool := Qle_bool b a.

(** Truthiness of a number: everything but zero (NaN is not modelled). *)
Definition truthy (a : number) : bool := negb (Qeq_bool a 0).

(** Truthiness of a property that may be missing: [undefined] is falsy. *)
Definition truthy_opt (a : option number) : bool :=
  match a with
  | Some x => truthy x
  | None => false
  end.

End Num.

(** ** Doubles *)

(** The arithmetic of the source's numbers.  A finite double is the
    rational it stands for; an operation computes exactly and rounds the
    result to the nearest double, ties to the even one.  The doubles are
    whole multiples of [2 ^ -1074], the least positive one: a number is
    rounded on that scale, where the doubles from [2 ^ (k + 52)] up to
    [2 ^ (k + 53)] are the multiples of [2 ^ k] (and those below [2 ^ 53]
    are all the integers: the subnormals and the first binade of the
    normals).  Not modelled: NaN, negative zero, the overflow to an
    infinity beyond the largest double, and the division by zero. *)
Module Double.

(** The nearest integer, a tie going to the even one. *)
Definition roundHalfEven (s : Q) : Z :=
  let f := Qfloor s in
  match (s - inject_Z f ?= 1 # 2)%Q with
  | Lt => f
  | Eq => if Z.even f then f else f + 1
  | Gt => f + 1
  end.

Definition scale : Q := inject_Z (2 ^ 1074).

(** The distance between neighbouring doubles, on the scale, in the binade
    of [n]. *)
Definition spacing (n : Z) : Z := 2 ^ Z.max (Z.log2 n - 52) 0.

(** The scaled double nearest to a scaled number that is not negative. *)
Definition roundScaled (s : Q) : Z :=
  let u := spacing (Qfloor s) in
  roundHalfEven (s / inject_Z u) * u.

Definition roundPos (q : Q) : Q :=
  Qred (inject_Z (roundScaled (q * scale)) / scale).

(** The double nearest to [q]. *)
Definition round (q : Q) : Q :=
  if Qle_bool 0 q then roundPos q else Qred (- roundPos (- q)).




(** [a + b], [a - b], [a * b] and [a / b] of the source. *)
Definition add (a b : Q) : Q := round (a + b).
Definition sub (a b : Q) : Q := round (a - b).
Definition mul (a b : Q) : Q := round (a * b).
Definition div (a b : Q) : Q := round (a / b).

(** The rational that a finite double of the machine stands for, and a
    test that an operation above gives what the machine's gives on two
    doubles (when that is finite). *)
Definition ofFloat (x : float) : option Q :=
  match Prim2SF x with
  | S754_zero _ => Some 0%Q
  | S754_finite s m e =>
      let v := (inject_Z (Zpos m) * 2 ^ e)%Q in
      Some (Qred (if s then - v else v))
  | _ => None
  end.

Definition agree (machine : float -> float -> float) (model : Q -> Q -> Q)
  (a b : float) : bool :=
  match ofFloat a, ofFloat b, ofFloat (machine a b) with
  | Some qa, Some qb, Some qr => Qeq_bool (model qa qb) qr
  | Some _, Some _, None => true
  | _, _, _ => false
  end.

(** 0.1, 0.3, two whole numbers, a negative number and a subnormal. *)
Definition samples : list float :=
  [0x1.999999999999ap-4; 0x1.3333333333333p-2; 9; 1000; (-7.25);
   0x1.8p-1070]%float.

End Double.

(** ** types.ts *)

Inductive Chain : Set :=
  | ethereum | base | arbitrum | optimism | polygon | bsc | avalanche | solana.

Inductive ScanMode : Set :=
  | accumulation | distribution | breakout | fresh_wallets.

#[global] Instance Chain_eq_dec : EqDecision Chain.
Proof. solve_decision. Defined.

#[global] Instance ScanMode_eq_dec : EqDecision ScanMode.
Proof. solve_decision. Defined.

Definition chain_name (c : Chain) : string :=
  match c with
  | ethereum => "ethereum"
  | base => "base"
  | arbitrum => "arbitrum"
  | optimism => "optimism"
  | polygon => "polygon"
  | bsc => "bsc"
  | avalanche => "avalanche"
  | solana => "solana"
  end.

Definition mode_name (m : ScanMode) : string :=
  match m with
  | accumulation => "accumulation"
  | distribution => "distribution"
  | breakout => "breakout"
  | fresh_wallets => "fresh-wallets"
  end.

(** [OpportunitySignal]: the Candidate of the specification.  The field
    [type] of the source is [sig_type] here. *)
Record OpportunitySignal : Type := mkOpportunity {
  sig_type : ScanMode;
  token : string;
  symbol : string;
  chain : Chain;
  score : Num.number;
  reason : string;
  metrics : gmap string Num.number;
  timestamp : string
}.

(** A candidate as the scenarios of the specification give them: chain,
    token, mode, score and metrics; the other strings play no part. *)
Definition candidate (c : Chain) (tok : string) (mode : ScanMode)
  (sc : Num.number) (ms : list (string * Num.number)) : OpportunitySignal :=
  {| sig_type := mode; token := tok; symbol := tok; chain := c; score := sc;
     reason := ""; metrics := list_to_map ms;
     timestamp := "2024-01-01T00:00:00.000Z" |}.

(** ** signal-log.ts *)

(** ['buy' | 'sell' | 'skip']. *)
Inductive Action : Set := act_buy | act_sell | act_skip.

Record SignalOutcome : Type := mkOutcome {
  action : option Action;
  executedAt : option Z;
  entryPrice : option Num.number;
  exitPrice : option Num.number;
  pnl : option Num.number;
  pnlPercent : option Num.number;
  notes : option string
}.

(** A property of a [Partial<SignalOutcome>] argument: the key is missing,
    or it is there and holds [undefined], or it holds a value.  Object
    spread copies the last two and skips the first. *)
Inductive Property (A : Type) : Type :=
  | Absent
  | Undefined
  | Value (a : A).
Arguments Absent {A}.
Arguments Undefined {A}.
Arguments Value {A} a.

Record PartialOutcome : Type := mkPartial {
  p_action : Property Action;
  p_executedAt : Property Z;
  p_entryPrice : Property Num.number;
  p_exitPrice : Property Num.number;
  p_pnl : Property Num.number;
  p_pnlPercent : Property Num.number;
  p_notes : Property string
}.

(** [LoggedSignal extends OpportunitySignal]; [id] of the source is
    [sig_id]. *)
Record LoggedSignal : Type := mkLogged {
  signal_of : OpportunitySignal;
  sig_id : string;
  loggedAt : Z;
  acted : bool;
  outcome : option SignalOutcome
}.

Module SignalLog.

(** The [Map<string, LoggedSignal>] held by a [SignalLog].  Writing the
    snapshot to disk ([save]) does not feed back into the map and is left
    out. *)
Abbreviation store := (gmap string LoggedSignal).

Definition generateId (signal : OpportunitySignal) : string :=
  chain_name (chain signal) +:+ ":" +:+ token signal +:+ ":" +:+
  mode_name (sig_type signal) +:+ ":" +:+ timestamp signal.

Definition log (signals : store) (signal : OpportunitySignal) (now : Z)
  : LoggedSignal * store :=
  let id := generateId signal in
  match signals !! id with
  | Some existing => (existing, signals)
  | None =>
      let logged :=
        {| signal_of := signal; sig_id := id; loggedAt := now;
           acted := false; outcome := None |} in
      (logged, <[id := logged]> signals)
  end.

(** [logBatch]: [map] over the batch with the same body, threading the
    store; the readings of the clock come one per candidate. *)
Fixpoint logBatch (signals : store) (batch : list (OpportunitySignal * Z))
  : list LoggedSignal * store :=
  match batch with
  | [] => ([], signals)
  | (s, now) :: rest =>
      let '(entry, signals1) := log signals s now in
      let '(entries, signals2) := logBatch signals1 rest in
      (entry :: entries, signals2)
  end.

Definition markActed (signals : store) (id : string) (a : Action)
  (note : option string) (now : Z) : option LoggedSignal * store :=
  match signals !! id with
  | None => (None, signals)
  | Some signal =>
      let signal' :=
        {| signal_of := signal_of signal; sig_id := sig_id signal;
           loggedAt := loggedAt signal;
           acted := true;
           outcome := Some {| action := Some a; executedAt := Some now;
                              entryPrice := None; exitPrice := None;
                              pnl := None; pnlPercent := None;
                              notes := note |} |} in
      (Some signal', <[id := signal']> signals)
  end.

(** One property of [{...old, ...new}]. *)
Definition spread1 {A} (old : option A) (new : Property A) : option A :=
  match new with
  | Absent => old
  | Undefined => None
  | Value a => Some a
  end.

(** [{...signal.outcome, ...outcome}]; spreading [undefined] adds nothing. *)
Definition spread (old : option SignalOutcome) (new : PartialOutcome)
  : SignalOutcome :=
  let get {A} (f : SignalOutcome -> option A) : option A := old ≫= f in
  {| action := spread1 (get action) (p_action new);
     executedAt := spread1 (get executedAt) (p_executedAt new);
     entryPrice := spread1 (get entryPrice) (p_entryPrice new);
     exitPrice := spread1 (get exitPrice) (p_exitPrice new);
     pnl := spread1 (get pnl) (p_pnl new);
     pnlPercent := spread1 (get pnlPercent) (p_pnlPercent new);
     notes := spread1 (get notes) (p_notes new) |}.

(** The block guarded by [if (outcome.entryPrice && outcome.exitPrice)]. *)
Definition derivePnl (o : SignalOutcome) : SignalOutcome :=
  match entryPrice o, exitPrice o with
  | Some entry, Some exit_ =>
      if Num.truthy entry && Num.truthy exit_ then
        let p := Num.sub exit_ entry in
        {| action := action o; executedAt := executedAt o;
           entryPrice := entryPrice o; exitPrice := exitPrice o;
           pnl := Some p;
           pnlPercent := Some (Num.mul (Num.div p entry) (Num.of_Z 100));
           notes := notes o |}
      else o
  | _, _ => o
  end.

Definition recordOutcome (signals : store) (id : string)
  (partial : PartialOutcome) : option LoggedSignal * store :=
  match signals !! id with
  | None => (None, signals)
  | Some signal =>
      let signal' :=
        {| signal_of := signal_of signal; sig_id := sig_id signal;
           loggedAt := loggedAt signal;
           acted := acted signal;
           outcome := Some (derivePnl (spread (outcome signal) partial)) |} in
      (Some signal', <[id := signal']> signals)
  end.

(** The three equalities tested by [hasRecentSignal]. *)
Definition sameTarget (logged : LoggedSignal) (signal : OpportunitySignal)
  : bool :=
  String.eqb (token (signal_of logged)) (token signal)
  && bool_decide (chain (signal_of logged) = chain signal)
  && bool_decide (sig_type (signal_of logged) = sig_type signal).

(** [hasRecentSignal(signal, withinMs)] when [Date.now()] reads [now]. *)
Definition hasRecentSignal (signals : store) (signal : OpportunitySignal)
  (withinMs now : Z) : bool :=
  let cutoff := now - withinMs in
  existsb (fun logged => sameTarget logged signal && (cutoff <? loggedAt logged))
          (snd <$> map_to_list signals).

(** Every record sits under its own id: so it is in a store that [log]
    fills, and in one that [load] reads. *)
Definition keyed (signals : store) : Prop :=
  forall (k : string) (s : LoggedSignal), signals !! k = Some s -> sig_id s = k.

(** The records of the store that carry the given id. *)
Definition recordsOf (signals : store) (id : string) : list LoggedSignal :=
  List.filter (fun s => String.eqb (sig_id s) id) (snd <$> map_to_list signals).

(** The two mutators of a logged signal, for runs of calls on one id. *)
Inductive Update : Type :=
  | MarkActed (a : Action) (note : option string) (now : Z)
  | RecordOutcome (partial : PartialOutcome).

Definition update (id : string) (signals : store) (u : Update) : store :=
  match u with
  | MarkActed a note now => snd (markActed signals id a note now)
  | RecordOutcome partial => snd (recordOutcome signals id partial)
  end.

Definition updates (signals : store) (id : string) (us : list Update) : store :=
  fold_left (update id) us signals.

(** Every property of an outcome that [before] has, [after] has too. *)
Definition keepsFields (before after : option SignalOutcome) : Prop :=
  (is_Some (before ≫= action) -> is_Some (after ≫= action))
  /\ (is_Some (before ≫= executedAt) -> is_Some (after ≫= executedAt))
  /\ (is_Some (before ≫= entryPrice) -> is_Some (after ≫= entryPrice))
  /\ (is_Some (before ≫= exitPrice) -> is_Some (after ≫= exitPrice))
  /\ (is_Some (before ≫= pnl) -> is_Some (after ≫= pnl))
  /\ (is_Some (before ≫= pnlPercent) -> is_Some (after ≫= pnlPercent))
  /\ (is_Some (before ≫= notes) -> is_Some (after ≫= notes)).

(** The invariant as the specification words it: no run of [markActed] and
    [recordOutcome] calls on a signal loses a property of its outcome. *)
Definition outcomeNeverRegresses : Prop :=
  forall (signals : store) (id : string) (us : list Update)
         (s s' : LoggedSignal),
    signals !! id = Some s ->
    updates signals id us !! id = Some s' ->
    keepsFields (outcome s) (outcome s').

(** The outcome [markActed] attaches. *)
Definition minimalOutcome (a : Action) (note : option string) (now : Z)
  : SignalOutcome :=
  {| action := Some a; executedAt := Some now; entryPrice := None;
     exitPrice := None; pnl := None; pnlPercent := None; notes := note |}.

(** No property of the partial outcome is there with [undefined] in it. *)
Definition defined1 {A} (p : Property A) : bool :=
  match p with
  | Undefined => false
  | _ => true
  end.

Definition noUndefined (partial : PartialOutcome) : bool :=
  defined1 (p_action partial) && defined1 (p_executedAt partial)
  && defined1 (p_entryPrice partial) && defined1 (p_exitPrice partial)
  && defined1 (p_pnl partial) && defined1 (p_pnlPercent partial)
  && defined1 (p_notes partial).

Definition plainRecord (u : Update) : bool :=
  match u with
  | MarkActed _ _ _ => false
  | RecordOutcome partial => noUndefined partial
  end.

(** [{entryPrice: entry, exitPrice: exit}], with [pnl] when given. *)
Definition prices (entry exit_ : Num.number) (pnl_ : Property Num.number)
  : PartialOutcome :=
  {| p_action := Absent; p_executedAt := Absent;
     p_entryPrice := Value entry; p_exitPrice := Value exit_;
     p_pnl := pnl_; p_pnlPercent := Absent; p_notes := Absent |}.

End SignalLog.

(** ** cache.ts *)

Module Cache.

(** What one call of a fetcher does: its promise resolves with a value
    ([None] is [undefined]) while the clock reads [at_], or it rejects. *)
Inductive Fetched (T : Type) : Type :=
  | Resolved (value : option T) (at_ : Z)
  | Rejected.
Arguments Resolved {T} value at_.
Arguments Rejected {T}.

(** A fetcher [f]: what its successive invocations do, and how many times
    it has been invoked so far. *)
Record Fetcher (T : Type) : Type := mkFetcher {
  responses : nat -> Fetched T;
  calls : nat
}.
Arguments responses {T} _ _.
Arguments calls {T} _.

Definition invoke {T} (f : Fetcher T) : Fetched T * Fetcher T :=
  (responses f (calls f), {| responses := responses f; calls := S (calls f) |}).

Record CacheEntry (T : Type) : Type := mkEntry {
  data : option T;
  expiry : Z;
  hits : nat
}.
Arguments data {T} _.
Arguments expiry {T} _.
Arguments hits {T} _.

Record Cache (T : Type) : Type := mkCache {
  store : gmap string (CacheEntry T);
  stats_hits : nat;
  stats_misses : nat;
  creditsSaved : Z;
  defaultTtl : Z
}.
Arguments store {T} _.
Arguments stats_hits {T} _.
Arguments stats_misses {T} _.
Arguments creditsSaved {T} _.
Arguments defaultTtl {T} _.

(** What [await getOrFetch(...)] gives: a value, or the fetcher's error. *)
Inductive Result (T : Type) : Type :=
  | Returned (value : option T)
  | Thrown.
Arguments Returned {T} value.
Arguments Thrown {T}.

(** A fetcher whose every fetch resolves to [value] while the clock reads
    [at_], not yet invoked. *)
Definition steady {T} (value : option T) (at_ : Z) : Fetcher T :=
  {| responses := fun _ => Resolved value at_; calls := 0 |}.

Section Methods.
Context {T : Type}.

Definition new (defaultTtlMs : Z) : Cache T :=
  {| store := ∅; stats_hits := 0; stats_misses := 0; creditsSaved := 0;
     defaultTtl := defaultTtlMs |}.

Definition get (c : Cache T) (key : string) (now : Z) : option T * Cache T :=
  match store c !! key with
  | None =>
      (None, {| store := store c; stats_hits := stats_hits c;
                stats_misses := S (stats_misses c);
                creditsSaved := creditsSaved c; defaultTtl := defaultTtl c |})
  | Some entry =>
      if expiry entry <? now then
        (None, {| store := delete key (store c); stats_hits := stats_hits c;
                  stats_misses := S (stats_misses c);
                  creditsSaved := creditsSaved c; defaultTtl := defaultTtl c |})
      else
        let entry' := {| data := data entry; expiry := expiry entry;
                         hits := S (hits entry) |} in
        (data entry, {| store := <[key := entry']> (store c);
                        stats_hits := S (stats_hits c);
                        stats_misses := stats_misses c;
                        creditsSaved := creditsSaved c;
                        defaultTtl := defaultTtl c |})
  end.

(** [ttlMs || this.defaultTtl]: a missing or zero [ttlMs] is falsy. *)
Definition effectiveTtl (c : Cache T) (ttlMs : option Z) : Z :=
  match ttlMs with
  | Some ttl => if ttl =? 0 then defaultTtl c else ttl
  | None => defaultTtl c
  end.

Definition set (c : Cache T) (key : string) (value : option T)
  (ttlMs : option Z) (now : Z) : Cache T :=
  let expiry_ := now + effectiveTtl c ttlMs in
  {| store := <[key := {| data := value; expiry := expiry_; hits := 0 |}]> (store c);
     stats_hits := stats_hits c; stats_misses := stats_misses c;
     creditsSaved := creditsSaved c; defaultTtl := defaultTtl c |}.

(** [getOrFetch(key, fetcher, ttlMs, credits)] entered when the clock reads
    [now]; the clock read by [set] after the [await] is the fetch's [at_]. *)
Definition getOrFetch (c : Cache T) (key : string) (fetcher : Fetcher T)
  (ttlMs : option Z) (credits : Z) (now : Z)
  : Result T * Cache T * Fetcher T :=
  let '(cached, c1) := get c key now in
  match cached with
  | Some v =>
      (Returned (Some v),
       {| store := store c1; stats_hits := stats_hits c1;
          stats_misses := stats_misses c1;
          creditsSaved := creditsSaved c1 + credits;
          defaultTtl := defaultTtl c1 |},
       fetcher)
  | None =>
      match invoke fetcher with
      | (Resolved value at_, fetcher') =>
          (Returned value, set c1 key value ttlMs at_, fetcher')
      | (Rejected, fetcher') => (Thrown, c1, fetcher')
      end
  end.

End Methods.

End Cache.

(** ** rate-limiter.ts *)

Module RateLimiter.

Record RateLimiterConfig : Type := mkConfig {
  maxTokens : Num.number;
  refillRate : Num.number;
  minDelayMs : Z
}.

Record RateLimiter : Type := mkLimiter {
  tokens : Num.number;
  lastRefill : Z;
  lastRequest : Z;
  config : RateLimiterConfig;
  totalRequests : nat;
  throttledRequests : nat;
  totalWaitTimeMs : Z
}.

Definition new (cfg : RateLimiterConfig) (now : Z) : RateLimiter :=
  {| tokens := maxTokens cfg; lastRefill := now; lastRequest := 0;
     config := cfg; totalRequests := 0; throttledRequests := 0;
     totalWaitTimeMs := 0 |}.

Definition refill (rl : RateLimiter) (now : Z) : RateLimiter :=
  let elapsed := Num.div (Num.of_Z (now - lastRefill rl)) (Num.of_Z 1000) in
  let tokensToAdd := Num.mul elapsed (refillRate (config rl)) in
  {| tokens := Qmin (maxTokens (config rl)) (Num.add (tokens rl) tokensToAdd);
     lastRefill := now; lastRequest := lastRequest rl; config := config rl;
     totalRequests := totalRequests rl;
     throttledRequests := throttledRequests rl;
     totalWaitTimeMs := totalWaitTimeMs rl |}.

(** [Math.ceil(waitForTokens) + 10] of the waiting loop.  (With a zero
    [refillRate] the source divides by zero and sleeps without bound; the
    delay only feeds the reported wait.) *)
Definition delayFor (rl : RateLimiter) (cost : Num.number) : Z :=
  let tokensNeeded := Num.sub cost (tokens rl) in
  let waitForTokens :=
    Num.mul (Num.div tokensNeeded (refillRate (config rl))) (Num.of_Z 1000) in
  Qceiling waitForTokens + 10.

(** [this.tokens -= cost; this.lastRequest = Date.now(); ...], the end of
    [acquire]. *)
Definition deduct (rl : RateLimiter) (cost : Num.number) (waitTime now : Z)
  : RateLimiter :=
  {| tokens := Num.sub (tokens rl) cost;
     lastRefill := lastRefill rl; lastRequest := now; config := config rl;
     totalRequests := totalRequests rl;
     throttledRequests := throttledRequests rl;
     totalWaitTimeMs := totalWaitTimeMs rl + waitTime |}.

Definition throttled (rl : RateLimiter) : RateLimiter :=
  {| tokens := tokens rl; lastRefill := lastRefill rl;
     lastRequest := lastRequest rl; config := config rl;
     totalRequests := totalRequests rl;
     throttledRequests := S (throttledRequests rl);
     totalWaitTimeMs := totalWaitTimeMs rl |}.

(** The [while (this.tokens < cost)] loop and what follows it.  [clock] is
    what the coming calls of [Date.now()] read: one per turn of the loop
    (the [refill] after the sleep) and one for [lastRequest].  [None]: the
    call is still asleep when the readings run out. *)
Fixpoint waitForTokens (cost : Num.number) (clock : list Z)
  (rl : RateLimiter) (waitTime : Z) : option (Z * RateLimiter * list Z) :=
  match clock with
  | [] => None
  | now :: rest =>
      if Num.lt (tokens rl) cost then
        let delay := delayFor rl cost in
        waitForTokens cost rest (refill (throttled rl) now) (waitTime + delay)
      else
        Some (waitTime, deduct rl cost waitTime now, rest)
  end.

(** [acquire(cost)]: the first reading is that of the opening [refill], the
    second that of the minimum-delay test. *)
Definition acquire (rl : RateLimiter) (cost : Num.number) (clock : list Z)
  : option (Z * RateLimiter * list Z) :=
  match clock with
  | now0 :: now1 :: rest =>
      let rl0 :=
        {| tokens := tokens rl; lastRefill := lastRefill rl;
           lastRequest := lastRequest rl; config := config rl;
           totalRequests := S (totalRequests rl);
           throttledRequests := throttledRequests rl;
           totalWaitTimeMs := totalWaitTimeMs rl |} in
      let rl1 := refill rl0 now0 in
      let timeSinceLastRequest := now1 - lastRequest rl1 in
      let waitTime :=
        if timeSinceLastRequest <? minDelayMs (config rl1)
        then minDelayMs (config rl1) - timeSinceLastRequest
        else 0 in
      waitForTokens cost rest rl1 waitTime
  | _ => None
  end.

Definition canAcquire (rl : RateLimiter) (cost : Num.number) (now : Z)
  : bool * RateLimiter :=
  let rl' := refill rl now in
  (Num.ge (tokens rl') cost, rl').

(** [getStats().currentTokens]. *)
Definition getStats (rl : RateLimiter) (now : Z) : Z * RateLimiter :=
  let rl' := refill rl now in
  (Qfloor (tokens rl'), rl').

Definition reset (rl : RateLimiter) (now : Z) : RateLimiter :=
  {| tokens := maxTokens (config rl); lastRefill := now; lastRequest := 0;
     config := config rl; totalRequests := totalRequests rl;
     throttledRequests := throttledRequests rl;
     totalWaitTimeMs := totalWaitTimeMs rl |}.

Definition standard : RateLimiterConfig :=
  {| maxTokens := 10%Q; refillRate := 2%Q; minDelayMs := 200 |}.

(** The public operations, for runs of a limiter. *)
Inductive Op : Type :=
  | Acquire (cost : Num.number) (clock : list Z)
  | CanAcquire (cost : Num.number) (now : Z)
  | GetStats (now : Z)
  | Reset (now : Z).

(** One operation run to completion; [None] when an [Acquire] does not
    return within its readings. *)
Definition step (rl : RateLimiter) (o : Op) : option RateLimiter :=
  match o with
  | Acquire cost clock =>
      match acquire rl cost clock with
      | Some (_, rl', _) => Some rl'
      | None => None
      end
  | CanAcquire cost now => Some (snd (canAcquire rl cost now))
  | GetStats now => Some (snd (getStats rl now))
  | Reset now => Some (reset rl now)
  end.

Fixpoint run (rl : RateLimiter) (ops : list Op) : option RateLimiter :=
  match ops with
  | [] => Some rl
  | o :: ops' =>
      match step rl o with
      | Some rl' => run rl' ops'
      | None => None
      end
  end.

End RateLimiter.

(** ** rate-limiter.ts, in the arithmetic of doubles *)

(** The methods of the limiter again, with each arithmetic operation rounded
    as the source's numbers round it; [RateLimiter] above is the same code
    over exact rationals.  The records, [new], [reset], the presets and the
    operations of a run are those of [RateLimiter].  The readings of the
    clock and the minimum delay are whole milliseconds below [2 ^ 53],
    which doubles subtract and compare exactly. *)
Module RateLimiterDouble.
Import RateLimiter.

(** [a + b] on two doubles that hold integers. *)
Definition plus (a b : Z) : Z :=
  Qfloor (Double.add (inject_Z a) (inject_Z b)).

Definition refill (rl : RateLimiter) (now : Z) : RateLimiter :=
  let elapsed :=
    Double.div (Double.sub (inject_Z now) (inject_Z (lastRefill rl)))
      (inject_Z 1000) in
  let tokensToAdd := Double.mul elapsed (refillRate (config rl)) in
  {| tokens :=
       Qmin (maxTokens (config rl)) (Double.add (tokens rl) tokensToAdd);
     lastRefill := now; lastRequest := lastRequest rl; config := config rl;
     totalRequests := totalRequests rl;
     throttledRequests := throttledRequests rl;
     totalWaitTimeMs := totalWaitTimeMs rl |}.

(** [Math.ceil(waitForTokens) + 10] of the waiting loop.  (With a zero
    [refillRate] the source divides by zero and sleeps without bound; the
    delay only feeds the reported wait.) *)
Definition delayFor (rl : RateLimiter) (cost : Num.number) : Z :=
  let tokensNeeded := Double.sub cost (tokens rl) in
  let waitForTokens :=
    Double.mul (Double.div tokensNeeded (refillRate (config rl)))
      (inject_Z 1000) in
  plus (Qceiling waitForTokens) 10.

(** [this.tokens -= cost; this.lastRequest = Date.now(); ...], the end of
    [acquire]. *)
Definition deduct (rl : RateLimiter) (cost : Num.number) (waitTime now : Z)
  : RateLimiter :=
  {| tokens := Double.sub (tokens rl) cost;
     lastRefill := lastRefill rl; lastRequest := now; config := config rl;
     totalRequests := totalRequests rl;
     throttledRequests := throttledRequests rl;
     totalWaitTimeMs := plus (totalWaitTimeMs rl) waitTime |}.

(** The [while (this.tokens < cost)] loop and what follows it, over the
    readings of the clock as in [RateLimiter.waitForTokens]. *)
Fixpoint waitForTokens (cost : Num.number) (clock : list Z)
  (rl : RateLimiter) (waitTime : Z) : option (Z * RateLimiter * list Z) :=
  match clock with
  | [] => None
  | now :: rest =>
      if Num.lt (tokens rl) cost then
        let delay := delayFor rl cost in
        waitForTokens cost rest (refill (throttled rl) now)
          (plus waitTime delay)
      else
        Some (waitTime, deduct rl cost waitTime now, rest)
  end.

Definition acquire (rl : RateLimiter) (cost : Num.number) (clock : list Z)
  : option (Z * RateLimiter * list Z) :=
  match clock with
  | now0 :: now1 :: rest =>
      let rl0 :=
        {| tokens := tokens rl; lastRefill := lastRefill rl;
           lastRequest := lastRequest rl; config := config rl;
           totalRequests := S (totalRequests rl);
           throttledRequests := throttledRequests rl;
           totalWaitTimeMs := totalWaitTimeMs rl |} in
      let rl1 := refill rl0 now0 in
      let timeSinceLastRequest := now1 - lastRequest rl1 in
      let waitTime :=
        if timeSinceLastRequest <? minDelayMs (config rl1)
        then plus 0 (minDelayMs (config rl1) - timeSinceLastRequest)
        else 0 in
      waitForTokens cost rest rl1 waitTime
  | _ => None
  end.

Definition canAcquire (rl : RateLimiter) (cost : Num.number) (now : Z)
  : bool * RateLimiter :=
  let rl' := refill rl now in
  (Num.ge (tokens rl') cost, rl').

Definition getStats (rl : RateLimiter) (now : Z) : Z * RateLimiter :=
  let rl' := refill rl now in
  (Qfloor (tokens rl'), rl').

Definition step (rl : RateLimiter) (o : Op) : option RateLimiter :=
  match o with
  | Acquire cost clock =>
      match acquire rl cost clock with
      | Some (_, rl', _) => Some rl'
      | None => None
      end
  | CanAcquire cost now => Some (snd (canAcquire rl cost now))
  | GetStats now => Some (snd (getStats rl now))
  | Reset now => Some (reset rl now)
  end.

Fixpoint run (rl : RateLimiter) (ops : list Op) : option RateLimiter :=
  match ops with
  | [] => Some rl
  | o :: ops' =>
      match step rl o with
      | Some rl' => run rl' ops'
      | None => None
      end
  end.






End RateLimiterDouble.

(** ** trader.ts *)

Module NansenTrader.

Record RiskConfig : Type := mkRisk {
  minScore : Num.number;
  maxSignalsPerScan : Z;
  dedupeWindowMs : Z;
  allowedChains : option (list Chain);
  excludedChains : option (list Chain);
  minLiquidity : option Num.number;
  minHolders : option Num.number;
  maxMcap : option Num.number;
  minMcap : option Num.number;
  minSmartMoneyBuyers : option Num.number;
  minNetflowUsd : option Num.number;
  minFreshWallets : option Num.number
}.

Definition DEFAULT_RISK_CONFIG : RiskConfig :=
  {| minScore := 2%Q;
     maxSignalsPerScan := 10;
     dedupeWindowMs := 60 * 60 * 1000;
     allowedChains := None;
     excludedChains := None;
     minLiquidity := Some 10000%Q;
     minHolders := Some 100%Q;
     maxMcap := None;
     minMcap := None;
     minSmartMoneyBuyers := Some 3%Q;
     minNetflowUsd := Some 10000%Q;
     minFreshWallets := Some 5%Q |}.

Inductive Recommendation : Set := strong_buy | buy | watch | avoid.

(** ['buy' | 'sell' | 'wait'], ['high' | 'medium' | 'low'] and
    ['small' | 'medium' | 'large'] of [SuggestedAction]. *)
Inductive Suggested : Set := do_buy | do_sell | do_wait.
Inductive Urgency : Set := high | medium | low.
Inductive PositionSize : Set := size_small | size_medium | size_large.

Record SuggestedAction : Type := mkSuggested {
  sa_action : Suggested;
  urgency : Urgency;
  reasoning : string;
  targetChain : Chain;
  targetToken : string;
  positionSizeHint : PositionSize
}.

(** [TradingSignal extends LoggedSignal]. *)
Record TradingSignal : Type := mkTrading {
  logged_of : LoggedSignal;
  riskScore : Z;
  riskFactors : list string;
  recommendation : Recommendation;
  confidence : Num.number;
  suggestedAction : option SuggestedAction
}.

Definition ts_score (t : TradingSignal) : Num.number :=
  score (signal_of (logged_of t)).

(** [risk.T && m.x && f(m.x) < risk.T], the condition of each metric
    filter ([f] is [Math.abs] for the netflow and nothing otherwise). *)
Definition belowThreshold (threshold metric : option Num.number)
  (f : Num.number -> Num.number) : bool :=
  match threshold, metric with
  | Some t, Some v => Num.truthy t && Num.truthy v && Num.lt (f v) t
  | _, _ => false
  end.

(** The callback of the [filter] in [applyRiskFilters]. *)
Definition passesRiskFilters (risk : RiskConfig) (s : OpportunitySignal) : bool :=
  if Num.lt (score s) (minScore risk) then false
  else
    let m := metrics s in
    if belowThreshold (minSmartMoneyBuyers risk) (m !! "buyers") (fun v => v)
    then false
    else if belowThreshold (minNetflowUsd risk) (m !! "netflow24h") Num.abs
    then false
    else if belowThreshold (minFreshWallets risk) (m !! "freshWallets") (fun v => v)
    then false
    else true.

Definition applyRiskFilters (signals : list OpportunitySignal)
  (risk : RiskConfig) : list OpportunitySignal :=
  List.filter (passesRiskFilters risk) signals.

(** A [Map<string, V>] whose iteration order matters: the entries in order
    of first insertion; [set] on a key that is there replaces its value in
    place. *)
Fixpoint map_get {V} (m : list (string * V)) (k : string) : option V :=
  match m with
  | [] => None
  | (k', v) :: m' => if String.eqb k' k then Some v else map_get m' k
  end.

Fixpoint map_set {V} (m : list (string * V)) (k : string) (v : V)
  : list (string * V) :=
  match m with
  | [] => [(k, v)]
  | (k', v') :: m' =>
      if String.eqb k' k then (k, v) :: m' else (k', v') :: map_set m' k v
  end.

Definition dedupKey (signal : OpportunitySignal) : string :=
  chain_name (chain signal) +:+ ":" +:+ token signal.

(** The body of the loop of [deduplicateSignals]; [recent] stands for
    [this.signalLog.hasRecentSignal(_, windowMs)]. *)
Definition dedupStep (recent : OpportunitySignal -> bool)
  (seen : list (string * OpportunitySignal)) (signal : OpportunitySignal)
  : list (string * OpportunitySignal) :=
  let key := dedupKey signal in
  if recent signal then seen
  else
    match map_get seen key with
    | None => map_set seen key signal
    | Some existing =>
        if Num.gt (score signal) (score existing)
        then map_set seen key signal
        else seen
    end.

Definition deduplicateSignals (recent : OpportunitySignal -> bool)
  (signals : list OpportunitySignal) : list OpportunitySignal :=
  snd <$> fold_left (dedupStep recent) signals [].

(** The entries of a [seen] map: one per key, each under the key of its
    candidate. *)
Inductive SeenOk : list (string * OpportunitySignal) -> Prop :=
  | SeenOk_nil : SeenOk []
  | SeenOk_cons (s : OpportunitySignal) (m : list (string * OpportunitySignal)) :
      map_get m (dedupKey s) = None -> SeenOk m ->
      SeenOk ((dedupKey s, s) :: m).

(** [parts.join(sep)]. *)
Fixpoint join (sep : string) (parts : list string) : string :=
  match parts with
  | [] => ""
  | [p] => p
  | p :: rest => p +:+ sep +:+ join sep rest
  end.

(** [m.a && m.b && m.a > g(m.b)]. *)
Definition bothAnd (a b : option Num.number)
  (test : Num.number -> Num.number -> bool) : bool :=
  match a, b with
  | Some x, Some y => Num.truthy x && Num.truthy y && test x y
  | _, _ => false
  end.

(** The callback of the [map] in [scoreSignals], when [new Date()] reads
    [now]. *)
Definition scoreSignal (now : Z) (signal : OpportunitySignal) : TradingSignal :=
  let riskScore0 :=
    if Num.gt (score signal) 5%Q then 2
    else if Num.gt (score signal) 3%Q then 1
    else 0 in
  let m := metrics signal in
  let '(riskScore1, factors1) :=
    if bothAnd (m !! "buyers") (m !! "sellers")
         (fun b s => Num.gt b (Num.mul s 2%Q))
    then (riskScore0 + 1, ["Strong buyer/seller ratio"])
    else (riskScore0, []) in
  let '(riskScore2, factors2) :=
    if match m !! "netflow24h" with
       | Some n => Num.truthy n && Num.gt n 100000%Q
       | None => false
       end
    then (riskScore1 + 1, factors1 ++ ["High netflow"])
    else (riskScore1, factors1) in
  let '(riskScore3, factors3) :=
    if bothAnd (m !! "sellers") (m !! "buyers") (fun s b => Num.gt s b)
    then (riskScore2 - 1, factors2 ++ ["More sellers than buyers"])
    else (riskScore2, factors2) in
  let '(recommendation_, confidence_) :=
    if 3 <=? riskScore3 then (strong_buy, 0.8%Q)
    else if 1 <=? riskScore3 then (buy, 0.6%Q)
    else if 0 <=? riskScore3 then (watch, 0.4%Q)
    else (avoid, 0.3%Q) in
  let isStrong :=
    match recommendation_ with strong_buy => true | _ => false end in
  let suggested :=
    match recommendation_ with
    | strong_buy | buy =>
        Some {| sa_action := do_buy;
                urgency := if isStrong then high else medium;
                reasoning :=
                  (let joined := join "; " factors3 in
                   if String.eqb joined "" then "Positive signal detected"
                   else joined);
                targetChain := chain signal;
                targetToken := token signal;
                positionSizeHint :=
                  if isStrong then size_medium else size_small |}
    | _ => None
    end in
  {| logged_of :=
       {| signal_of := signal;
          sig_id := SignalLog.generateId signal;
          loggedAt := now;
          acted := false;
          outcome := None |};
     riskScore := riskScore3;
     riskFactors := factors3;
     recommendation := recommendation_;
     confidence := confidence_;
     suggestedAction := suggested |}.

(** [(a, b) => b.riskScore - a.riskScore || b.score - a.score]. *)
Definition compareSignals (a b : TradingSignal) : Num.number :=
  let byRisk := Num.of_Z (riskScore b - riskScore a) in
  if Num.truthy byRisk then byRisk else Num.sub (ts_score b) (ts_score a).

(** [Array.prototype.sort(compare)].  The sort of the language is stable,
    and under a comparator that is a total preorder the stable sorted
    arrangement of an array is unique; insertion from the right computes
    it: an element goes behind exactly those it must follow. *)
Fixpoint insert {A} (compare : A -> A -> Num.number) (x : A) (l : list A)
  : list A :=
  match l with
  | [] => [x]
  | y :: l' =>
      if Num.gt (compare x y) 0%Q then y :: insert compare x l' else x :: l
  end.

Definition sort {A} (compare : A -> A -> Num.number) (l : list A) : list A :=
  foldr (insert compare) [] l.

Definition scoreSignals (now : Z) (signals : list OpportunitySignal)
  : list TradingSignal :=
  sort compareSignals (scoreSignal now <$> signals).

(** [array.slice(0, end)]: a negative [end] counts from the back. *)
Definition slice0 {A} (l : list A) (end_ : Z) : list A :=
  if end_ <? 0 then take (Z.to_nat (Z.of_nat (length l) + end_)) l
  else take (Z.to_nat end_) l.

Record ScanOptions : Type := mkOptions {
  limit : option Z;
  riskOverride : RiskConfig -> RiskConfig
}.

Record NansenTrader : Type := mkTrader {
  signalLog : SignalLog.store;
  riskConfig : RiskConfig
}.

(** The three stages of the risk engine as [scan] chains them. *)
Definition riskEngine (recent : OpportunitySignal -> bool) (risk : RiskConfig)
  (now : Z) (signals : list OpportunitySignal) : list TradingSignal :=
  scoreSignals now (deduplicateSignals recent (applyRiskFilters signals risk)).

(** [scan(options)] from the point where the fetch loop has filled
    [allSignals]: the chain filter, the rate limiter, the cache and the
    vendor API only decide what [allSignals] holds.  [riskOverride] is the
    spread of [options.riskOverride] over a configuration.  This is the
    scan with [analyze] off, its default (the MCP enrichment only adds a
    property to the first three signals): what follows the fetch loop then
    runs without suspending, and [now] stands for every reading of the
    clock it takes. *)
Definition scan (t : NansenTrader) (options : ScanOptions)
  (allSignals : list OpportunitySignal) (now : Z)
  : list TradingSignal * NansenTrader :=
  let limit_ := default (maxSignalsPerScan (riskConfig t)) (limit options) in
  let effectiveRisk := riskOverride options (riskConfig t) in
  let filtered := applyRiskFilters allSignals effectiveRisk in
  let deduped :=
    deduplicateSignals
      (fun s => SignalLog.hasRecentSignal (signalLog t) s
                  (dedupeWindowMs effectiveRisk) now)
      filtered in
  let scored := scoreSignals now deduped in
  let topSignals := slice0 scored limit_ in
  let signalLog' :=
    fold_left
      (fun signals s => snd (SignalLog.log signals (signal_of (logged_of s)) now))
      topSignals (signalLog t) in
  (topSignals, {| signalLog := signalLog'; riskConfig := riskConfig t |}).

(** A trading signal with another [loggedAt]. *)
Definition withLoggedAt (now : Z) (t : TradingSignal) : TradingSignal :=
  {| logged_of :=
       {| signal_of := signal_of (logged_of t);
          sig_id := sig_id (logged_of t);
          loggedAt := now;
          acted := acted (logged_of t);
          outcome := outcome (logged_of t) |};
     riskScore := riskScore t;
     riskFactors := riskFactors t;
     recommendation := recommendation t;
     confidence := confidence t;
     suggestedAction := suggestedAction t |}.

(** The order of the output: higher [riskScore] first, and among equal
    ones the higher [score] first. *)
Definition ranksBefore (a b : TradingSignal) : Prop :=
  riskScore b < riskScore a
  \/ (riskScore a = riskScore b /\ (ts_score b <= ts_score a)%Q).

(** A configuration with another [maxSignalsPerScan]. *)
Definition withMaxSignals (n : Z) (risk : RiskConfig) : RiskConfig :=
  {| minScore := minScore risk;
     maxSignalsPerScan := n;
     dedupeWindowMs := dedupeWindowMs risk;
     allowedChains := allowedChains risk;
     excludedChains := excludedChains risk;
     minLiquidity := minLiquidity risk;
     minHolders := minHolders risk;
     maxMcap := maxMcap risk;
     minMcap := minMcap risk;
     minSmartMoneyBuyers := minSmartMoneyBuyers risk;
     minNetflowUsd := minNetflowUsd risk;
     minFreshWallets := minFreshWallets risk |}.

(** A trader with an empty signal log, and [scan()] without options. *)
Definition newTrader (risk : RiskConfig) : NansenTrader :=
  {| signalLog := ∅; riskConfig := risk |}.

Definition noOptions : ScanOptions :=
  {| limit := None; riskOverride := fun risk => risk |}.

(** A metric filter drops a candidate: threshold and metric are there,
    neither is zero, and the metric (through [f]) is below the
    threshold. *)
Definition dropsOn (threshold metric : option Num.number)
  (f : Num.number -> Num.number) : Prop :=
  exists t v : Num.number,
    threshold = Some t /\ metric = Some v
    /\ ~ (t == 0)%Q /\ ~ (v == 0)%Q /\ (f v < t)%Q.

End NansenTrader.

(** ** cache.ts, the other methods *)

Module CacheOps.
Import Cache.

Section Methods.
Context {T : Type}.

Definition withStore (c : Cache T) (s : gmap string (CacheEntry T)) : Cache T :=
  {| store := s; stats_hits := stats_hits c; stats_misses := stats_misses c;
     creditsSaved := creditsSaved c; defaultTtl := defaultTtl c |}.

(** [invalidate(key)]: what [Map.delete] returns, and the cache without
    the key. *)
Definition invalidate (c : Cache T) (key : string) : bool * Cache T :=
  (bool_decide (is_Some (store c !! key)),
   withStore c (delete key (store c))).

Definition clear (c : Cache T) : Cache T := withStore c ∅.

(** The loop that [prune] and [invalidatePattern] share: every entry of the
    map is visited once; an entry that meets the test is deleted and
    counted. *)
Definition sweepStep (test : string -> CacheEntry T -> bool)
  (acc : nat * gmap string (CacheEntry T)) (kv : string * CacheEntry T)
  : nat * gmap string (CacheEntry T) :=
  if test (fst kv) (snd kv) then (S (fst acc), delete (fst kv) (snd acc))
  else acc.

Definition sweep (test : string -> CacheEntry T -> bool) (c : Cache T)
  : nat * Cache T :=
  let r := foldl (sweepStep test) (0%nat, store c) (map_to_list (store c)) in
  (fst r, withStore c (snd r)).

(** [prune()] when [Date.now()] reads [now]. *)
Definition prune (c : Cache T) (now : Z) : nat * Cache T :=
  sweep (fun _ entry => expiry entry <? now) c.

(** [invalidatePattern(pattern)]; [test] is [new RegExp(pattern).test]. *)
Definition invalidatePattern (c : Cache T) (test : string -> bool)
  : nat * Cache T :=
  sweep (fun key _ => test key) c.

(** [getStats()]: hits, misses, entries, creditsSaved. *)
Definition getStats (c : Cache T) : nat * nat * nat * Z :=
  (stats_hits c, stats_misses c, size (store c), creditsSaved c).

End Methods.

(** [Array.prototype.sort()] on strings: ascending in the order of their
    code units (the keys of this repository are ASCII, where that is the
    order of the bytes). *)
Fixpoint insertKey (k : string) (l : list string) : list string :=
  match l with
  | [] => [k]
  | k' :: l' => if String.leb k k' then k :: l else k' :: insertKey k l'
  end.

Definition sortKeys (l : list string) : list string := foldr insertKey [] l.

(** The order of that sort. *)
Definition keyLe (a b : string) : Prop := String.leb a b = true.

(** [params[k]] on an object given by its properties in order. *)
Fixpoint property {V} (params : list (string * V)) (k : string) : option V :=
  match params with
  | [] => None
  | (k', v) :: rest => if String.eqb k' k then Some v else property rest k
  end.

Section MakeKey.
Context {V : Type}.
(** [JSON.stringify] of a value ([None] is [undefined]; a missing property
    cannot come up, the keys being those of the object). *)
Variable stringify : option V -> string.

(** [Cache.makeKey(prefix, params)]; [params] lists the properties of the
    object, whose names [Object.keys] gives before they are sorted. *)
Definition makeKey (prefix : string) (params : list (string * V)) : string :=
  let sorted :=
    NansenTrader.join "&"
      ((fun k => k +:+ "=" +:+ stringify (property params k))
         <$> sortKeys (fst <$> params)) in
  prefix +:+ ":" +:+ sorted.

End MakeKey.

End CacheOps.

(** ** signal-log.ts, the other methods *)

Module SignalLogOps.
Import SignalLog.

(** What [load] finds on disk: no file, a file that [JSON.parse] rejects,
    or the array that was saved. *)
Inductive Snapshot : Type :=
  | NoFile
  | Corrupt
  | Saved (data : list LoggedSignal).

(** The loop of [load] over the parsed array, from the cleared map. *)
Definition loadFrom (data : list LoggedSignal) : store :=
  foldl (fun signals signal => <[sig_id signal := signal]> signals) ∅ data.

(** [load()]: without a file it returns at once, and a parse error is
    caught before the map is cleared.  (A file that parses to something
    other than an array is left out.) *)
Definition load (signals : store) (file : Snapshot) : store :=
  match file with
  | NoFile => signals
  | Corrupt => signals
  | Saved data => loadFrom data
  end.

(** [values] can be [Array.from(this.signals.values())], the array that
    [save] writes and [find] starts from: the records of the map, in the
    order they were put in. *)
Definition listing (signals : store) (values : list LoggedSignal) : Prop :=
  values ≡ₚ snd <$> map_to_list signals.

Definition clear (signals : store) : store := ∅.

Record SignalFilter : Type := mkFilter {
  f_chains : option (list Chain);
  f_modes : option (list ScanMode);
  f_minScore : option Num.number;
  f_maxScore : option Num.number;
  f_acted : option bool;
  f_hasOutcome : option bool;
  f_startDate : option Z;
  f_endDate : option Z;
  f_limit : option Z
}.

(** The filter [{}]. *)
Definition noFilter : SignalFilter :=
  {| f_chains := None; f_modes := None; f_minScore := None;
     f_maxScore := None; f_acted := None; f_hasOutcome := None;
     f_startDate := None; f_endDate := None; f_limit := None |}.

(** [s.outcome?.pnl !== undefined]. *)
Definition hasPnl (s : LoggedSignal) : bool :=
  match outcome s ≫= pnl with
  | Some _ => true
  | None => false
  end.

(** One [if (criterion) results = results.filter(test)] of [find]. *)
Definition narrow {A} (criterion : option A) (test : A -> LoggedSignal -> bool)
  (results : list LoggedSignal) : list LoggedSignal :=
  match criterion with
  | Some a => List.filter (test a) results
  | None => results
  end.

(** [filter.chains?.length]: an empty list is no criterion. *)
Definition nonEmpty {A} (l : option (list A)) : option (list A) :=
  match l with
  | Some (a :: rest) => Some (a :: rest)
  | _ => None
  end.

(** [(a, b) => new Date(b.loggedAt).getTime() - new Date(a.loggedAt).getTime()]. *)
Definition newestFirst (a b : LoggedSignal) : Num.number :=
  Num.of_Z (loggedAt b - loggedAt a).

(** [find(filter)] over the values of the map.  The dates of the filter
    are the readings they parse to. *)
Definition find (values : list LoggedSignal) (filter : SignalFilter)
  : list LoggedSignal :=
  let r1 :=
    narrow (nonEmpty (f_chains filter))
      (fun chains s => bool_decide (chain (signal_of s) ∈ chains)) values in
  let r2 :=
    narrow (nonEmpty (f_modes filter))
      (fun modes s => bool_decide (sig_type (signal_of s) ∈ modes)) r1 in
  let r3 :=
    narrow (f_minScore filter)
      (fun minScore s => Num.ge (score (signal_of s)) minScore) r2 in
  let r4 :=
    narrow (f_maxScore filter)
      (fun maxScore s => Num.ge maxScore (score (signal_of s))) r3 in
  let r5 := narrow (f_acted filter) (fun a s => Bool.eqb (acted s) a) r4 in
  let r6 :=
    narrow (f_hasOutcome filter)
      (fun has s => if has then hasPnl s else negb (hasPnl s)) r5 in
  let r7 := narrow (f_startDate filter) (fun start s => start <=? loggedAt s) r6 in
  let r8 := narrow (f_endDate filter) (fun end_ s => loggedAt s <=? end_) r7 in
  let sorted := NansenTrader.sort newestFirst r8 in
  match f_limit filter with
  | Some n => if n =? 0 then sorted else NansenTrader.slice0 sorted n
  | None => sorted
  end.

(** A stored signal meets the criteria of a filter. *)
Definition meets (filter : SignalFilter) (s : LoggedSignal) : Prop :=
  (forall c cs, f_chains filter = Some (c :: cs) ->
     chain (signal_of s) ∈ c :: cs)
  /\ (forall m ms, f_modes filter = Some (m :: ms) ->
       sig_type (signal_of s) ∈ m :: ms)
  /\ (forall q, f_minScore filter = Some q -> (q <= score (signal_of s))%Q)
  /\ (forall q, f_maxScore filter = Some q -> (score (signal_of s) <= q)%Q)
  /\ (forall a, f_acted filter = Some a -> acted s = a)
  /\ (forall has, f_hasOutcome filter = Some has ->
       is_Some (outcome s ≫= pnl) <-> has = true)
  /\ (forall start, f_startDate filter = Some start -> start <= loggedAt s)
  /\ (forall end_, f_endDate filter = Some end_ -> loggedAt s <= end_).

Record SignalStats : Type := mkStats {
  totalSignals : nat;
  actedOn : nat;
  skipped : nat;
  withOutcome : nat;
  profitableCount : nat;
  totalPnl : Num.number;
  winRate : Num.number;
  avgScore : Num.number;
  avgPnlPercent : Num.number;
  byChain : gmap string nat;
  byMode : gmap string nat
}.

(** [histogram[key] = (histogram[key] || 0) + 1]. *)
Definition count1 (histogram : gmap string nat) (key : string)
  : gmap string nat :=
  <[key := S (default 0%nat (histogram !! key))]> histogram.

(** [array.length] as a number. *)
Definition len {A} (l : list A) : Num.number := Num.of_Z (Z.of_nat (length l)).

(** [array.reduce((sum, s) => sum + f(s), 0)]. *)
Definition sumOf {A} (f : A -> Num.number) (l : list A) : Num.number :=
  fold_left (fun sum s => Num.add sum (f s)) l 0%Q.

(** [getStats(filter)] over the values of the map. *)
Definition getStats (values : list LoggedSignal) (filter : SignalFilter)
  : SignalStats :=
  let signals := find values filter in
  let withOutcome_ := List.filter hasPnl signals in
  let pnlOf (s : LoggedSignal) := default 0%Q (outcome s ≫= pnl) in
  let profitable :=
    List.filter (fun s => Num.gt (pnlOf s) 0%Q) withOutcome_ in
  {| totalSignals := length signals;
     actedOn := length (List.filter acted signals);
     skipped := length (List.filter (fun s => negb (acted s)) signals);
     withOutcome := length withOutcome_;
     profitableCount := length profitable;
     totalPnl := sumOf pnlOf withOutcome_;
     winRate :=
       if (0 <? length withOutcome_)%nat
       then Num.div (len profitable) (len withOutcome_) else 0%Q;
     avgScore :=
       if (0 <? length signals)%nat
       then Num.div (sumOf (fun s => score (signal_of s)) signals) (len signals)
       else 0%Q;
     avgPnlPercent :=
       if (0 <? length withOutcome_)%nat
       then Num.div
              (sumOf (fun s => default 0%Q (outcome s ≫= pnlPercent))
                 withOutcome_)
              (len withOutcome_)
       else 0%Q;
     byChain :=
       fold_left (fun h s => count1 h (chain_name (chain (signal_of s))))
         signals ∅;
     byMode :=
       fold_left (fun h s => count1 h (mode_name (sig_type (signal_of s))))
         signals ∅ |}.

End SignalLogOps.

(** ** trader.ts, the other methods *)

Module TraderOps.
Import NansenTrader.

(** [filterChains(chains, risk)]: [list?.length] makes an empty list no
    list. *)
Definition filterChains (chains : list Chain) (risk : RiskConfig)
  : list Chain :=
  let filtered :=
    match allowedChains risk with
    | Some (a :: allowed) =>
        List.filter (fun c => bool_decide (c ∈ a :: allowed)) chains
    | _ => chains
    end in
  match excludedChains risk with
  | Some (e :: excluded) =>
      List.filter (fun c => negb (bool_decide (c ∈ e :: excluded))) filtered
  | _ => filtered
  end.

(** A configuration with another [minScore]. *)
Definition withMinScore (q : Num.number) (risk : RiskConfig) : RiskConfig :=
  {| minScore := q;
     maxSignalsPerScan := maxSignalsPerScan risk;
     dedupeWindowMs := dedupeWindowMs risk;
     allowedChains := allowedChains risk;
     excludedChains := excludedChains risk;
     minLiquidity := minLiquidity risk;
     minHolders := minHolders risk;
     maxMcap := maxMcap risk;
     minMcap := minMcap risk;
     minSmartMoneyBuyers := minSmartMoneyBuyers risk;
     minNetflowUsd := minNetflowUsd risk;
     minFreshWallets := minFreshWallets risk |}.

(** The candidate a trading signal was scored from. *)
Definition candidateOf (t : TradingSignal) : OpportunitySignal :=
  signal_of (logged_of t).

(** Two candidates aim at the same token on the same chain in the same
    mode: what [hasRecentSignal] compares. *)
Definition sameAim (a b : OpportunitySignal) : Prop :=
  token a = token b /\ chain a = chain b /\ sig_type a = sig_type b.

End TraderOps.

(** ** api.ts *)

Module NansenClient.

(** An item of the response to [/smart-money/netflow], with the properties
    that the scan reads.  The cast [item.chain as Chain] is taken at its
    word. *)
Record RawSmartMoneyNetflow : Type := mkRawNetflow {
  token_address : string;
  token_symbol : string;
  net_flow_24h_usd : Num.number;
  net_flow_7d_usd : Num.number;
  raw_chain : Chain;
  trader_count : Num.number;
  market_cap_usd : Num.number
}.

Record SmartMoneyNetflow : Type := mkNetflow {
  item_token : string;
  item_symbol : string;
  item_chain : Chain;
  netflow : Num.number;
  netflowUsd : Num.number;
  netflow7d : Num.number;
  traderCount : Num.number;
  marketCap : Num.number
}.

(** The callback of the [map] over [response.data]. *)
Definition normalize (item : RawSmartMoneyNetflow) : SmartMoneyNetflow :=
  {| item_token := token_address item;
     item_symbol := token_symbol item;
     item_chain := raw_chain item;
     netflow := net_flow_24h_usd item;
     netflowUsd := net_flow_24h_usd item;
     netflow7d := net_flow_7d_usd item;
     traderCount := trader_count item;
     marketCap := market_cap_usd item |}.

(** ['inflow' | 'outflow' | 'all']. *)
Inductive FlowDirection : Set := inflow | outflow | all.

Record SmartMoneyRequest : Type := mkRequest {
  rq_chain : Chain;
  chains : option (list Chain);
  direction : option FlowDirection;
  minValue : option Num.number;
  rq_limit : option Z
}.

(** [Math.min] of two numbers. *)
Definition min (a b : Num.number) : Num.number :=
  if Num.lt b a then b else a.

(** [x || 0] on a number. *)
Definition orZero (x : Num.number) : Num.number :=
  if Num.truthy x then x else 0%Q.

Definition byDirection (dir : option FlowDirection)
  (data : list SmartMoneyNetflow) : list SmartMoneyNetflow :=
  match dir with
  | Some inflow => List.filter (fun d => Num.gt (netflow d) 0%Q) data
  | Some outflow => List.filter (fun d => Num.lt (netflow d) 0%Q) data
  | _ => data
  end.

Definition byMinValue (minValue_ : option Num.number)
  (data : list SmartMoneyNetflow) : list SmartMoneyNetflow :=
  if Num.truthy_opt minValue_
  then List.filter
         (fun d => Num.ge (Num.abs (netflowUsd d)) (default 0%Q minValue_))
         data
  else data.

(** [if (params.chain && !params.chains)]: the name of a chain is never
    empty, and an array is truthy even when empty. *)
Definition byChain (params : SmartMoneyRequest)
  (data : list SmartMoneyNetflow) : list SmartMoneyNetflow :=
  match chains params with
  | None => List.filter (fun d => bool_decide (item_chain d = rq_chain params)) data
  | Some _ => data
  end.

Definition byNetflow (a b : SmartMoneyNetflow) : Num.number :=
  Num.sub (Num.abs (netflowUsd b)) (Num.abs (netflowUsd a)).

(** [getSmartMoneyNetflow(params)] from the point where the request has
    answered: [response] is the [data] of the answer, [None] when it has
    none. *)
Definition getSmartMoneyNetflow (params : SmartMoneyRequest)
  (response : option (list RawSmartMoneyNetflow)) : list SmartMoneyNetflow :=
  let data := normalize <$> default [] response in
  let data := byDirection (direction params) data in
  let data := byMinValue (minValue params) data in
  let data := byChain params data in
  let data := NansenTrader.sort byNetflow data in
  match rq_limit params with
  | Some n => if n =? 0 then data else NansenTrader.slice0 data n
  | None => data
  end.

Definition calculateScore (item : SmartMoneyNetflow) : Num.number :=
  let netflowScore :=
    min (Num.div (Num.abs (netflowUsd item)) 50000%Q) 5%Q in
  let traderScore := min (Num.div (traderCount item) 5%Q) 3%Q in
  let trendBonus :=
    if Num.truthy (netflow7d item) then
      let sameDirection :=
        (Num.gt (netflow item) 0%Q && Num.gt (netflow7d item) 0%Q)
        || (Num.lt (netflow item) 0%Q && Num.lt (netflow7d item) 0%Q) in
      if sameDirection then 2%Q else 0%Q
    else 0%Q in
  Num.add (Num.add netflowScore traderScore) trendBonus.

Definition byScore (a b : OpportunitySignal) : Num.number :=
  Num.sub (score b) (score a).

(** What a request is expected to meet. *)
Definition meetsRequest (params : SmartMoneyRequest) (d : SmartMoneyNetflow)
  : Prop :=
  (direction params = Some inflow -> (0 < netflow d)%Q)
  /\ (direction params = Some outflow -> (netflow d < 0)%Q)
  /\ (forall v, minValue params = Some v -> ~ (v == 0)%Q ->
       (v <= Qabs (netflowUsd d))%Q)
  /\ (chains params = None -> item_chain d = rq_chain params).

Section Scan.

(** The text of a number in a template literal, the text that
    [formatNumber] makes of one (it rounds with [toFixed]) and the
    [new Date().toISOString()] read for the signal at each position are
    taken as given. *)
Variable show : Num.number -> string.
Variable formatNumber : Num.number -> string.
Variable stamps : nat -> string.

Definition metricsOf (item : SmartMoneyNetflow) : gmap string Num.number :=
  list_to_map
    [("netflow24h", netflowUsd item);
     ("netflow7d", orZero (netflow7d item));
     ("traderCount", traderCount item);
     ("marketCap", orZero (marketCap item))].

(** The signal pushed for [item] in each case of the [switch]. *)
Definition signalOf (mode : ScanMode) (i : nat) (item : SmartMoneyNetflow)
  : OpportunitySignal :=
  match mode with
  | accumulation =>
      {| sig_type := accumulation;
         token := item_token item;
         symbol := item_symbol item;
         chain := item_chain item;
         score := calculateScore item;
         reason := show (traderCount item) +:+ " smart traders, $" +:+
                   formatNumber (netflowUsd item) +:+ " net inflow (24h)";
         metrics := metricsOf item;
         timestamp := stamps i |}
  | distribution =>
      {| sig_type := distribution;
         token := item_token item;
         symbol := item_symbol item;
         chain := item_chain item;
         score := Num.abs (calculateScore item);
         reason := show (traderCount item) +:+ " smart traders exiting, $" +:+
                   formatNumber (Num.abs (netflowUsd item)) +:+
                   " outflow (24h)";
         metrics := metricsOf item;
         timestamp := stamps i |}
  | _ =>
      let isAccumulation := Num.gt (netflow item) 0%Q in
      {| sig_type := if isAccumulation then accumulation else distribution;
         token := item_token item;
         symbol := item_symbol item;
         chain := item_chain item;
         score := Num.abs (calculateScore item);
         reason := show (traderCount item) +:+ " smart traders, $" +:+
                   formatNumber (Num.abs (netflowUsd item)) +:+ " " +:+
                   (if isAccumulation then "inflow" else "outflow");
         metrics := metricsOf item;
         timestamp := stamps i |}
  end.

(** The request of each case; [params.limit || 20]. *)
Definition requestOf (chain_ : Chain) (mode : ScanMode) (limit_ : option Z)
  : SmartMoneyRequest :=
  let limit' :=
    match limit_ with
    | Some n => if n =? 0 then 20 else n
    | None => 20
    end in
  match mode with
  | accumulation =>
      {| rq_chain := chain_; chains := None; direction := Some inflow;
         minValue := Some 10000%Q; rq_limit := Some limit' |}
  | distribution =>
      {| rq_chain := chain_; chains := None; direction := Some outflow;
         minValue := None; rq_limit := Some limit' |}
  | _ =>
      {| rq_chain := chain_; chains := None; direction := None;
         minValue := None; rq_limit := Some limit' |}
  end.

(** [scanOpportunities({chain, mode, limit})] from the point where the
    request has answered. *)
Definition scanOpportunities (chain_ : Chain) (mode : ScanMode)
  (limit_ : option Z) (response : option (list RawSmartMoneyNetflow))
  : list OpportunitySignal :=
  let netflow_ := getSmartMoneyNetflow (requestOf chain_ mode limit_) response in
  NansenTrader.sort byScore (imap (signalOf mode) netflow_).

End Scan.

End NansenClient.

(** * Properties *)

(** ** Numbers *)

Section NumFacts.

Lemma lt_true (a b : Num.number) : Num.lt a b = true <-> (a < b)%Q.
Proof.
  unfold Num.lt. rewrite negb_true_iff, <- not_true_iff_false, Qle_bool_iff.
  split; [apply Qnot_le_lt | apply Qlt_not_le].
Qed.

Lemma lt_false (a b : Num.number) : Num.lt a b = false <-> (b <= a)%Q.
Proof.
  unfold Num.lt. rewrite negb_false_iff. apply Qle_bool_iff.
Qed.

Lemma gt_true (a b : Num.number) : Num.gt a b = true <-> (b < a)%Q.
Proof. apply lt_true. Qed.

Lemma gt_false (a b : Num.number) : Num.gt a b = false <-> (a <= b)%Q.
Proof. apply lt_false. Qed.

Lemma truthy_true (a : Num.number) : Num.truthy a = true <-> ~ (a == 0)%Q.
Proof.
  unfold Num.truthy.
  rewrite negb_true_iff, <- not_true_iff_false, Qeq_bool_iff. reflexivity.
Qed.

Lemma truthy_false (a : Num.number) : Num.truthy a = false <-> (a == 0)%Q.
Proof.
  unfold Num.truthy. rewrite negb_false_iff. apply Qeq_bool_iff.
Qed.

Lemma sub_eq (a b : Num.number) : (Num.sub a b == a - b)%Q.
Proof. apply Qred_correct. Qed.

Lemma add_eq (a b : Num.number) : (Num.add a b == a + b)%Q.
Proof. apply Qred_correct. Qed.

End NumFacts.

(** ** Rounding to doubles *)

Section DoubleFacts.
Import Double.


































(** On the samples, taken two by two, the four operations give what the
    doubles of the machine give. *)
Lemma arithmetic_agrees :
  forallb
    (fun a =>
       forallb
         (fun b =>
            agree PrimFloat.add add a b && agree PrimFloat.sub sub a b
            && agree PrimFloat.mul mul a b && agree PrimFloat.div div a b)
         samples)
    samples = true.
Proof. vm_compute. reflexivity. Qed.

(** The doubles nearest to 0.1 and to 9.2; a tie, which goes to the even
    neighbour; and a subnormal. *)
Lemma round_samples :
  (round (1 # 10) == 3602879701896397 # 2 ^ 55)%Q
  /\ (round (92 # 10) == 0x9333333333333 # 0x1000000000000)%Q
  /\ (round (inject_Z (2 ^ 53 + 1)) == inject_Z (2 ^ 53))%Q
  /\ (round (inject_Z (2 ^ 53 + 3)) == inject_Z (2 ^ 53 + 4))%Q
  /\ (round (3 # 2 ^ 1075) == 2 # 2 ^ 1074)%Q.
Proof. vm_compute. repeat split; reflexivity. Qed.


End DoubleFacts.


(** ** The signal log *)

Section SignalLogFacts.
Import SignalLog.

Lemma derivePnl_prices (o : SignalOutcome) (entry exit_ : Num.number) :
  entryPrice o = Some entry -> exitPrice o = Some exit_ ->
  Num.truthy entry = true -> Num.truthy exit_ = true ->
  derivePnl o =
    {| action := action o; executedAt := executedAt o;
       entryPrice := Some entry; exitPrice := Some exit_;
       pnl := Some (Num.sub exit_ entry);
       pnlPercent :=
         Some (Num.mul (Num.div (Num.sub exit_ entry) entry) (Num.of_Z 100));
       notes := notes o |}.
Proof.
  intros He Hx Te Tx. unfold derivePnl. rewrite He, Hx, Te, Tx. reflexivity.
Qed.

(** Where both prices of the merged outcome are there and not zero,
    [recordOutcome] stores [pnl = exit - entry] and
    [pnlPercent = pnl / entry * 100], whatever [pnl] the caller gave. *)
Lemma recordOutcome_derives (signals : store) (id : string)
  (partial : PartialOutcome) (s : LoggedSignal) (entry exit_ : Num.number) :
  signals !! id = Some s ->
  entryPrice (spread (outcome s) partial) = Some entry ->
  exitPrice (spread (outcome s) partial) = Some exit_ ->
  Num.truthy entry = true -> Num.truthy exit_ = true ->
  exists s',
    recordOutcome signals id partial = (Some s', <[id := s']> signals)
    /\ (outcome s' ≫= pnl) = Some (Num.sub exit_ entry)
    /\ (outcome s' ≫= pnlPercent) =
         Some (Num.mul (Num.div (Num.sub exit_ entry) entry) (Num.of_Z 100))
    /\ (outcome s' ≫= entryPrice) = Some entry
    /\ (outcome s' ≫= exitPrice) = Some exit_.
Proof.
  intros Hs He Hx Te Tx. unfold recordOutcome. rewrite Hs.
  eexists. split; [reflexivity|]. cbn [outcome mbind option_bind].
  rewrite (derivePnl_prices _ _ _ He Hx Te Tx). cbn. auto.
Qed.

(** [recordOutcome(id, {entryPrice: 100, exitPrice: 150})] gives [pnl = 50]
    and [pnlPercent = 50], over any earlier outcome and any [pnl] passed
    along. *)
Lemma recordOutcome_100_150 (signals : store) (id : string) (s : LoggedSignal)
  (pnl_ : Property Num.number) :
  signals !! id = Some s ->
  exists s',
    fst (recordOutcome signals id (prices 100%Q 150%Q pnl_)) = Some s'
    /\ (outcome s' ≫= pnl) = Some 50%Q
    /\ (outcome s' ≫= pnlPercent) = Some 50%Q.
Proof.
  intros Hs.
  destruct (recordOutcome_derives signals id (prices 100%Q 150%Q pnl_) s
              100%Q 150%Q Hs) as (s' & Hr & Hp & Hpp & _); try reflexivity.
  exists s'. rewrite Hr. split; [reflexivity|]. rewrite Hp, Hpp.
  split; reflexivity.
Qed.

(** C1, at an input where the code departs from it: with an entry price of
    100 and an exit price of 0 both prices are there, yet [recordOutcome]
    derives nothing: the [pnl] of the caller (5) stays where the
    specification asks for [0 - 100], and [pnlPercent] stays unset. *)
Lemma recordOutcome_exit_zero :
  let x := candidate base "X" accumulation 6%Q [] in
  let signals := snd (log ∅ x 1000) in
  (fst (recordOutcome signals (generateId x) (prices 100%Q 0%Q (Value 5%Q)))
     ≫= outcome) =
  Some {| action := None; executedAt := None;
          entryPrice := Some 100%Q; exitPrice := Some 0%Q;
          pnl := Some 5%Q; pnlPercent := None; notes := None |}.
Proof.
  cbv zeta. unfold log. rewrite lookup_empty. cbn [snd].
  unfold recordOutcome. rewrite lookup_insert_eq. reflexivity.
Qed.

(** A map has one entry under a key it maps. *)
Lemma one_entry {V} (m : gmap string V) (k : string) (v : V) :
  m !! k = Some v ->
  List.filter (fun kv => String.eqb (fst kv) k) (map_to_list m) = [(k, v)].
Proof.
  intros Hk.
  assert (Hnd : NoDup (fst <$> map_to_list m)) by apply NoDup_fst_map_to_list.
  assert (Hin : (k, v) ∈ map_to_list m) by (by apply elem_of_map_to_list).
  induction (map_to_list m) as [|[k' v'] l IH]; [by apply elem_of_nil in Hin|].
  cbn [fmap list_fmap fst] in Hnd. apply NoDup_cons in Hnd as [Hk' Hnd].
  cbn [List.filter fst].
  destruct (String.eqb k' k) eqn:E.
  - apply String.eqb_eq in E. subst k'.
    assert (l_none : List.filter (fun kv => String.eqb (kv.1) k) l = []).
    { clear -Hk'. induction l as [|[k2 v2] l IH]; [done|].
      cbn [List.filter fst]. destruct (String.eqb k2 k) eqn:E2.
      - apply String.eqb_eq in E2. subst. exfalso. apply Hk'.
        rewrite fmap_cons. apply elem_of_cons. by left.
      - apply IH. intros Hin. apply Hk'.
        rewrite fmap_cons. apply elem_of_cons. by right. }
    rewrite l_none. f_equal.
    apply elem_of_cons in Hin as [Heq | Hin]; [congruence|].
    exfalso. apply Hk'. apply list_elem_of_fmap. by exists (k, v).
  - apply IH; [done|].
    apply elem_of_cons in Hin as [Heq | Hin]; [|done].
    injection Heq as -> ->. rewrite String.eqb_refl in E. discriminate.
Qed.

Lemma log_keyed (signals : store) (c : OpportunitySignal) (now : Z) :
  keyed signals -> keyed (snd (log signals c now)).
Proof.
  intros Hk. unfold log. destruct (signals !! generateId c) eqn:E; [exact Hk|].
  cbn [snd]. intros k s. rewrite lookup_insert.
  destruct (decide (generateId c = k)) as [<-|Hne]; [|apply Hk].
  by intros [= <-].
Qed.

(** In a keyed store the records that carry an id are what sits under
    it. *)
Lemma recordsOf_keyed (signals : store) (id : string) (s : LoggedSignal) :
  keyed signals -> signals !! id = Some s -> recordsOf signals id = [s].
Proof.
  intros Hk Hs. unfold recordsOf.
  assert (Hentries :
    forall l : list (string * LoggedSignal),
      (forall k v, (k, v) ∈ l -> sig_id v = k) ->
      List.filter (fun v => String.eqb (sig_id v) id) (snd <$> l) =
        snd <$> List.filter (fun kv => String.eqb (fst kv) id) l).
  { induction l as [|[k v] l IH]; intros Hl; [reflexivity|].
    cbn [fmap list_fmap snd fst List.filter].
    rewrite (Hl k v) by (apply elem_of_cons; by left).
    rewrite IH by (intros k' v' Hin; apply Hl, elem_of_cons; by right).
    by destruct (String.eqb k id). }
  rewrite Hentries.
  - by rewrite (one_entry signals id s Hs).
  - intros k v Hin. apply Hk. by apply elem_of_map_to_list.
Qed.

(** C2: logging the same candidate twice gives the same id twice, the
    second call hands back the stored signal and leaves the store as it
    was, and the store holds one entry under that id: the signal of the
    first call, which in a keyed store is the one record that carries the
    id. *)
Theorem log_idempotent (signals : store) (c : OpportunitySignal) (t1 t2 : Z) :
  let first := log signals c t1 in
  let second := log (snd first) c t2 in
  sig_id (fst second) = sig_id (fst first)
  /\ fst second = fst first
  /\ snd first !! generateId c = Some (fst first)
  /\ snd second = snd first
  /\ List.filter (fun kv => String.eqb (fst kv) (generateId c))
       (map_to_list (snd second)) = [(generateId c, fst first)]
  /\ (keyed signals ->
      sig_id (fst first) = generateId c
      /\ recordsOf (snd second) (generateId c) = [fst first]).
Proof.
  cbv zeta.
  assert (Hstored : (log signals c t1).2 !! generateId c = Some (log signals c t1).1).
  { unfold log. destruct (signals !! generateId c) eqn:E; cbn [fst snd].
    - exact E.
    - apply lookup_insert_eq. }
  assert (Hsecond : log (log signals c t1).2 c t2 = ((log signals c t1).1, (log signals c t1).2)).
  { unfold log at 1. rewrite Hstored. reflexivity. }
  rewrite Hsecond. cbn [fst snd].
  do 4 (split; [done|]). split; [by apply one_entry|].
  intros Hk. pose proof (log_keyed signals c t1 Hk) as Hk1. split.
  - by apply Hk1.
  - by apply recordsOf_keyed.
Qed.

(** Two logs of one candidate into an empty store, a minute apart. *)
Lemma log_idempotent_witness :
  recordsOf
    (snd (log (snd (log ∅ (candidate base "X" accumulation 6%Q []) 1000))
            (candidate base "X" accumulation 6%Q []) 61000))
    (generateId (candidate base "X" accumulation 6%Q []))
  = [fst (log ∅ (candidate base "X" accumulation 6%Q []) 1000)].
Proof.
  apply (log_idempotent ∅ (candidate base "X" accumulation 6%Q []) 1000 61000).
  intros k s. by rewrite lookup_empty.
Defined.

Lemma keepsFields_refl (o : option SignalOutcome) : keepsFields o o.
Proof. unfold keepsFields. tauto. Qed.

Lemma keepsFields_trans (a b c : option SignalOutcome) :
  keepsFields a b -> keepsFields b c -> keepsFields a c.
Proof. unfold keepsFields. tauto. Qed.

Lemma spread1_keeps {A} (old : option A) (new : Property A) :
  defined1 new = true -> is_Some old -> is_Some (spread1 old new).
Proof.
  intros Hdef Hold. destruct new as [| |a]; cbn in *.
  - exact Hold.
  - discriminate.
  - by exists a.
Qed.

Lemma spread_keeps (old : option SignalOutcome) (partial : PartialOutcome) :
  noUndefined partial = true ->
  keepsFields old (Some (spread old partial)).
Proof.
  unfold noUndefined. rewrite !andb_true_iff.
  intros [[[[[[Ha He] Hen] Hex] Hp] Hpp] Hn].
  unfold keepsFields, spread. cbn [mbind option_bind action executedAt
    entryPrice exitPrice pnl pnlPercent notes].
  repeat split; by apply spread1_keeps.
Qed.

Lemma derivePnl_keeps (o : SignalOutcome) :
  keepsFields (Some o) (Some (derivePnl o)).
Proof.
  unfold derivePnl.
  destruct (entryPrice o) as [entry|] eqn:He;
    destruct (exitPrice o) as [exit_|] eqn:Hx; try apply keepsFields_refl.
  destruct (Num.truthy entry && Num.truthy exit_); [|apply keepsFields_refl].
  unfold keepsFields. cbn. rewrite He, Hx. repeat split; eauto.
Qed.

(** What one update does to the signal it is aimed at. *)
Lemma update_lookup (signals : store) (id : string) (u : Update)
  (s : LoggedSignal) :
  signals !! id = Some s ->
  exists s',
    update id signals u !! id = Some s'
    /\ signal_of s' = signal_of s /\ sig_id s' = sig_id s
    /\ loggedAt s' = loggedAt s
    /\ (acted s = true -> acted s' = true)
    /\ (is_Some (outcome s) -> is_Some (outcome s'))
    /\ (plainRecord u = true ->
        keepsFields (outcome s) (outcome s') /\ acted s' = acted s).
Proof.
  intros Hs. destruct u as [a note now | partial];
    unfold update, markActed, recordOutcome; rewrite Hs; cbn [snd];
    rewrite lookup_insert_eq; eexists; (split; [reflexivity|]);
    cbn [signal_of sig_id loggedAt acted outcome plainRecord].
  - split; [reflexivity|]. split; [reflexivity|]. split; [reflexivity|].
    split; [reflexivity|]. split; [intros _; by eexists|]. discriminate.
  - split; [reflexivity|]. split; [reflexivity|]. split; [reflexivity|].
    split; [auto|]. split; [intros _; by eexists|].
    intros Hplain. split; [|reflexivity].
    apply keepsFields_trans with (Some (spread (outcome s) partial)).
    + by apply spread_keeps.
    + apply derivePnl_keeps.
Qed.

(** C4, as the code has it: over any run of [markActed] and [recordOutcome]
    calls on a logged signal the candidate, the id and [loggedAt] stay as
    they were, [acted] once true stays true and an outcome once attached
    stays attached; a run of [recordOutcome] calls that pass no explicit
    [undefined] keeps every property the outcome had and leaves [acted]
    alone; and a [markActed] after the run replaces the outcome by the
    minimal one, whatever was recorded before. *)
Theorem updates_forward (signals : store) (id : string) (us : list Update)
  (s : LoggedSignal) :
  signals !! id = Some s ->
  exists s',
    updates signals id us !! id = Some s'
    /\ signal_of s' = signal_of s /\ sig_id s' = sig_id s
    /\ loggedAt s' = loggedAt s
    /\ (acted s = true -> acted s' = true)
    /\ (is_Some (outcome s) -> is_Some (outcome s'))
    /\ (forallb plainRecord us = true ->
        keepsFields (outcome s) (outcome s') /\ acted s' = acted s)
    /\ (forall a note now,
          (snd (markActed (updates signals id us) id a note now) !! id
             ≫= outcome) = Some (minimalOutcome a note now)).
Proof.
  unfold updates. revert signals s.
  induction us as [|u us IH]; intros signals s Hs.
  - exists s. cbn [fold_left forallb].
    do 6 (split; [auto|]). split.
    + intros _. split; [apply keepsFields_refl | reflexivity].
    + intros a note now. unfold markActed. rewrite Hs. cbn [snd].
      rewrite lookup_insert_eq. reflexivity.
  - destruct (update_lookup signals id u s Hs)
      as (s1 & Hs1 & Hc1 & Hi1 & Hl1 & Ha1 & Ho1 & Hp1).
    destruct (IH _ _ Hs1) as (s2 & Hs2 & Hc2 & Hi2 & Hl2 & Ha2 & Ho2 & Hp2 & Hm).
    exists s2. cbn [fold_left forallb].
    split; [exact Hs2|]. split; [congruence|]. split; [congruence|].
    split; [congruence|]. split; [auto|]. split; [auto|]. split; [|exact Hm].
    intros Hall. apply andb_true_iff in Hall as [Hu Hus].
    destruct (Hp1 Hu) as [Hk1 Hacted1]. destruct (Hp2 Hus) as [Hk2 Hacted2].
    split; [|congruence].
    by apply keepsFields_trans with (outcome s1).
Qed.

(** The sample run of the witness and of the counterexample: a candidate is
    logged, its prices recorded, and it is marked acted. *)
Lemma updates_forward_witness :
  exists s',
    updates (snd (log ∅ (candidate base "X" accumulation 6%Q []) 1000))
      (generateId (candidate base "X" accumulation 6%Q []))
      [MarkActed act_buy None 2000; RecordOutcome (prices 100%Q 150%Q Absent)]
      !! generateId (candidate base "X" accumulation 6%Q []) = Some s'
    /\ acted s' = true
    /\ (outcome s' ≫= pnl) = Some 50%Q.
Proof.
  destruct (updates_forward
              (snd (log ∅ (candidate base "X" accumulation 6%Q []) 1000))
              (generateId (candidate base "X" accumulation 6%Q []))
              [MarkActed act_buy None 2000;
               RecordOutcome (prices 100%Q 150%Q Absent)]
              (fst (log ∅ (candidate base "X" accumulation 6%Q []) 1000)))
    as (s' & Hs' & _).
  - unfold log. rewrite lookup_empty. cbn [fst snd]. apply lookup_insert_eq.
  - exists s'. split; [exact Hs'|].
    revert Hs'. unfold log. rewrite lookup_empty. cbn [snd updates fold_left].
    unfold update at 2, markActed. rewrite lookup_insert_eq. cbn [snd].
    unfold update, recordOutcome. rewrite lookup_insert_eq. cbn [snd].
    rewrite lookup_insert_eq. intros [= <-]. split; reflexivity.
Defined.

(** C4 as worded fails: after [recordOutcome(id, {entryPrice: 100,
    exitPrice: 150})] the outcome holds an entry price, and a later
    [markActed(id, 'buy')] puts a new outcome in its place that has none. *)
Lemma markActed_discards_outcome : ~ outcomeNeverRegresses.
Proof.
  intros H.
  pose (x := candidate base "X" accumulation 6%Q []).
  pose (signals0 := snd (log ∅ x 1000)).
  pose (signals1 := snd (recordOutcome signals0 (generateId x)
                           (prices 100%Q 150%Q Absent))).
  destruct (signals1 !! generateId x) as [s1|] eqn:H1.
  2: { revert H1. unfold signals1, signals0, log. rewrite lookup_empty.
       cbn [snd]. unfold recordOutcome. rewrite lookup_insert_eq. cbn [snd].
       rewrite lookup_insert_eq. discriminate. }
  assert (He : (outcome s1 ≫= entryPrice) = Some 100%Q).
  { revert H1. unfold signals1, signals0, log. rewrite lookup_empty.
    cbn [snd]. unfold recordOutcome. rewrite lookup_insert_eq. cbn [snd].
    rewrite lookup_insert_eq. intros [= <-]. reflexivity. }
  destruct ((snd (markActed signals1 (generateId x) act_buy None 2000))
              !! generateId x) as [s2|] eqn:H2.
  2: { revert H2. unfold markActed. rewrite H1. cbn [snd].
       rewrite lookup_insert_eq. discriminate. }
  assert (Hm : (outcome s2 ≫= entryPrice) = None).
  { revert H2. unfold markActed. rewrite H1. cbn [snd].
    rewrite lookup_insert_eq. intros [= <-]. reflexivity. }
  specialize (H signals1 (generateId x) [MarkActed act_buy None 2000] s1 s2 H1 H2).
  destruct H as (_ & _ & Hentry & _).
  rewrite He, Hm in Hentry.
  destruct Hentry as [? [=]]. eauto.
Qed.

End SignalLogFacts.

(** ** The cache *)

Section CacheFacts.
Import Cache.
Context {T : Type}.

Lemma get_after_set (c : Cache T) (key : string) (value : option T)
  (ttlMs : option Z) (stored now : Z) :
  fst (get (set c key value ttlMs stored) key now) =
    if stored + effectiveTtl c ttlMs <? now then None else value.
Proof.
  unfold get, set. cbn [store]. rewrite lookup_insert_eq. cbn [expiry data].
  by destruct (stored + effectiveTtl c ttlMs <? now).
Qed.

(** A call that finds nothing to serve invokes the fetcher once and, when
    the fetch resolves, stores what it gave. *)
Lemma getOrFetch_miss (c : Cache T) (key : string) (f : Fetcher T)
  (ttlMs : option Z) (credits now : Z) (value : option T) (at_ : Z) :
  fst (get c key now) = None ->
  responses f (calls f) = Resolved value at_ ->
  getOrFetch c key f ttlMs credits now =
    (Returned value, set (snd (get c key now)) key value ttlMs at_,
     {| responses := responses f; calls := S (calls f) |}).
Proof.
  intros Hmiss Hresp. unfold getOrFetch.
  destruct (get c key now) as [cached c1]. cbn [fst snd] in *. subst cached.
  unfold invoke. rewrite Hresp. reflexivity.
Qed.

Lemma effectiveTtl_get (c : Cache T) (key : string) (now : Z)
  (ttlMs : option Z) :
  effectiveTtl (snd (get c key now)) ttlMs = effectiveTtl c ttlMs.
Proof.
  unfold get. destruct (store c !! key) as [entry|]; [|reflexivity].
  by destruct (expiry entry <? now).
Qed.

(** C8, as the code has it.  On a key with nothing live under it, a
    [getOrFetch] with a non-zero [ttl] whose fetch resolves to a value at
    [t1] invokes the fetcher once and returns the value; a second call no
    later than [t1 + ttl] returns that value and leaves the fetcher alone;
    a second call later than [t1 + ttl] invokes it again. *)
Theorem getOrFetch_ttl (c : Cache T) (key : string) (f : Fetcher T)
  (ttl credits t0 t1 t2 : Z) (v : T) :
  ttl <> 0 ->
  fst (get c key t0) = None ->
  responses f (calls f) = Resolved (Some v) t1 ->
  let '(r1, c1, f1) := getOrFetch c key f (Some ttl) credits t0 in
  let '(r2, c2, f2) := getOrFetch c1 key f1 (Some ttl) credits t2 in
  r1 = Returned (Some v)
  /\ calls f1 = S (calls f)
  /\ (t2 <= t1 + ttl -> r2 = Returned (Some v) /\ calls f2 = calls f1)
  /\ (t1 + ttl < t2 -> calls f2 = S (calls f1)).
Proof.
  intros Httl Hmiss Hresp.
  rewrite (getOrFetch_miss c key f (Some ttl) credits t0 (Some v) t1 Hmiss Hresp).
  set (c1 := set (snd (get c key t0)) key (Some v) (Some ttl) t1).
  set (f1 := {| responses := responses f; calls := S (calls f) |}).
  assert (Hget : fst (get c1 key t2) = if t1 + ttl <? t2 then None else Some v).
  { unfold c1. rewrite get_after_set, effectiveTtl_get. unfold effectiveTtl.
    destruct (Z.eqb_spec ttl 0); [contradiction|reflexivity]. }
  unfold getOrFetch at 1.
  destruct (get c1 key t2) as [cached c2] eqn:Hg. cbn [fst] in Hget.
  destruct (Z.ltb_spec (t1 + ttl) t2) as [Hlate | Hfresh]; subst cached.
  - unfold invoke.
    destruct (responses f1 (calls f1)) as [value at_|]; cbn [calls];
      (split; [reflexivity|]); (split; [reflexivity|]); split; (reflexivity || lia).
  - split; [reflexivity|]. split; [reflexivity|]. split; [auto | lia].
Qed.

End CacheFacts.

Section CacheExamples.
Import Cache.

Lemma getOrFetch_ttl_witness :
  let '(r1, c1, f1) :=
    getOrFetch (new 60000) "k" (steady (Some 7) 1005) (Some 60000) 1 1000 in
  let '(r2, c2, f2) := getOrFetch c1 "k" f1 (Some 60000) 1 30000 in
  r1 = Returned (Some 7)
  /\ calls f1 = 1%nat
  /\ (30000 <= 1005 + 60000 -> r2 = Returned (Some 7) /\ calls f2 = calls f1)
  /\ (1005 + 60000 < 30000 -> calls f2 = S (calls f1)).
Proof.
  apply (getOrFetch_ttl (new 60000) "k" (steady (Some 7) 1005)
           60000 1 1000 1005 30000 7); [lia | reflexivity | reflexivity].
Defined.

(** C8 as worded fails at [ttl = 0]: the entry is stored with the default
    TTL of the cache (60 s here), so a second call 995 ms after the value
    was stored, when a TTL of 0 ms has long elapsed, is served from the
    cache and the fetcher is not invoked again. *)
Lemma getOrFetch_zero_ttl :
  let '(r1, c1, f1) :=
    getOrFetch (new 60000) "k" (steady (Some 7) 1005) (Some 0) 1 1000 in
  let '(r2, c2, f2) := getOrFetch c1 "k" f1 (Some 0) 1 2000 in
  calls f1 = 1%nat /\ 1005 + 0 < 2000 /\ r2 = Returned (Some 7)
  /\ calls f2 = 1%nat.
Proof.
  vm_compute. repeat split.
Qed.

(** Nor is an [undefined] result ever served: the fetcher is invoked by
    both of two calls 1 ms apart. *)
Lemma getOrFetch_undefined :
  let '(r1, c1, f1) :=
    getOrFetch (new 60000) "k" (steady (@None Z) 1005) (Some 60000) 1 1000 in
  let '(r2, c2, f2) := getOrFetch c1 "k" f1 (Some 60000) 1 1006 in
  calls f1 = 1%nat /\ calls f2 = 2%nat.
Proof.
  vm_compute. split; reflexivity.
Qed.

End CacheExamples.

(** ** The rate limiter in the arithmetic of doubles *)

Section RateLimiterDoubleFacts.
Import RateLimiter RateLimiterDouble.
Import Double.















(** And the exactness: [acquire(0.1)] on a full bucket of 10 leaves
    9.9000000000000004, which is not 10 less the cost. *)
Lemma acquire_rounds :
  exists rl' : RateLimiter,
    RateLimiterDouble.acquire (new standard 0) (Double.round (1 # 10))
      [1000; 1000; 1000] = Some (0, rl', [])
    /\ tokens rl' = (5573204538870989 # 562949953421312)%Q
    /\ ~ (tokens rl' == 10 - Double.round (1 # 10))%Q.
Proof.
  eexists. split; [vm_compute; reflexivity|]. split; [reflexivity|].
  cbn [tokens]. intros H. apply Qeq_bool_iff in H. vm_compute in H.
  discriminate.
Qed.

End RateLimiterDoubleFacts.

(** ** The risk engine *)

Section FilterFacts.
Import NansenTrader.

Lemma belowThreshold_true (threshold metric : option Num.number)
  (f : Num.number -> Num.number) :
  belowThreshold threshold metric f = true <-> dropsOn threshold metric f.
Proof.
  unfold belowThreshold, dropsOn. split.
  - destruct threshold as [t|], metric as [v|]; try discriminate.
    rewrite !andb_true_iff, !truthy_true, lt_true.
    intros [[Ht Hv] Hlt]. by exists t, v.
  - intros (t & v & -> & -> & Ht & Hv & Hlt).
    rewrite !andb_true_iff, !truthy_true, lt_true. auto.
Qed.

(** What the threshold filter drops: a candidate scored below [minScore],
    or one that a metric filter drops. *)
Lemma passesRiskFilters_false (risk : RiskConfig) (s : OpportunitySignal) :
  passesRiskFilters risk s = false <->
    (score s < minScore risk)%Q
    \/ dropsOn (minSmartMoneyBuyers risk) (metrics s !! "buyers") (fun v => v)
    \/ dropsOn (minNetflowUsd risk) (metrics s !! "netflow24h") Num.abs
    \/ dropsOn (minFreshWallets risk) (metrics s !! "freshWallets") (fun v => v).
Proof.
  unfold passesRiskFilters. rewrite <- lt_true, <- !belowThreshold_true.
  destruct (Num.lt (score s) (minScore risk)); [tauto|].
  destruct (belowThreshold (minSmartMoneyBuyers risk) _ _); [tauto|].
  destruct (belowThreshold (minNetflowUsd risk) _ _); [tauto|].
  destruct (belowThreshold (minFreshWallets risk) _ _); [tauto|].
  split; [discriminate|]. intros [H|[H|[H|H]]]; discriminate.
Qed.

(** A candidate that has none of the three metrics is judged on its score
    alone. *)
Lemma passesRiskFilters_no_metrics (risk : RiskConfig) (s : OpportunitySignal) :
  metrics s !! "buyers" = None ->
  metrics s !! "netflow24h" = None ->
  metrics s !! "freshWallets" = None ->
  passesRiskFilters risk s = negb (Num.lt (score s) (minScore risk)).
Proof.
  intros Hb Hn Hf. unfold passesRiskFilters, belowThreshold.
  rewrite Hb, Hn, Hf.
  destruct (Num.lt (score s) (minScore risk)); [reflexivity|].
  destruct (minSmartMoneyBuyers risk), (minNetflowUsd risk),
    (minFreshWallets risk); reflexivity.
Qed.

(** The boundary of [minScore]: under the default configuration a score of
    2.0 passes and one of 1.9 does not. *)
Lemma minScore_boundary (c : Chain) (tok : string) (mode : ScanMode) :
  applyRiskFilters [candidate c tok mode 2%Q []] DEFAULT_RISK_CONFIG
    = [candidate c tok mode 2%Q []]
  /\ applyRiskFilters [candidate c tok mode 1.9%Q []] DEFAULT_RISK_CONFIG = [].
Proof. split; reflexivity. Qed.

(** C3, at an input where the code departs from it: the default
    configuration asks for 3 smart-money buyers and the candidate reports
    [buyers: 0], a metric that is there and below the threshold, yet the
    filter keeps the candidate: [m.buyers &&] takes the zero for a missing
    metric. *)
Lemma applyRiskFilters_zero_buyers :
  let x := candidate base "X" accumulation 6%Q [("buyers", 0%Q)] in
  minSmartMoneyBuyers DEFAULT_RISK_CONFIG = Some 3%Q
  /\ metrics x !! "buyers" = Some 0%Q
  /\ (0 < 3)%Q
  /\ applyRiskFilters [x] DEFAULT_RISK_CONFIG = [x].
Proof. cbv zeta. repeat split. Qed.

End FilterFacts.

Section DedupFacts.
Import NansenTrader.

Lemma map_get_set {V} (m : list (string * V)) (k k' : string) (v : V) :
  map_get (map_set m k v) k' = if String.eqb k k' then Some v else map_get m k'.
Proof.
  induction m as [|[k0 v0] m IH]; cbn [map_set map_get].
  - destruct (String.eqb k k'); reflexivity.
  - destruct (String.eqb_spec k0 k) as [->|Hne]; cbn [map_get].
    + destruct (String.eqb k k'); reflexivity.
    + rewrite IH. destruct (String.eqb_spec k0 k') as [->|Hne'];
        [|reflexivity].
      destruct (String.eqb_spec k k') as [->|_]; [contradiction|reflexivity].
Qed.

Lemma map_set_ok (m : list (string * OpportunitySignal)) (s : OpportunitySignal) :
  SeenOk m -> SeenOk (map_set m (dedupKey s) s).
Proof.
  induction 1 as [|s0 m Hnone Hok IH]; cbn [map_set].
  - by repeat constructor.
  - destruct (String.eqb_spec (dedupKey s0) (dedupKey s)) as [Heq|Hne].
    + constructor; [by rewrite <- Heq | done].
    + constructor; [|done].
      rewrite map_get_set. by destruct (String.eqb_spec (dedupKey s) (dedupKey s0)).
Qed.

Lemma dedupStep_ok (recent : OpportunitySignal -> bool)
  (m : list (string * OpportunitySignal)) (s : OpportunitySignal) :
  SeenOk m -> SeenOk (dedupStep recent m s).
Proof.
  intros Hok. unfold dedupStep. destruct (recent s); [done|].
  destruct (map_get m (dedupKey s)) as [existing|]; [|by apply map_set_ok].
  destruct (Num.gt (score s) (score existing)); [by apply map_set_ok | done].
Qed.

Lemma fold_dedupStep_ok (recent : OpportunitySignal -> bool)
  (l : list OpportunitySignal) (m : list (string * OpportunitySignal)) :
  SeenOk m -> SeenOk (fold_left (dedupStep recent) l m).
Proof.
  revert m. induction l as [|s l IH]; intros m Hok; [done|].
  cbn [fold_left]. by apply IH, dedupStep_ok.
Qed.

(** The survivors under one key: the entry of the map under it, if any. *)
Lemma survivors_of_key (m : list (string * OpportunitySignal)) (k : string) :
  SeenOk m ->
  List.filter (fun s => String.eqb (dedupKey s) k) (snd <$> m) =
    match map_get m k with
    | Some w => [w]
    | None => []
    end.
Proof.
  induction 1 as [|s m Hnone Hok IH]; [reflexivity|].
  cbn [fmap list_fmap snd List.filter map_get].
  destruct (String.eqb_spec (dedupKey s) k) as [<-|Hne]; [|exact IH].
  rewrite IH, Hnone. reflexivity.
Qed.

(** Once a key holds a candidate scored [q] or more, it does so for the
    rest of the loop. *)
Lemma dedupStep_keeps_best (recent : OpportunitySignal -> bool)
  (m : list (string * OpportunitySignal)) (s : OpportunitySignal)
  (k : string) (q : Num.number) :
  (exists w, map_get m k = Some w /\ (q <= score w)%Q) ->
  exists w, map_get (dedupStep recent m s) k = Some w /\ (q <= score w)%Q.
Proof.
  intros (w & Hw & Hq). unfold dedupStep.
  destruct (recent s); [by exists w|].
  destruct (String.eqb_spec (dedupKey s) k) as [<-|Hne].
  - rewrite Hw. destruct (Num.gt (score s) (score w)) eqn:Hgt.
    + rewrite map_get_set, String.eqb_refl. exists s. split; [done|].
      apply gt_true in Hgt. lra.
    + by exists w.
  - assert (Hset : map_get (map_set m (dedupKey s) s) k = Some w).
    { rewrite map_get_set. by destruct (String.eqb_spec (dedupKey s) k). }
    destruct (map_get m (dedupKey s)) as [existing|]; [|by exists w].
    destruct (Num.gt (score s) (score existing)); by exists w.
Qed.

(** A candidate that the persisted check lets through leaves under its key
    a candidate scored at least as high. *)
Lemma dedupStep_enters (recent : OpportunitySignal -> bool)
  (m : list (string * OpportunitySignal)) (s : OpportunitySignal) :
  recent s = false ->
  exists w, map_get (dedupStep recent m s) (dedupKey s) = Some w
            /\ (score s <= score w)%Q.
Proof.
  intros Hrecent. unfold dedupStep. rewrite Hrecent.
  destruct (map_get m (dedupKey s)) as [existing|] eqn:Hget.
  - destruct (Num.gt (score s) (score existing)) eqn:Hgt.
    + rewrite map_get_set, String.eqb_refl. exists s. split; [done|lra].
    + exists existing. split; [done|]. by apply gt_false.
  - rewrite map_get_set, String.eqb_refl. exists s. split; [done|lra].
Qed.

Lemma fold_dedupStep_best (recent : OpportunitySignal -> bool)
  (l : list OpportunitySignal) (m : list (string * OpportunitySignal))
  (c : OpportunitySignal) :
  c ∈ l -> recent c = false ->
  exists w, map_get (fold_left (dedupStep recent) l m) (dedupKey c) = Some w
            /\ (score c <= score w)%Q.
Proof.
  intros Hin Hrecent. revert m.
  induction l as [|s l IH]; intros m; [by apply elem_of_nil in Hin|].
  cbn [fold_left]. apply elem_of_cons in Hin as [<-|Hin]; [|by apply IH].
  clear IH. generalize (dedupStep_enters recent m c Hrecent).
  generalize (dedupStep recent m c). clear m.
  induction l as [|s l IH]; intros m Hm; [exact Hm|].
  cbn [fold_left]. by apply IH, dedupStep_keeps_best.
Qed.

Lemma dedupKey_eq (c1 c2 : OpportunitySignal) :
  chain c1 = chain c2 -> token c1 = token c2 -> dedupKey c1 = dedupKey c2.
Proof. unfold dedupKey. by intros -> ->. Qed.

Lemma map_get_None {V} (m : list (string * V)) (k : string) :
  map_get m k = None <-> k ∉ fst <$> m.
Proof.
  induction m as [|[k' v'] m IH]; cbn [map_get].
  - split; [intros _; apply not_elem_of_nil | done].
  - rewrite fmap_cons, not_elem_of_cons. cbn [fst].
    destruct (String.eqb_spec k' k) as [->|Hne]; [split; [done | tauto]|].
    rewrite IH. split; [intros Hk; split; [congruence | exact Hk] | tauto].
Qed.

Lemma SeenOk_keys (m : list (string * OpportunitySignal)) :
  SeenOk m -> NoDup (fst <$> m) /\ dedupKey <$> (snd <$> m) = fst <$> m.
Proof.
  induction 1 as [|s m Hnone Hok [IHnd IHkeys]]; [split; [constructor|done]|].
  rewrite !fmap_cons. cbn [fst snd]. split.
  - apply NoDup_cons. split; [by apply map_get_None | exact IHnd].
  - by rewrite IHkeys.
Qed.

Lemma dedup_NoDup (recent : OpportunitySignal -> bool)
  (l : list OpportunitySignal) :
  NoDup (dedupKey <$> deduplicateSignals recent l).
Proof.
  unfold deduplicateSignals.
  destruct (SeenOk_keys (fold_left (dedupStep recent) l []))
    as [Hnd Hkeys]; [apply fold_dedupStep_ok, SeenOk_nil|].
  by rewrite Hkeys.
Qed.

(** The key tells chain and token apart: no name of a chain holds a
    colon. *)
Lemma dedupKey_inj (c1 c2 : OpportunitySignal) :
  dedupKey c1 = dedupKey c2 -> chain c1 = chain c2 /\ token c1 = token c2.
Proof.
  unfold dedupKey. destruct (chain c1), (chain c2); cbn;
    intros Heq; simplify_eq; by split.
Qed.

(** The survivors for one chain and token are the survivors under its
    key. *)
Lemma survivors_of_target (l : list OpportunitySignal) (c : OpportunitySignal) :
  List.filter (fun s => bool_decide (chain s = chain c /\ token s = token c)) l
  = List.filter (fun s => String.eqb (dedupKey s) (dedupKey c)) l.
Proof.
  apply filter_ext. intros s.
  destruct (String.eqb_spec (dedupKey s) (dedupKey c)) as [Hkey|Hkey].
  - apply bool_decide_eq_true_2. by apply dedupKey_inj.
  - apply bool_decide_eq_false_2. intros [Hchain Htoken].
    by apply Hkey, dedupKey_eq.
Qed.

(** C5: of two candidates for the same chain and token (whatever their
    modes) that the persisted check lets through, the lower-scored one
    never survives the batch, and the batch leaves one survivor for their
    chain and token, scored at least as high as the higher one; when the
    two are the whole batch, in either order, the survivor is the higher
    one.  The dedup keys on chain and token and on nothing else: every
    candidate let through has a survivor on its own chain and for its own
    token that scores at least as high, no two survivors share chain and
    token, and two candidates that differ in chain or in token both
    survive. *)
Theorem dedup_keeps_highest (recent : OpportunitySignal -> bool)
  (l : list OpportunitySignal) (c1 c2 : OpportunitySignal) :
  c1 ∈ l -> c2 ∈ l ->
  chain c1 = chain c2 -> token c1 = token c2 ->
  recent c1 = false -> recent c2 = false ->
  (score c1 < score c2)%Q ->
  (exists w,
      List.filter
        (fun s => bool_decide (chain s = chain c1 /\ token s = token c1))
        (deduplicateSignals recent l) = [w]
      /\ (score c2 <= score w)%Q)
  /\ (c1 ∉ deduplicateSignals recent l)
  /\ deduplicateSignals recent [c1; c2] = [c2]
  /\ deduplicateSignals recent [c2; c1] = [c2]
  /\ (forall c, c ∈ l -> recent c = false ->
       exists w, w ∈ deduplicateSignals recent l
                 /\ chain w = chain c /\ token w = token c
                 /\ (score c <= score w)%Q)
  /\ (forall (i j : nat) (w1 w2 : OpportunitySignal),
       deduplicateSignals recent l !! i = Some w1 ->
       deduplicateSignals recent l !! j = Some w2 ->
       chain w1 = chain w2 -> token w1 = token w2 -> i = j)
  /\ (forall d1 d2 : OpportunitySignal,
       recent d1 = false -> recent d2 = false ->
       chain d1 <> chain d2 \/ token d1 <> token d2 ->
       deduplicateSignals recent [d1; d2] = [d1; d2]).
Proof.
  intros Hin1 Hin2 Hchain Htoken Hr1 Hr2 Hlt.
  pose proof (dedupKey_eq c1 c2 Hchain Htoken) as Hkey.
  assert (Hok : SeenOk (fold_left (dedupStep recent) l []))
    by apply fold_dedupStep_ok, SeenOk_nil.
  destruct (fold_dedupStep_best recent l [] c2 Hin2 Hr2) as (w & Hw & Hq).
  assert (Hsurv :
    List.filter
      (fun s => bool_decide (chain s = chain c1 /\ token s = token c1))
      (deduplicateSignals recent l) = [w]).
  { rewrite survivors_of_target. unfold deduplicateSignals.
    rewrite (survivors_of_key _ _ Hok). by rewrite Hkey, Hw. }
  split; [by exists w|]. split.
  { intros Hc1.
    assert (Hf : c1 ∈ List.filter
                   (fun s => bool_decide
                               (chain s = chain c1 /\ token s = token c1))
                   (deduplicateSignals recent l)).
    { apply list_elem_of_In, filter_In. split; [by apply list_elem_of_In|].
      by apply bool_decide_eq_true_2. }
    rewrite Hsurv in Hf. apply list_elem_of_singleton in Hf. subst w. lra. }
  split; [|split].
  { unfold deduplicateSignals, dedupStep. cbn [fold_left map_get map_set].
    rewrite Hr1, Hr2. cbn [map_get map_set]. rewrite Hkey, String.eqb_refl.
    assert (Hgt : Num.gt (score c2) (score c1) = true) by (by apply gt_true).
    by rewrite Hgt. }
  { unfold deduplicateSignals, dedupStep. cbn [fold_left map_get map_set].
    rewrite Hr1, Hr2. cbn [map_get map_set]. rewrite Hkey, String.eqb_refl.
    assert (Hle : Num.gt (score c1) (score c2) = false)
      by (apply gt_false; lra).
    by rewrite Hle. }
  split; [|split].
  - intros c Hc Hr.
    destruct (fold_dedupStep_best recent l [] c Hc Hr) as (v & Hv & Hscore).
    pose proof (survivors_of_key _ (dedupKey c) Hok) as Hone.
    rewrite Hv in Hone. fold (deduplicateSignals recent l) in Hone.
    assert (Hin : In v (List.filter
                          (fun s => String.eqb (dedupKey s) (dedupKey c))
                          (deduplicateSignals recent l)))
      by (rewrite Hone; by left).
    apply filter_In in Hin as [Hin Hk]. apply String.eqb_eq, dedupKey_inj in Hk.
    exists v. split; [by apply list_elem_of_In|].
    split; [apply Hk|]. split; [apply Hk | exact Hscore].
  - intros i j w1 w2 Hi Hj Hc Ht.
    apply (NoDup_lookup (dedupKey <$> deduplicateSignals recent l) i j
             (dedupKey w1)); [apply dedup_NoDup| |].
    + by rewrite list_lookup_fmap, Hi.
    + rewrite list_lookup_fmap, Hj. cbn. f_equal. symmetry.
      by apply dedupKey_eq.
  - intros d1 d2 Hd1 Hd2 Hdiff.
    assert (Hne : dedupKey d1 <> dedupKey d2).
    { intros [Hc Ht]%dedupKey_inj. destruct Hdiff; contradiction. }
    unfold deduplicateSignals, dedupStep. cbn [fold_left map_get map_set].
    rewrite Hd1, Hd2. cbn [map_get map_set].
    destruct (String.eqb_spec (dedupKey d1) (dedupKey d2)); [contradiction|].
    reflexivity.
Qed.

Lemma dedup_keeps_highest_witness :
  deduplicateSignals (fun _ => false)
    [candidate base "X" accumulation 3%Q []; candidate base "X" breakout 6%Q []]
  = [candidate base "X" breakout 6%Q []]
  /\ deduplicateSignals (fun _ => false)
       [candidate base "X" accumulation 3%Q [];
        candidate ethereum "X" accumulation 6%Q []]
     = [candidate base "X" accumulation 3%Q [];
        candidate ethereum "X" accumulation 6%Q []]
  /\ deduplicateSignals (fun _ => false)
       [candidate base "X" accumulation 3%Q [];
        candidate base "Y" accumulation 6%Q []]
     = [candidate base "X" accumulation 3%Q [];
        candidate base "Y" accumulation 6%Q []].
Proof.
  assert (Hin1 : candidate base "X" accumulation 3%Q []
                   ∈ [candidate base "X" accumulation 3%Q [];
                      candidate base "X" breakout 6%Q []])
    by (apply elem_of_cons; by left).
  assert (Hin2 : candidate base "X" breakout 6%Q []
                   ∈ [candidate base "X" accumulation 3%Q [];
                      candidate base "X" breakout 6%Q []])
    by (apply elem_of_cons; right; apply elem_of_cons; by left).
  assert (Hlt : (3 < 6)%Q) by reflexivity.
  destruct (dedup_keeps_highest (fun _ => false) _ _ _ Hin1 Hin2
              eq_refl eq_refl eq_refl eq_refl Hlt)
    as (_ & _ & Hbatch & _ & _ & _ & Hapart).
  split; [exact Hbatch|]. split.
  - apply Hapart; [reflexivity | reflexivity | left; discriminate].
  - apply Hapart; [reflexivity | reflexivity | right; discriminate].
Defined.

End DedupFacts.

Section ScoreFacts.
Import NansenTrader.

(** Case analysis on the tests of [scoreSignal] that depend on the
    candidate. *)
Ltac split_tests :=
  repeat match goal with
         | |- context [if ?c then _ else _] =>
             lazymatch c with
             | context [Num.gt] => destruct c
             | context [Num.truthy] => destruct c
             end
         end.

Lemma scoreSignal_stamp (now1 now2 : Z) (s : OpportunitySignal) :
  scoreSignal now1 s = withLoggedAt now1 (scoreSignal now2 s).
Proof.
  unfold scoreSignal, bothAnd.
  destruct (Num.gt (score s) 5%Q); [|destruct (Num.gt (score s) 3%Q)];
    destruct (metrics s !! "buyers") as [b|];
    destruct (metrics s !! "sellers") as [sl|];
    destruct (metrics s !! "netflow24h") as [n|];
    split_tests; reflexivity.
Qed.

Lemma compareSignals_stamp (now : Z) (a b : TradingSignal) :
  compareSignals (withLoggedAt now a) (withLoggedAt now b) = compareSignals a b.
Proof. reflexivity. Qed.

Lemma insert_fmap {A} (compare : A -> A -> Num.number) (f : A -> A)
  (x : A) (l : list A) :
  (forall a b, compare (f a) (f b) = compare a b) ->
  insert compare (f x) (f <$> l) = f <$> insert compare x l.
Proof.
  intros Hf. induction l as [|y l IH]; [reflexivity|].
  cbn [fmap list_fmap insert]. rewrite Hf.
  destruct (Num.gt (compare x y) 0%Q); [|reflexivity].
  cbn [fmap list_fmap]. f_equal. exact IH.
Qed.

Lemma sort_fmap {A} (compare : A -> A -> Num.number) (f : A -> A) (l : list A) :
  (forall a b, compare (f a) (f b) = compare a b) ->
  sort compare (f <$> l) = f <$> sort compare l.
Proof.
  intros Hf. unfold sort. induction l as [|x l IH]; [reflexivity|].
  cbn [fmap list_fmap foldr]. rewrite IH. by apply insert_fmap.
Qed.

Lemma scoreSignals_stamp (now1 now2 : Z) (signals : list OpportunitySignal) :
  scoreSignals now1 signals = withLoggedAt now1 <$> scoreSignals now2 signals.
Proof.
  unfold scoreSignals.
  rewrite <- (sort_fmap compareSignals (withLoggedAt now1))
    by apply compareSignals_stamp.
  f_equal. rewrite <- list_fmap_compose. apply list_fmap_ext.
  intros _ s _. apply scoreSignal_stamp.
Qed.

(** C6, as the code has it: two runs of the risk engine over the same
    candidates, with the same configuration and the same dedup predicate,
    give the same signals in the same order, alike in every field but
    [loggedAt], which holds the time of the run. *)
Theorem riskEngine_deterministic (recent : OpportunitySignal -> bool)
  (risk : RiskConfig) (now1 now2 : Z) (signals : list OpportunitySignal) :
  riskEngine recent risk now1 signals =
    withLoggedAt now1 <$> riskEngine recent risk now2 signals.
Proof. unfold riskEngine. apply scoreSignals_stamp. Qed.

(** C6 as worded fails: the runs of one candidate at two readings of the
    clock differ (in [loggedAt]). *)
Lemma riskEngine_depends_on_clock :
  riskEngine (fun _ => false) DEFAULT_RISK_CONFIG 1000
    [candidate base "X" accumulation 6%Q []]
  <> riskEngine (fun _ => false) DEFAULT_RISK_CONFIG 2000
       [candidate base "X" accumulation 6%Q []].
Proof.
  intros H.
  apply (f_equal (fmap (fun t => loggedAt (logged_of t)))) in H.
  vm_compute in H. discriminate.
Qed.

(** The recommendation and the confidence that go with each risk score. *)
Lemma scoreSignal_recommendation (now : Z) (s : OpportunitySignal) :
  (recommendation (scoreSignal now s), confidence (scoreSignal now s)) =
    if 3 <=? riskScore (scoreSignal now s) then (strong_buy, 0.8%Q)
    else if 1 <=? riskScore (scoreSignal now s) then (buy, 0.6%Q)
    else if 0 <=? riskScore (scoreSignal now s) then (watch, 0.4%Q)
    else (avoid, 0.3%Q).
Proof.
  unfold scoreSignal, bothAnd.
  destruct (Num.gt (score s) 5%Q); [|destruct (Num.gt (score s) 3%Q)];
    destruct (metrics s !! "buyers") as [b|];
    destruct (metrics s !! "sellers") as [sl|];
    destruct (metrics s !! "netflow24h") as [n|];
    split_tests; reflexivity.
Qed.

(** C7: under the default configuration, on a trader with an empty log, a
    candidate scored 6 with 10 buyers, 2 sellers and a netflow of 150000
    gives one signal: risk score 4, [strong_buy], confidence 0.8, with both
    factors; and every signal carries the recommendation and confidence of
    its risk score: 3 or more [strong_buy]/0.8, 1 or more [buy]/0.6,
    0 [watch]/0.4, less [avoid]/0.3. *)
Theorem scenario_strong_buy :
  (forall (mode : ScanMode) (now : Z),
     exists t,
       fst (scan (newTrader DEFAULT_RISK_CONFIG) noOptions
              [candidate base "X" mode 6%Q
                 [("buyers", 10%Q); ("sellers", 2%Q); ("netflow24h", 150000%Q)]]
              now) = [t]
       /\ riskScore t = 4
       /\ recommendation t = strong_buy
       /\ confidence t = 0.8%Q
       /\ In "Strong buyer/seller ratio" (riskFactors t)
       /\ In "High netflow" (riskFactors t))
  /\ (forall (now : Z) (s : OpportunitySignal),
        let t := scoreSignal now s in
        (3 <= riskScore t ->
           recommendation t = strong_buy /\ confidence t = 0.8%Q)
        /\ (1 <= riskScore t < 3 ->
             recommendation t = buy /\ confidence t = 0.6%Q)
        /\ (0 <= riskScore t < 1 ->
             recommendation t = watch /\ confidence t = 0.4%Q)
        /\ (riskScore t < 0 ->
             recommendation t = avoid /\ confidence t = 0.3%Q)).
Proof.
  split.
  - intros mode now. eexists. split; [reflexivity|].
    cbn. repeat split; vm_compute; auto.
  - intros now s. cbv zeta.
    pose proof (scoreSignal_recommendation now s) as H.
    destruct (Z.leb_spec 3 (riskScore (scoreSignal now s)));
      [|destruct (Z.leb_spec 1 (riskScore (scoreSignal now s)));
        [|destruct (Z.leb_spec 0 (riskScore (scoreSignal now s)))]];
      injection H as Hr Hc; rewrite Hr, Hc;
      (split; [intros ?|split; [intros ?|split; intros ?]]);
      first [by split | lia].
Qed.

End ScoreFacts.

Section RankFacts.
Import NansenTrader.

Lemma of_Z_truthy (z : Z) : Num.truthy (Num.of_Z z) = true <-> z <> 0.
Proof.
  rewrite truthy_true. unfold Num.of_Z.
  change 0%Q with (inject_Z 0). rewrite inject_Z_injective. reflexivity.
Qed.

Lemma of_Z_gt (z : Z) : Num.gt (Num.of_Z z) 0%Q = true <-> 0 < z.
Proof.
  rewrite gt_true. unfold Num.of_Z.
  change 0%Q with (inject_Z 0). rewrite <- Zlt_Qlt. reflexivity.
Qed.

(** The comparator says "after" only of a signal that the other one ranks
    before. *)
Lemma compare_after (x y : TradingSignal) :
  Num.gt (compareSignals x y) 0%Q = true -> ranksBefore y x.
Proof.
  unfold compareSignals, ranksBefore.
  destruct (Num.truthy (Num.of_Z (riskScore y - riskScore x))) eqn:Ht.
  - rewrite of_Z_gt. lia.
  - rewrite gt_true, sub_eq. intros Hs. right.
    apply not_true_iff_false in Ht. rewrite of_Z_truthy in Ht.
    split; [lia | lra].
Qed.

Lemma compare_not_after (x y : TradingSignal) :
  Num.gt (compareSignals x y) 0%Q = false -> ranksBefore x y.
Proof.
  unfold compareSignals, ranksBefore.
  destruct (Num.truthy (Num.of_Z (riskScore y - riskScore x))) eqn:Ht.
  - apply of_Z_truthy in Ht. rewrite <- not_true_iff_false, of_Z_gt. lia.
  - rewrite gt_false, sub_eq. intros Hs. right.
    apply not_true_iff_false in Ht. rewrite of_Z_truthy in Ht.
    split; [lia | lra].
Qed.

Lemma ranksBefore_trans (a b c : TradingSignal) :
  ranksBefore a b -> ranksBefore b c -> ranksBefore a c.
Proof.
  unfold ranksBefore. intros [Hab | [Hab Hsab]] [Hbc | [Hbc Hsbc]];
    try (left; lia).
  right. split; [lia | lra].
Qed.

Lemma insert_Forall {A} (compare : A -> A -> Num.number) (P : A -> Prop)
  (x : A) (l : list A) :
  P x -> Forall P l -> Forall P (insert compare x l).
Proof.
  intros Hx Hl. induction Hl as [|y l Hy Hl IH]; cbn [insert].
  - by constructor.
  - destruct (Num.gt (compare x y) 0%Q); by repeat constructor.
Qed.

Lemma insert_ranked (x : TradingSignal) (l : list TradingSignal) :
  StronglySorted ranksBefore l ->
  StronglySorted ranksBefore (insert compareSignals x l).
Proof.
  induction 1 as [|y l Hsorted IH Hy]; cbn [insert].
  - by repeat constructor.
  - destruct (Num.gt (compareSignals x y) 0%Q) eqn:Hc.
    + constructor; [exact IH|].
      apply insert_Forall; [by apply compare_after | exact Hy].
    + apply compare_not_after in Hc. constructor; [by constructor|].
      constructor; [exact Hc|].
      eapply Forall_impl; [exact Hy|].
      intros z Hz. by apply ranksBefore_trans with y.
Qed.

Lemma sort_ranked (l : list TradingSignal) :
  StronglySorted ranksBefore (sort compareSignals l).
Proof.
  unfold sort. induction l as [|x l IH]; cbn [foldr].
  - constructor.
  - by apply insert_ranked.
Qed.

Lemma insert_Permutation {A} (compare : A -> A -> Num.number) (x : A)
  (l : list A) :
  insert compare x l ≡ₚ x :: l.
Proof.
  induction l as [|y l IH]; cbn [insert]; [reflexivity|].
  destruct (Num.gt (compare x y) 0%Q); [|reflexivity].
  rewrite IH. apply Permutation_swap.
Qed.

(** The sort rearranges: nothing is lost and nothing is made up. *)
Lemma sort_Permutation {A} (compare : A -> A -> Num.number) (l : list A) :
  sort compare l ≡ₚ l.
Proof.
  unfold sort. induction l as [|x l IH]; cbn [foldr]; [reflexivity|].
  by rewrite insert_Permutation, IH.
Qed.

Lemma take_ranked (n : nat) (l : list TradingSignal) :
  StronglySorted ranksBefore l -> StronglySorted ranksBefore (take n l).
Proof.
  intros Hl. rewrite <- (take_drop n l) in Hl.
  by apply StronglySorted_app_1_l in Hl.
Qed.

Lemma slice0_ranked (l : list TradingSignal) (end_ : Z) :
  StronglySorted ranksBefore l -> StronglySorted ranksBefore (slice0 l end_).
Proof.
  intros Hl. unfold slice0. destruct (end_ <? 0); by apply take_ranked.
Qed.

Lemma slice0_length {A} (l : list A) (end_ : Z) :
  0 <= end_ -> Z.of_nat (length (slice0 l end_)) <= end_.
Proof.
  intros Hend. unfold slice0.
  destruct (Z.ltb_spec end_ 0); [lia|]. rewrite length_take. lia.
Qed.

(** C10, as the code has it: what [scan] returns is the sorted list of all
    the scored signals (higher risk score first, ties by higher score
    first), cut after the sorting at [limit]: the [limit] of the options
    or, without one, the [maxSignalsPerScan] of the trader.  It is in rank
    order itself, and when the limit is not negative it is the first
    [limit] signals of the sorted list, or all of them when there are
    fewer. *)
Theorem scan_ranked (t : NansenTrader) (options : ScanOptions)
  (allSignals : list OpportunitySignal) (now : Z) :
  let out := fst (scan t options allSignals now) in
  let limit_ := default (maxSignalsPerScan (riskConfig t)) (limit options) in
  let risk := riskOverride options (riskConfig t) in
  let deduped :=
    deduplicateSignals
      (fun s => SignalLog.hasRecentSignal (signalLog t) s
                  (dedupeWindowMs risk) now)
      (applyRiskFilters allSignals risk) in
  let scored := scoreSignals now deduped in
  StronglySorted ranksBefore out
  /\ StronglySorted ranksBefore scored
  /\ scored ≡ₚ scoreSignal now <$> deduped
  /\ out = slice0 scored limit_
  /\ (0 <= limit_ ->
      out = take (Z.to_nat limit_) scored
      /\ length out = Nat.min (Z.to_nat limit_) (length scored)
      /\ Z.of_nat (length out) <= limit_)
  /\ (limit options = None -> 0 <= maxSignalsPerScan (riskConfig t) ->
      Z.of_nat (length out) <= maxSignalsPerScan (riskConfig t)).
Proof.
  cbv zeta. unfold scan. cbn [fst].
  split; [apply slice0_ranked, sort_ranked|].
  split; [apply sort_ranked|].
  split; [apply sort_Permutation|].
  split; [reflexivity|]. split.
  - intros Hlimit.
    split; [|split; [|by apply slice0_length]]; unfold slice0;
      match goal with
      | |- context [?n <? 0] => destruct (Z.ltb_spec n 0); [lia|]
      end; [reflexivity | apply length_take].
  - intros Hnone Hmax. rewrite Hnone. cbn [default]. by apply slice0_length.
Qed.

Lemma scan_ranked_witness :
  exists a b,
    fst (scan (newTrader DEFAULT_RISK_CONFIG)
           {| limit := Some 2; riskOverride := fun risk => risk |}
           [candidate base "X" accumulation 4%Q [];
            candidate base "Y" accumulation 6%Q [];
            candidate base "Z" accumulation 3%Q []] 1000) = [a; b]
    /\ token (signal_of (logged_of a)) = "Y"
    /\ token (signal_of (logged_of b)) = "X"
    /\ ranksBefore a b.
Proof.
  destruct (scan_ranked (newTrader DEFAULT_RISK_CONFIG)
              {| limit := Some 2; riskOverride := fun risk => risk |}
              [candidate base "X" accumulation 4%Q [];
               candidate base "Y" accumulation 6%Q [];
               candidate base "Z" accumulation 3%Q []] 1000)
    as (Hsorted & _).
  eexists. eexists. split; [vm_compute; reflexivity|].
  split; [reflexivity|]. split; [reflexivity|].
  apply StronglySorted_inv in Hsorted as [_ Hhead].
  apply Forall_inv in Hhead. exact Hhead.
Defined.

(** C10 as worded fails: a trader configured with [maxSignalsPerScan = 1]
    whose [scan] is called with [limit: 2] returns two signals. *)
Lemma scan_exceeds_maxSignalsPerScan :
  let t := newTrader (withMaxSignals 1 DEFAULT_RISK_CONFIG) in
  let out :=
    fst (scan t {| limit := Some 2; riskOverride := fun risk => risk |}
           [candidate base "X" accumulation 6%Q [];
            candidate base "Y" accumulation 4%Q []] 1000) in
  maxSignalsPerScan (riskConfig t) = 1 /\ length out = 2%nat.
Proof. cbv zeta. split; reflexivity. Qed.

End RankFacts.

(** ** The cache, its other methods *)

Section CacheOpsFacts.
Import Cache CacheOps.
Context {T : Type}.

(** The sweep over a listing of entries that the map holds. *)
Lemma sweep_listing (test : string -> CacheEntry T -> bool)
  (l : list (string * CacheEntry T)) :
  forall (n : nat) (m : gmap string (CacheEntry T)),
    NoDup (fst <$> l) ->
    (forall k e, (k, e) ∈ l -> m !! k = Some e) ->
    let r := foldl (sweepStep test) (n, m) l in
    (fst r + size (snd r) = n + size m)%nat
    /\ forall k,
         snd r !! k =
           match m !! k with
           | Some e =>
               if bool_decide (k ∈ fst <$> l) && test k e then None
               else Some e
           | None => None
           end.
Proof.
  induction l as [|[k0 e0] l IH]; intros n m Hnd Hin; cbn [foldl].
  - cbv zeta. cbn [fst snd]. split; [reflexivity|]. intros k.
    destruct (m !! k); [|reflexivity].
    rewrite bool_decide_eq_false_2 by apply not_elem_of_nil. reflexivity.
  - rewrite fmap_cons in Hnd. apply NoDup_cons in Hnd as [Hk0 Hnd].
    assert (Hm0 : m !! k0 = Some e0) by (apply Hin, elem_of_cons; by left).
    cbv zeta.
    change (sweepStep test (n, m) (k0, e0))
      with (if test k0 e0 then (S n, delete k0 m) else (n, m)).
    destruct (test k0 e0) eqn:Htest.
    + destruct (IH (S n) (delete k0 m) Hnd) as [Hsize Hlook].
      { intros k e Hke. rewrite lookup_delete_ne.
        - apply Hin, elem_of_cons. by right.
        - intros <-. apply Hk0, list_elem_of_fmap. by exists (k0, e). }
      split.
      * rewrite Hsize.
        assert (Hone : size m = S (size (delete k0 m))).
        { rewrite <- (insert_delete_id m k0 e0 Hm0) at 1.
          apply map_size_insert_None, lookup_delete_eq. }
        lia.
      * intros k. rewrite Hlook, fmap_cons.
        destruct (decide (k = k0)) as [->|Hne].
        -- rewrite lookup_delete_eq, Hm0, Htest.
           rewrite bool_decide_eq_true_2 by (apply elem_of_cons; by left).
           reflexivity.
        -- rewrite lookup_delete_ne by done.
           destruct (m !! k) as [e|]; [|reflexivity].
           destruct (decide (k ∈ fst <$> l)) as [Hk|Hk].
           ++ rewrite !bool_decide_eq_true_2;
                [reflexivity | apply elem_of_cons; by right | done].
           ++ rewrite !bool_decide_eq_false_2; [reflexivity | | done].
              intros [?|?]%elem_of_cons; contradiction.
    + destruct (IH n m Hnd) as [Hsize Hlook].
      { intros k e Hke. apply Hin, elem_of_cons. by right. }
      split; [exact Hsize|].
      intros k. rewrite Hlook, fmap_cons.
      destruct (m !! k) as [e|] eqn:Hk; [|reflexivity].
      destruct (decide (k = k0)) as [->|Hne].
      * assert (e = e0) as -> by congruence. rewrite Htest, !andb_false_r.
        reflexivity.
      * destruct (decide (k ∈ fst <$> l)) as [Hkl|Hkl].
        -- rewrite !bool_decide_eq_true_2;
             [reflexivity | apply elem_of_cons; by right | done].
        -- rewrite !bool_decide_eq_false_2; [reflexivity | | done].
           intros [?|?]%elem_of_cons; contradiction.
Qed.

(** A sweep deletes the entries that meet the test and no other, and
    returns how many they were. *)
Lemma sweep_spec (test : string -> CacheEntry T -> bool) (c : Cache T) :
  (fst (sweep test c) + size (store (snd (sweep test c))) = size (store c))%nat
  /\ forall k,
       store (snd (sweep test c)) !! k =
         match store c !! k with
         | Some e => if test k e then None else Some e
         | None => None
         end.
Proof.
  unfold sweep. cbn [fst snd withStore store].
  destruct (sweep_listing test (map_to_list (store c)) 0%nat (store c))
    as [Hsize Hlook].
  - apply NoDup_fst_map_to_list.
  - intros k e. apply elem_of_map_to_list.
  - split; [exact Hsize|].
    intros k. rewrite (Hlook k).
    destruct (store c !! k) as [e|] eqn:Hk; [|reflexivity].
    rewrite bool_decide_eq_true_2; [reflexivity|].
    apply list_elem_of_fmap. exists (k, e). split; [reflexivity|].
    by apply elem_of_map_to_list.
Qed.

(** X1: [prune] deletes the expired entries and only those, returns their
    number (the size of the store goes down by it), and changes nothing
    that [get] would answer at that time. *)
Theorem prune_expired (c : Cache T) (now : Z) (key : string) :
  let '(pruned, c') := prune c now in
  store c' !! key =
    match store c !! key with
    | Some e => if expiry e <? now then None else Some e
    | None => None
    end
  /\ (pruned + size (store c') = size (store c))%nat
  /\ fst (get c' key now) = fst (get c key now).
Proof.
  unfold prune.
  destruct (sweep_spec (fun _ entry => expiry entry <? now) c) as [Hsize Hlook].
  destruct (sweep _ c) as [pruned c']. cbn [fst snd] in *.
  split; [apply Hlook|]. split; [exact Hsize|].
  unfold get. rewrite (Hlook key).
  destruct (store c !! key) as [e|]; [|reflexivity].
  destruct (expiry e <? now) eqn:Hexp; [reflexivity|].
  by rewrite Hexp.
Qed.

(** X2: [invalidatePattern] deletes the entries whose key the pattern
    matches and only those, and returns their number. *)
Theorem invalidatePattern_matching (c : Cache T) (test : string -> bool)
  (key : string) :
  let '(count, c') := invalidatePattern c test in
  store c' !! key = (if test key then None else store c !! key)
  /\ (count + size (store c') = size (store c))%nat.
Proof.
  unfold invalidatePattern.
  destruct (sweep_spec (fun k _ => test k) c) as [Hsize Hlook].
  destruct (sweep _ c) as [count c']. cbn [fst snd] in *.
  split; [|exact Hsize].
  rewrite (Hlook key). destruct (store c !! key), (test key); reflexivity.
Qed.

(** X3: [invalidate] says whether the key was stored; after it the key
    misses at any time and every other key answers as before. *)
Theorem invalidate_key (c : Cache T) (key other : string) (now : Z) :
  let '(found, c') := invalidate c key in
  (found = true <-> is_Some (store c !! key))
  /\ fst (get c' key now) = None
  /\ (other <> key -> fst (get c' other now) = fst (get c other now)).
Proof.
  unfold invalidate, get. cbn [withStore store].
  split; [apply bool_decide_eq_true|]. split.
  - by rewrite lookup_delete_eq.
  - intros Hne. rewrite lookup_delete_ne by done.
    destruct (store c !! other) as [e|]; [|reflexivity].
    by destruct (expiry e <? now).
Qed.

(** X4: what [set] stores is what [get] answers up to and including the
    expiry time and no longer, whatever was under the key before; other
    keys answer as before. *)
Theorem set_then_get (c : Cache T) (key other : string) (value : option T)
  (ttlMs : option Z) (stored now : Z) :
  (now <= stored + effectiveTtl c ttlMs ->
     fst (get (set c key value ttlMs stored) key now) = value)
  /\ (stored + effectiveTtl c ttlMs < now ->
      fst (get (set c key value ttlMs stored) key now) = None
      /\ store (snd (get (set c key value ttlMs stored) key now)) !! key = None)
  /\ (other <> key ->
      fst (get (set c key value ttlMs stored) other now)
        = fst (get c other now)).
Proof.
  unfold get, set. cbn [store]. rewrite lookup_insert_eq. cbn [expiry data].
  split; [|split].
  - intros Hlive. destruct (Z.ltb_spec (stored + effectiveTtl c ttlMs) now);
      [lia | reflexivity].
  - intros Hdead. destruct (Z.ltb_spec (stored + effectiveTtl c ttlMs) now);
      [|lia].
    cbn [fst snd store]. split; [reflexivity|]. by rewrite lookup_delete_eq.
  - intros Hne. rewrite lookup_insert_ne by done.
    destruct (store c !! other) as [e|]; [|reflexivity].
    by destruct (expiry e <? now).
Qed.

(** X5: every [get] counts as one hit or one miss; it deletes the entry
    under its key when that has expired, and touches no other key, the
    saved credits or the default TTL. *)
Theorem get_accounting (c : Cache T) (key other : string) (now : Z) :
  let '(value, c') := get c key now in
  (stats_hits c' + stats_misses c' = S (stats_hits c + stats_misses c))%nat
  /\ (forall e, store c !! key = Some e -> expiry e < now ->
       value = None /\ store c' !! key = None
       /\ stats_misses c' = S (stats_misses c))
  /\ (other <> key -> store c' !! other = store c !! other)
  /\ creditsSaved c' = creditsSaved c
  /\ defaultTtl c' = defaultTtl c.
Proof.
  unfold get. destruct (store c !! key) as [e|] eqn:Hk.
  - destruct (Z.ltb_spec (expiry e) now) as [Hexp|Hlive];
      cbn [stats_hits stats_misses store creditsSaved defaultTtl].
    + split; [lia|]. split.
      * intros e' [= <-] _. by rewrite lookup_delete_eq.
      * split; [|done]. intros Hne. by rewrite lookup_delete_ne.
    + split; [lia|]. split.
      * intros e' [= <-] Hexp. lia.
      * split; [|done]. intros Hne. by rewrite lookup_insert_ne.
  - cbn [stats_hits stats_misses store creditsSaved defaultTtl].
    split; [lia|]. split; [intros e [=]|done].
Qed.

(** X6: a fetch that fails is not cached: on a miss with a fetcher that
    rejects, the error comes out, the credits saved stay as they were, and
    the next call for the key invokes the fetcher again. *)
Theorem getOrFetch_rejected (c : Cache T) (key : string) (f : Fetcher T)
  (ttlMs : option Z) (credits now later : Z) :
  fst (get c key now) = None ->
  responses f (calls f) = Rejected ->
  let '(r1, c1, f1) := getOrFetch c key f ttlMs credits now in
  let '(r2, c2, f2) := getOrFetch c1 key f1 ttlMs credits later in
  r1 = Thrown
  /\ creditsSaved c1 = creditsSaved c
  /\ calls f1 = S (calls f)
  /\ calls f2 = S (S (calls f)).
Proof.
  intros Hmiss Hrej. unfold getOrFetch at 1.
  assert (Hcred : creditsSaved (snd (get c key now)) = creditsSaved c).
  { unfold get. destruct (store c !! key) as [e|]; [|reflexivity].
    by destruct (expiry e <? now). }
  destruct (get c key now) as [cached c1] eqn:Hget. cbn [fst snd] in *.
  subst cached. unfold invoke. rewrite Hrej.
  assert (Hgone : fst (get c1 key later) = None).
  { revert Hget. unfold get. destruct (store c !! key) as [e|] eqn:Hk.
    - destruct (expiry e <? now) eqn:Hexp.
      + intros [= <-]. cbn [store]. by rewrite lookup_delete_eq.
      + intros [= He <-]. cbn [store]. rewrite lookup_insert_eq.
        cbn [expiry data]. rewrite He. by destruct (expiry e <? later).
    - intros [= <-]. cbn [store]. by rewrite Hk. }
  unfold getOrFetch.
  destruct (get c1 key later) as [cached2 c2]. cbn [fst] in Hgone.
  subst cached2. unfold invoke. cbn [calls responses].
  destruct (responses f (S (calls f))); by repeat split.
Qed.

End CacheOpsFacts.

Section CacheOpsExamples.
Import Cache CacheOps.

Lemma getOrFetch_rejected_witness :
  let '(r1, c1, f1) :=
    getOrFetch (T := Z) (new 60000) "k"
      {| responses := fun _ => Rejected; calls := 0 |} None 1 0 in
  let '(r2, c2, f2) := getOrFetch c1 "k" f1 None 1 5 in
  r1 = Thrown
  /\ creditsSaved c1 = creditsSaved (new (T := Z) 60000)
  /\ calls f1 = 1%nat
  /\ calls f2 = 2%nat.
Proof.
  apply (getOrFetch_rejected (T := Z) (new 60000) "k"
           {| responses := fun _ => Rejected; calls := 0 |} None 1 0 5);
    reflexivity.
Defined.

End CacheOpsExamples.

Section MakeKeyFacts.
Import CacheOps.

Lemma ascii_compare_lt_trans (x y z : Ascii.ascii) :
  Ascii.compare x y = Lt -> Ascii.compare y z = Lt -> Ascii.compare x z = Lt.
Proof.
  unfold Ascii.compare. rewrite !N.compare_lt_iff. apply N.lt_trans.
Qed.

Lemma string_compare_lt_trans (a : string) :
  forall b c : string,
    String.compare a b = Lt -> String.compare b c = Lt ->
    String.compare a c = Lt.
Proof.
  induction a as [|x a IH]; intros [|y b] [|z c]; cbn; try done.
  destruct (Ascii.compare x y) eqn:Hxy; try discriminate.
  - apply Ascii.compare_eq_iff in Hxy as ->.
    destruct (Ascii.compare y z); try done. apply IH.
  - destruct (Ascii.compare y z) eqn:Hyz; try discriminate.
    + apply Ascii.compare_eq_iff in Hyz as <-. by rewrite Hxy.
    + by rewrite (ascii_compare_lt_trans x y z Hxy Hyz).
Qed.

#[local] Instance keyLe_trans : Transitive keyLe.
Proof.
  intros a b c. unfold keyLe, String.leb.
  destruct (String.compare a b) eqn:Hab; try discriminate;
    destruct (String.compare b c) eqn:Hbc; try discriminate; intros _ _.
  - apply String.compare_eq_iff in Hab as ->. by rewrite Hbc.
  - apply String.compare_eq_iff in Hab as ->. by rewrite Hbc.
  - apply String.compare_eq_iff in Hbc as <-. by rewrite Hab.
  - by rewrite (string_compare_lt_trans a b c Hab Hbc).
Qed.

#[local] Instance keyLe_antisym : AntiSymm eq keyLe.
Proof. intros a b. apply String.leb_antisym. Qed.

Lemma insertKey_perm (k : string) (l : list string) : insertKey k l ≡ₚ k :: l.
Proof.
  induction l as [|k' l IH]; cbn [insertKey]; [reflexivity|].
  destruct (String.leb k k'); [reflexivity|].
  rewrite IH. apply Permutation_swap.
Qed.

Lemma sortKeys_perm (l : list string) : sortKeys l ≡ₚ l.
Proof.
  unfold sortKeys. induction l as [|k l IH]; cbn [foldr]; [reflexivity|].
  by rewrite insertKey_perm, IH.
Qed.

Lemma insertKey_sorted (k : string) (l : list string) :
  Sorted keyLe l -> Sorted keyLe (insertKey k l).
Proof.
  induction 1 as [|k' l Hl IH Hhd]; cbn [insertKey].
  - by repeat constructor.
  - destruct (String.leb k k') eqn:Hle.
    + constructor; [by constructor|]. by constructor.
    + constructor; [exact IH|].
      assert (Hk' : keyLe k' k).
      { destruct (String.leb_total k k') as [H|H]; [congruence|exact H]. }
      destruct Hhd as [|k2 l2 Hk2]; cbn [insertKey].
      * by constructor.
      * destruct (String.leb k k2); by constructor.
Qed.

Lemma sortKeys_sorted (l : list string) : Sorted keyLe (sortKeys l).
Proof.
  unfold sortKeys. induction l as [|k l IH]; cbn [foldr].
  - constructor.
  - by apply insertKey_sorted.
Qed.

(** The sorted keys do not depend on the order the object lists them in. *)
Lemma sortKeys_order (l1 l2 : list string) :
  l1 ≡ₚ l2 -> sortKeys l1 = sortKeys l2.
Proof.
  intros Hperm.
  apply (Sorted_unique keyLe); try apply sortKeys_sorted.
  by rewrite !sortKeys_perm.
Qed.

Lemma property_elem {V} (params : list (string * V)) (k : string) (v : V) :
  NoDup (fst <$> params) -> (k, v) ∈ params -> property params k = Some v.
Proof.
  induction params as [|[k' v'] params IH]; intros Hnd Hin;
    [by apply elem_of_nil in Hin|].
  rewrite fmap_cons in Hnd. apply NoDup_cons in Hnd as [Hk' Hnd].
  cbn [property]. apply elem_of_cons in Hin as [[= -> ->]|Hin].
  - by rewrite String.eqb_refl.
  - destruct (String.eqb_spec k' k) as [->|Hne]; [|by apply IH].
    exfalso. apply Hk'. apply list_elem_of_fmap. by exists (k, v).
Qed.

(** X7: [makeKey] is canonical: two listings of the same properties, in
    whatever order, give the same key. *)
Theorem makeKey_canonical {V} (stringify : option V -> string)
  (prefix : string) (params1 params2 : list (string * V)) :
  NoDup (fst <$> params1) ->
  params1 ≡ₚ params2 ->
  makeKey stringify prefix params1 = makeKey stringify prefix params2.
Proof.
  intros Hnd Hperm. unfold makeKey.
  assert (Hnd2 : NoDup (fst <$> params2)) by by rewrite <- Hperm.
  rewrite (sortKeys_order (fst <$> params1) (fst <$> params2))
    by by rewrite Hperm.
  do 3 f_equal. apply list_fmap_ext. intros i k Hk.
  assert (Hin : k ∈ fst <$> params2).
  { rewrite <- (sortKeys_perm (fst <$> params2)).
    by eapply list_elem_of_lookup_2. }
  apply list_elem_of_fmap in Hin as ([k' v] & -> & Hkv). cbn [fst].
  rewrite (property_elem params2 k' v Hnd2 Hkv).
  rewrite (property_elem params1 k' v Hnd); [reflexivity|].
  by rewrite Hperm.
Qed.

(** [makeKey("p", {a: 1, b: 2})] and [makeKey("p", {b: 2, a: 1})], the
    values given as their JSON text. *)
Lemma makeKey_canonical_witness :
  makeKey (fun v : option string => default "undefined" v) "p"
    [("a", "1"); ("b", "2")]
  = makeKey (fun v : option string => default "undefined" v) "p"
      [("b", "2"); ("a", "1")].
Proof.
  apply makeKey_canonical.
  - apply (bool_decide_unpack _). reflexivity.
  - apply Permutation_swap.
Defined.

End MakeKeyFacts.

(** ** The rate limiter, its other methods *)

Section RateLimiterOpsFacts.
Import RateLimiter.

(** What a refill adds when the clock has not gone back and the rate is
    not negative. *)
Lemma refill_adds (rate : Num.number) (elapsedMs : Z) :
  (0 <= rate)%Q -> 0 <= elapsedMs ->
  (0 <= Num.mul (Num.div (Num.of_Z elapsedMs) (Num.of_Z 1000)) rate)%Q.
Proof.
  intros Hrate Helapsed. unfold Num.mul, Num.div, Num.of_Z.
  rewrite !Qred_correct. apply Qmult_le_0_compat; [|exact Hrate].
  apply Qle_shift_div_l; [reflexivity|].
  rewrite Qmult_0_l. change 0%Q with (inject_Z 0). by rewrite <- Zle_Qle.
Qed.

Lemma refill_grows (rl : RateLimiter) (now : Z) :
  (0 <= refillRate (config rl))%Q -> lastRefill rl <= now ->
  (tokens rl <= maxTokens (config rl))%Q ->
  (tokens rl <= tokens (refill rl now))%Q.
Proof.
  intros Hrate Hnow Hle. cbn [refill tokens].
  apply Q.min_glb; [exact Hle|].
  rewrite add_eq.
  assert (Helapsed : 0 <= now - lastRefill rl) by lia.
  pose proof (refill_adds (refillRate (config rl)) _ Hrate Helapsed).
  lra.
Qed.

(** X8: [canAcquire] is a sound dry run.  Where it says yes, an [acquire]
    of the same cost that starts no earlier (the clock not going back, the
    rate not negative) does not wait for tokens: it returns at its third
    reading of the clock, unthrottled, having slept at most the rest of
    the minimum delay. *)
Theorem canAcquire_then_acquire (rl : RateLimiter) (cost : Num.number)
  (now now0 now1 now2 : Z) (rest : list Z) :
  (0 <= refillRate (config rl))%Q ->
  now <= now0 ->
  fst (canAcquire rl cost now) = true ->
  exists rl',
    acquire (snd (canAcquire rl cost now)) cost (now0 :: now1 :: now2 :: rest)
      = Some (Z.max 0 (minDelayMs (config rl) - (now1 - lastRequest rl)),
              rl', rest)
    /\ throttledRequests rl' = throttledRequests rl
    /\ lastRequest rl' = now2.
Proof.
  intros Hrate Hnow Hyes. cbn [canAcquire fst snd] in *.
  apply Qle_bool_iff in Hyes.
  unfold acquire. cbn [waitForTokens].
  match goal with
  | |- context [Num.lt (tokens ?r) cost] => set (rl1 := r)
  end.
  assert (Hlt : Num.lt (tokens rl1) cost = false).
  { apply lt_false. eapply Qle_trans; [exact Hyes|].
    subst rl1. cbn [refill tokens config lastRefill].
    apply Q.min_glb; [apply Q.le_min_l|].
    rewrite !add_eq.
    assert (Helapsed : 0 <= now0 - now) by lia.
    pose proof (refill_adds (refillRate (config rl)) _ Hrate Helapsed).
    lra. }
  rewrite Hlt.
  assert (Hwait :
    (if now1 - lastRequest rl1 <? minDelayMs (config rl1)
     then minDelayMs (config rl1) - (now1 - lastRequest rl1) else 0)
    = Z.max 0 (minDelayMs (config rl) - (now1 - lastRequest rl))).
  { subst rl1. cbn [refill lastRequest config].
    destruct (Z.ltb_spec (now1 - lastRequest rl) (minDelayMs (config rl))); lia. }
  rewrite Hwait. eexists. split; [reflexivity|]. split; reflexivity.
Qed.

Lemma canAcquire_then_acquire_witness :
  exists rl',
    acquire (snd (canAcquire (new standard 0) 3%Q 500)) 3%Q [500; 600; 600]
      = Some (0, rl', [])
    /\ throttledRequests rl' = 0%nat.
Proof.
  destruct (canAcquire_then_acquire (new standard 0) 3%Q 500 500 600 600 [])
    as (rl' & Hacq & Hthr & _); [discriminate | lia | reflexivity |].
  exists rl'. split; [exact Hacq | exact Hthr].
Defined.

(** The counters over the waiting loop. *)
Lemma waitForTokens_counts (cost : Num.number) (clock : list Z) :
  forall (rl : RateLimiter) (w w' : Z) (rl' : RateLimiter) (rest : list Z),
    waitForTokens cost clock rl w = Some (w', rl', rest) ->
    exists turns : nat,
      length clock = (turns + 1 + length rest)%nat
      /\ totalRequests rl' = totalRequests rl
      /\ throttledRequests rl' = (throttledRequests rl + turns)%nat
      /\ totalWaitTimeMs rl' = totalWaitTimeMs rl + w'
      /\ ((0 < refillRate (config rl))%Q -> w + 10 * Z.of_nat turns <= w').
Proof.
  induction clock as [|now clock IH]; intros rl w w' rl' rest Hw;
    [discriminate|].
  cbn [waitForTokens] in Hw.
  destruct (Num.lt (tokens rl) cost) eqn:Hlt.
  - apply IH in Hw as (turns & Hlen & Htot & Hthr & Hwait & Hdelay).
    exists (S turns). cbn [length refill throttled totalRequests
      throttledRequests totalWaitTimeMs config] in *.
    split; [lia|]. split; [exact Htot|]. split; [lia|]. split; [exact Hwait|].
    intros Hrate. specialize (Hdelay Hrate).
    assert (Hpos : 0 < Qceiling
              (Num.mul (Num.div (Num.sub cost (tokens rl))
                          (refillRate (config rl))) (Num.of_Z 1000))).
    { apply lt_true in Hlt.
      match goal with |- 0 < Qceiling ?x => set (needed := x) end.
      assert (Hneeded : (0 < needed)%Q).
      { subst needed. unfold Num.mul, Num.div, Num.sub, Num.of_Z.
        rewrite !Qred_correct.
        apply Qmult_lt_0_compat; [|reflexivity].
        apply Qlt_shift_div_l; [exact Hrate|]. lra. }
      pose proof (Qle_ceiling needed) as Hceil.
      assert (Hz : (inject_Z 0 < inject_Z (Qceiling needed))%Q)
        by (change (inject_Z 0) with 0%Q; lra).
      by rewrite <- Zlt_Qlt in Hz. }
    unfold delayFor in Hdelay. lia.
  - injection Hw as <- <- <-. exists 0%nat.
    cbn [length deduct totalRequests throttledRequests totalWaitTimeMs].
    repeat split; lia.
Qed.

(** X9: the books of a completed [acquire]: one more request, one more
    throttled request per turn of the wait (a reading of the clock each,
    after the three every call takes), and the returned wait added to the
    total; with a positive refill rate the returned wait covers the rest of
    the minimum delay and more than 10 ms per turn. *)
Theorem acquire_accounting (rl : RateLimiter) (cost : Num.number)
  (now0 now1 : Z) (clock : list Z) (w : Z) (rl' : RateLimiter)
  (rest : list Z) :
  acquire rl cost (now0 :: now1 :: clock) = Some (w, rl', rest) ->
  exists turns : nat,
    length clock = (turns + 1 + length rest)%nat
    /\ totalRequests rl' = S (totalRequests rl)
    /\ throttledRequests rl' = (throttledRequests rl + turns)%nat
    /\ totalWaitTimeMs rl' = totalWaitTimeMs rl + w
    /\ ((0 < refillRate (config rl))%Q ->
        Z.max 0 (minDelayMs (config rl) - (now1 - lastRequest rl))
          + 10 * Z.of_nat turns <= w).
Proof.
  unfold acquire. intros Hw.
  apply waitForTokens_counts in Hw as (turns & Hlen & Htot & Hthr & Hwait & Hdelay).
  exists turns. cbn [refill totalRequests throttledRequests totalWaitTimeMs
    config lastRequest] in *.
  split; [exact Hlen|]. split; [exact Htot|]. split; [exact Hthr|].
  split; [exact Hwait|].
  intros Hrate. specialize (Hdelay Hrate).
  destruct (Z.ltb_spec (now1 - lastRequest rl) (minDelayMs (config rl))); lia.
Qed.

(** A sample run on numbers that the doubles of the source hold exactly,
    so that it is the run of [RateLimiterDouble] too.  After a first
    [acquire()] at 1000 ms, an [acquire(10)] at 1125 ms finds 9.25 tokens,
    waits out the 75 ms left of the minimum delay, sleeps
    [ceil(0.75 / 2 * 1000) + 10 = 385] ms in one turn of the wait, and
    takes the 10 tokens of its next refill, at 1625 ms. *)
Lemma acquire_accounting_witness :
  exists (rl rl' : RateLimiter) (turns : nat),
    run (new standard 0) [Acquire 1%Q [1000; 1000; 1000]] = Some rl
    /\ acquire rl 10%Q [1125; 1125; 1625; 1625] = Some (460, rl', [])
    /\ RateLimiterDouble.acquire rl 10%Q [1125; 1125; 1625; 1625]
       = Some (460, rl', [])
    /\ turns = 1%nat
    /\ throttledRequests rl' = (throttledRequests rl + turns)%nat
    /\ totalWaitTimeMs rl' = totalWaitTimeMs rl + 460.
Proof.
  eexists. eexists.
  match goal with
  | |- exists turns, run _ _ = Some ?rl /\ acquire _ _ _ = Some (_, ?rl', _) /\ _ =>
      assert (Hrun : run (new standard 0) [Acquire 1%Q [1000; 1000; 1000]]
                     = Some rl) by (vm_compute; reflexivity);
      assert (Hacq : acquire rl 10%Q [1125; 1125; 1625; 1625]
                     = Some (460, rl', [])) by (vm_compute; reflexivity);
      assert (Hdouble : RateLimiterDouble.acquire rl 10%Q
                          [1125; 1125; 1625; 1625] = Some (460, rl', []))
        by (vm_compute; reflexivity)
  end.
  destruct (acquire_accounting _ _ _ _ _ _ _ _ Hacq)
    as (turns & Hlen & _ & Hthr & Hwait & _).
  exists turns. cbn [length] in Hlen.
  split; [exact Hrun|]. split; [exact Hacq|]. split; [exact Hdouble|].
  split; [lia|]. split; [exact Hthr | exact Hwait].
Defined.

(** X10: [reset] gives the full bucket back: from then on (the clock not
    going back, the rate not negative) [canAcquire] says yes to exactly the
    costs within [maxTokens]. *)
Theorem reset_full (rl : RateLimiter) (cost : Num.number) (now later : Z) :
  (0 <= refillRate (config rl))%Q ->
  now <= later ->
  (fst (canAcquire (reset rl now) cost later) = true
   <-> (cost <= maxTokens (config rl))%Q).
Proof.
  intros Hrate Hlater. cbn [canAcquire fst reset refill tokens config lastRefill].
  unfold Num.ge. rewrite Qle_bool_iff.
  assert (Helapsed : 0 <= later - now) by lia.
  pose proof (refill_adds (refillRate (config rl)) _ Hrate Helapsed) as Hadd.
  rewrite Q.min_l; [reflexivity|].
  rewrite add_eq. lra.
Qed.

Lemma reset_full_witness :
  fst (canAcquire (reset (new standard 0) 5000) 10%Q 5000) = true.
Proof.
  apply (reset_full (new standard 0) 10%Q 5000 5000); [discriminate | lia |].
  discriminate.
Defined.

End RateLimiterOpsFacts.

(** ** The signal log, its other methods *)

Section SignalLogOpsFacts.
Import SignalLog SignalLogOps.

Lemma fold_insert_keyed (data : list LoggedSignal) :
  forall signals : store,
    keyed signals ->
    keyed (foldl (fun m s => <[sig_id s := s]> m) signals data).
Proof.
  induction data as [|s data IH]; intros signals Hk; [exact Hk|].
  cbn [foldl]. apply IH. intros k r. rewrite lookup_insert.
  destruct (decide (sig_id s = k)) as [<-|Hne]; [by intros [= <-]|apply Hk].
Qed.

Lemma fold_insert_notin (data : list LoggedSignal) :
  forall (signals : store) (k : string),
    k ∉ sig_id <$> data ->
    foldl (fun m s => <[sig_id s := s]> m) signals data !! k = signals !! k.
Proof.
  induction data as [|s data IH]; intros signals k Hk; [reflexivity|].
  cbn [foldl]. rewrite fmap_cons in Hk. apply not_elem_of_cons in Hk as [Hne Hk].
  rewrite IH by done. by rewrite lookup_insert_ne.
Qed.

Lemma fold_insert_in (data : list LoggedSignal) :
  forall (signals : store) (s : LoggedSignal),
    NoDup (sig_id <$> data) -> s ∈ data ->
    foldl (fun m r => <[sig_id r := r]> m) signals data !! sig_id s = Some s.
Proof.
  induction data as [|r data IH]; intros signals s Hnd Hin;
    [by apply elem_of_nil in Hin|].
  rewrite fmap_cons in Hnd. apply NoDup_cons in Hnd as [Hr Hnd].
  cbn [foldl]. apply elem_of_cons in Hin as [->|Hin]; [|by apply IH].
  rewrite fold_insert_notin by done. apply lookup_insert_eq.
Qed.

(** In a keyed store the ids of the records are the keys. *)
Lemma keyed_ids (signals : store) :
  keyed signals ->
  sig_id <$> (snd <$> map_to_list signals) = fst <$> map_to_list signals.
Proof.
  intros Hk. rewrite <- list_fmap_compose. apply list_fmap_ext.
  intros i [k r] Hi. cbn. apply Hk.
  apply elem_of_map_to_list. by eapply list_elem_of_lookup_2.
Qed.

(** X11: what [save] writes, [load] reads back: from the array of the
    records of a keyed store, in any order, [load] rebuilds that store,
    whatever the map held before. *)
Theorem load_save_roundtrip (signals before : store)
  (values : list LoggedSignal) :
  keyed signals ->
  listing signals values ->
  load before (Saved values) = signals.
Proof.
  intros Hk Hvalues. unfold listing in Hvalues. cbn [load]. unfold loadFrom.
  assert (Hnd : NoDup (sig_id <$> values)).
  { rewrite Hvalues, keyed_ids by done. apply NoDup_fst_map_to_list. }
  apply map_eq. intros k. destruct (signals !! k) as [r|] eqn:Hr.
  - rewrite <- (Hk k r Hr). apply fold_insert_in; [exact Hnd|].
    rewrite Hvalues. apply list_elem_of_fmap. exists (k, r).
    split; [reflexivity|]. by apply elem_of_map_to_list.
  - rewrite fold_insert_notin; [apply lookup_empty|].
    rewrite Hvalues, keyed_ids by done. intros Hin.
    apply list_elem_of_fmap in Hin as ([k' r] & -> & Hin).
    apply elem_of_map_to_list in Hin. cbn in Hr. congruence.
Qed.

Lemma load_save_roundtrip_witness :
  load ∅ (Saved [fst (log ∅ (candidate base "X" accumulation 6%Q []) 1000)])
  = snd (log ∅ (candidate base "X" accumulation 6%Q []) 1000).
Proof.
  apply load_save_roundtrip.
  - intros k r. unfold log. rewrite lookup_empty. cbn [snd].
    rewrite lookup_insert. case_decide; [by intros [= <-]|].
    by rewrite lookup_empty.
  - unfold listing, log. rewrite lookup_empty. cbn [fst snd].
    by rewrite insert_empty, map_to_list_singleton.
Defined.

(** X12: every record of the log sits under its own id: [load] builds the
    map that way from any array, and [log], [markActed] and
    [recordOutcome] keep it so. *)
Theorem keyed_always (data : list LoggedSignal) (before signals : store)
  (c : OpportunitySignal) (id : string) (a : Action) (note : option string)
  (partial : PartialOutcome) (now : Z) :
  keyed (load before (Saved data))
  /\ (keyed signals ->
      keyed (snd (log signals c now))
      /\ keyed (snd (markActed signals id a note now))
      /\ keyed (snd (recordOutcome signals id partial))).
Proof.
  split.
  - cbn [load]. apply fold_insert_keyed. intros k r. by rewrite lookup_empty.
  - intros Hk. split; [|split].
    + unfold log. destruct (signals !! generateId c) eqn:E; [exact Hk|].
      cbn [snd]. intros k r. rewrite lookup_insert.
      case_decide; [|apply Hk]. subst k. by intros [= <-].
    + unfold markActed. destruct (signals !! id) as [s|] eqn:E; [|exact Hk].
      cbn [snd]. intros k r. rewrite lookup_insert.
      case_decide; [|apply Hk]. subst k. intros [= <-]. cbn. by apply Hk.
    + unfold recordOutcome. destruct (signals !! id) as [s|] eqn:E; [|exact Hk].
      cbn [snd]. intros k r. rewrite lookup_insert.
      case_decide; [|apply Hk]. subst k. intros [= <-]. cbn. by apply Hk.
Qed.

(** X13: [markActed] and [recordOutcome] answer an id the log does not
    hold with nothing and leave the log as it is; on an id it holds they
    return the signal they stored, and in either case no other record
    changes. *)
Theorem mutators_frame (signals : store) (id other : string) (a : Action)
  (note : option string) (partial : PartialOutcome) (now : Z) :
  (signals !! id = None ->
     markActed signals id a note now = (None, signals)
     /\ recordOutcome signals id partial = (None, signals))
  /\ (is_Some (signals !! id) ->
      snd (markActed signals id a note now) !! id
        = fst (markActed signals id a note now)
      /\ is_Some (fst (markActed signals id a note now))
      /\ snd (recordOutcome signals id partial) !! id
          = fst (recordOutcome signals id partial)
      /\ is_Some (fst (recordOutcome signals id partial)))
  /\ (other <> id ->
      snd (markActed signals id a note now) !! other = signals !! other
      /\ snd (recordOutcome signals id partial) !! other = signals !! other).
Proof.
  unfold markActed, recordOutcome. split; [|split].
  - by intros ->.
  - intros [s ->]. cbn [fst snd]. rewrite !lookup_insert_eq. by repeat split.
  - intros Hne. destruct (signals !! id); cbn [snd];
      rewrite ?lookup_insert_ne by done; by split.
Qed.

Lemma log_stores (signals : store) (c : OpportunitySignal) (now : Z) :
  snd (log signals c now) !! generateId c = Some (fst (log signals c now)).
Proof.
  unfold log. destruct (signals !! generateId c) eqn:E; cbn [fst snd];
    [exact E | apply lookup_insert_eq].
Qed.

(** [log] never changes a record that is there. *)
Lemma log_keeps (signals : store) (c : OpportunitySignal) (now : Z)
  (k : string) (r : LoggedSignal) :
  signals !! k = Some r -> snd (log signals c now) !! k = Some r.
Proof.
  intros Hr. unfold log. destruct (signals !! generateId c) eqn:E;
    cbn [snd]; [exact Hr|].
  rewrite lookup_insert_ne; [exact Hr | congruence].
Qed.

Lemma logBatch_keeps (batch : list (OpportunitySignal * Z)) :
  forall (signals : store) (k : string) (r : LoggedSignal),
    signals !! k = Some r -> snd (logBatch signals batch) !! k = Some r.
Proof.
  induction batch as [|[c now] batch IH]; intros signals k r Hr; [exact Hr|].
  cbn [logBatch].
  pose proof (log_keeps signals c now k r Hr) as H1.
  destruct (log signals c now) as [entry signals1]. cbn [snd] in H1.
  specialize (IH signals1 k r H1).
  destruct (logBatch signals1 batch) as [entries signals2]. exact IH.
Qed.

Lemma logBatch_stored (batch : list (OpportunitySignal * Z)) :
  forall (signals : store) (entries : list LoggedSignal),
    Forall2 (fun c r => signals !! generateId c = Some r)
      (fst <$> batch) entries ->
    logBatch signals batch = (entries, signals).
Proof.
  induction batch as [|[c now] batch IH]; intros signals entries Hall.
  - apply Forall2_nil_inv_l in Hall as ->. reflexivity.
  - rewrite fmap_cons in Hall.
    apply Forall2_cons_inv_l in Hall as (r & entries' & Hr & Hall & ->).
    cbn [logBatch fst] in *. unfold log. rewrite Hr.
    by rewrite (IH signals entries' Hall).
Qed.

(** X14: [logBatch] returns one signal per candidate, each the record the
    log then holds under the id of its candidate, and a second [logBatch]
    of the same candidates, at whatever time, returns the same signals and
    leaves the log as it is. *)
Theorem logBatch_idempotent (signals : store)
  (batch again : list (OpportunitySignal * Z)) :
  fst <$> again = fst <$> batch ->
  let '(entries, signals1) := logBatch signals batch in
  Forall2 (fun c r => signals1 !! generateId c = Some r)
    (fst <$> batch) entries
  /\ logBatch signals1 again = (entries, signals1).
Proof.
  intros Hsame.
  assert (Hall : Forall2
            (fun c r => snd (logBatch signals batch) !! generateId c = Some r)
            (fst <$> batch) (fst (logBatch signals batch))).
  { clear again Hsame. revert signals.
    induction batch as [|[c now] batch IH]; intros signals; [constructor|].
    cbn [logBatch].
    pose proof (log_stores signals c now) as Hstored.
    destruct (log signals c now) as [entry signals1]. cbn [fst snd] in Hstored.
    specialize (IH signals1).
    pose proof (logBatch_keeps batch signals1 _ _ Hstored) as Hkept.
    destruct (logBatch signals1 batch) as [entries signals2].
    cbn [fst snd] in *. rewrite fmap_cons. by constructor. }
  destruct (logBatch signals batch) as [entries signals1]. cbn [fst snd] in Hall.
  split; [exact Hall|]. apply logBatch_stored. by rewrite Hsame.
Qed.

Lemma logBatch_idempotent_witness :
  let '(entries, signals1) :=
    logBatch ∅ [(candidate base "X" accumulation 6%Q [], 1000);
                (candidate base "X" accumulation 6%Q [], 1001)] in
  Forall2 (fun c r => signals1 !! SignalLog.generateId c = Some r)
    [candidate base "X" accumulation 6%Q [];
     candidate base "X" accumulation 6%Q []] entries
  /\ logBatch signals1
       [(candidate base "X" accumulation 6%Q [], 5000);
        (candidate base "X" accumulation 6%Q [], 5000)]
     = (entries, signals1).
Proof.
  apply (logBatch_idempotent ∅
           [(candidate base "X" accumulation 6%Q [], 1000);
            (candidate base "X" accumulation 6%Q [], 1001)]
           [(candidate base "X" accumulation 6%Q [], 5000);
            (candidate base "X" accumulation 6%Q [], 5000)]).
  reflexivity.
Defined.

Lemma hasRecentSignal_true (signals : store) (c : OpportunitySignal)
  (withinMs now : Z) :
  hasRecentSignal signals c withinMs now = true <->
    exists k r, signals !! k = Some r /\ sameTarget r c = true
                /\ now - withinMs < loggedAt r.
Proof.
  unfold hasRecentSignal. rewrite existsb_exists. split.
  - intros (r & Hin & Htest). apply list_elem_of_In, list_elem_of_fmap in Hin
      as ([k r'] & -> & Hin). apply elem_of_map_to_list in Hin.
    apply andb_true_iff in Htest as [Hsame Hlate]. exists k, r'.
    split; [exact Hin|]. split; [exact Hsame|]. by apply Z.ltb_lt.
  - intros (k & r & Hr & Hsame & Hlate). exists r. split.
    + apply list_elem_of_In, list_elem_of_fmap. exists (k, r).
      split; [reflexivity|]. by apply elem_of_map_to_list.
    + apply andb_true_iff. split; [exact Hsame|]. by apply Z.ltb_lt.
Qed.

Lemma sameTarget_refl (r : LoggedSignal) : sameTarget r (signal_of r) = true.
Proof.
  unfold sameTarget. rewrite String.eqb_refl.
  by rewrite !bool_decide_eq_true_2.
Qed.

(** X15: the window of [hasRecentSignal].  A candidate whose id and target
    (token, chain and mode) are new to the log is recent, once logged at
    [t], exactly at the times before [t + withinMs]; and a [log] never
    makes a candidate that was recent any less so. *)
Theorem log_then_recent (signals : store) (c other : OpportunitySignal)
  (t withinMs now : Z) :
  (signals !! generateId c = None ->
   (forall k r, signals !! k = Some r -> sameTarget r c = false) ->
   hasRecentSignal (snd (log signals c t)) c withinMs now
     = (now - withinMs <? t))
  /\ (hasRecentSignal signals other withinMs now = true ->
      hasRecentSignal (snd (log signals c t)) other withinMs now = true).
Proof.
  split.
  - intros Hfresh Hnone.
    destruct (Z.ltb_spec (now - withinMs) t) as [Hin|Hout].
    + apply hasRecentSignal_true. eexists. eexists.
      split; [apply log_stores|].
      unfold log. rewrite Hfresh. cbn [fst].
      split; [apply (sameTarget_refl (mkLogged c _ _ _ _)) | exact Hin].
    + apply not_true_iff_false. rewrite hasRecentSignal_true.
      intros (k & r & Hr & Hsame & Hlate). revert Hr. unfold log.
      rewrite Hfresh. cbn [snd]. rewrite lookup_insert.
      case_decide.
      * intros [= <-]. cbn [loggedAt] in Hlate. lia.
      * intros Hr. rewrite (Hnone k r Hr) in Hsame. discriminate.
  - rewrite !hasRecentSignal_true. intros (k & r & Hr & Hrest).
    exists k, r. split; [by apply log_keeps | exact Hrest].
Qed.

Lemma log_then_recent_witness :
  hasRecentSignal (snd (log ∅ (candidate base "X" accumulation 6%Q []) 1000))
    (candidate base "X" accumulation 6%Q []) 3600000 3000000
  = (3000000 - 3600000 <? 1000).
Proof.
  destruct (log_then_recent ∅ (candidate base "X" accumulation 6%Q [])
              (candidate base "X" accumulation 6%Q []) 1000 3600000 3000000)
    as [Hwindow _].
  apply Hwindow.
  - apply lookup_empty.
  - intros k r. by rewrite lookup_empty.
Defined.

End SignalLogOpsFacts.

Section FindFacts.
Import SignalLog SignalLogOps.

(** The sort, under any comparator that agrees with a transitive order. *)
Lemma insert_sorted_by {A} (compare : A -> A -> Num.number)
  (R : A -> A -> Prop) (x : A) (l : list A) :
  (forall a b, Num.gt (compare a b) 0%Q = true -> R b a) ->
  (forall a b, Num.gt (compare a b) 0%Q = false -> R a b) ->
  (forall a b c, R a b -> R b c -> R a c) ->
  StronglySorted R l -> StronglySorted R (NansenTrader.insert compare x l).
Proof.
  intros Hafter Hbefore Htrans.
  induction 1 as [|y l Hsorted IH Hy]; cbn [NansenTrader.insert].
  - by repeat constructor.
  - destruct (Num.gt (compare x y) 0%Q) eqn:Hc.
    + constructor; [exact IH|]. apply insert_Forall; [by apply Hafter | exact Hy].
    + constructor; [by constructor|]. constructor; [by apply Hbefore|].
      eapply Forall_impl; [exact Hy|]. intros z Hz.
      apply Htrans with y; [by apply Hbefore | exact Hz].
Qed.

Lemma sort_sorted_by {A} (compare : A -> A -> Num.number)
  (R : A -> A -> Prop) (l : list A) :
  (forall a b, Num.gt (compare a b) 0%Q = true -> R b a) ->
  (forall a b, Num.gt (compare a b) 0%Q = false -> R a b) ->
  (forall a b c, R a b -> R b c -> R a c) ->
  StronglySorted R (NansenTrader.sort compare l).
Proof.
  intros Hafter Hbefore Htrans. unfold NansenTrader.sort.
  induction l as [|x l IH]; cbn [foldr]; [constructor|].
  by apply insert_sorted_by.
Qed.

Lemma slice0_sorted_by {A} (R : A -> A -> Prop) (l : list A) (end_ : Z) :
  StronglySorted R l -> StronglySorted R (NansenTrader.slice0 l end_).
Proof.
  intros Hl. unfold NansenTrader.slice0.
  destruct (end_ <? 0);
    match goal with
    | |- StronglySorted R (take ?n l) =>
        rewrite <- (take_drop n l) in Hl;
        by apply StronglySorted_app_1_l in Hl
    end.
Qed.

Lemma slice0_elem {A} (l : list A) (end_ : Z) (x : A) :
  x ∈ NansenTrader.slice0 l end_ -> x ∈ l.
Proof.
  unfold NansenTrader.slice0. destruct (end_ <? 0); apply subseteq_take.
Qed.

Lemma narrow_elem {A} (criterion : option A) (test : A -> LoggedSignal -> bool)
  (results : list LoggedSignal) (s : LoggedSignal) :
  s ∈ narrow criterion test results <->
    s ∈ results /\ (forall a, criterion = Some a -> test a s = true).
Proof.
  unfold narrow. destruct criterion as [a|].
  - rewrite list_elem_of_In, filter_In, <- list_elem_of_In. split.
    + intros [Hin Ht]. split; [exact Hin|]. by intros a' [= <-].
    + intros [Hin Ht]. split; [exact Hin|]. by apply Ht.
  - split; [intros Hin; split; [exact Hin|discriminate] | by intros [Hin _]].
Qed.

Lemma hasPnl_true (s : LoggedSignal) :
  hasPnl s = true <-> is_Some (outcome s ≫= pnl).
Proof.
  unfold hasPnl. destruct (outcome s ≫= pnl); split; done.
Qed.

(** The eight tests of [find], taken together, are the criteria of the
    filter. *)
Lemma tests_meet (filter : SignalFilter) (s : LoggedSignal) :
  ((forall l, nonEmpty (f_chains filter) = Some l ->
      bool_decide (chain (signal_of s) ∈ l) = true)
   /\ (forall l, nonEmpty (f_modes filter) = Some l ->
        bool_decide (sig_type (signal_of s) ∈ l) = true)
   /\ (forall q, f_minScore filter = Some q ->
        Num.ge (score (signal_of s)) q = true)
   /\ (forall q, f_maxScore filter = Some q ->
        Num.ge q (score (signal_of s)) = true)
   /\ (forall a, f_acted filter = Some a -> Bool.eqb (acted s) a = true)
   /\ (forall has, f_hasOutcome filter = Some has ->
        (if has then hasPnl s else negb (hasPnl s)) = true)
   /\ (forall start, f_startDate filter = Some start ->
        (start <=? loggedAt s) = true)
   /\ (forall end_, f_endDate filter = Some end_ ->
        (loggedAt s <=? end_) = true))
  <-> meets filter s.
Proof.
  unfold meets, Num.ge. split.
  - intros (Hc & Hm & Hmin & Hmax & Ha & Ho & Hs & He).
    split; [|split; [|split; [|split; [|split; [|split; [|split]]]]]].
    + intros c cs Heq. eapply bool_decide_eq_true_1, Hc. by rewrite Heq.
    + intros m ms Heq. eapply bool_decide_eq_true_1, Hm. by rewrite Heq.
    + intros q Heq. by apply Qle_bool_iff, Hmin.
    + intros q Heq. by apply Qle_bool_iff, Hmax.
    + intros a Heq. by apply Bool.eqb_prop, Ha.
    + intros has Heq. specialize (Ho has Heq). rewrite <- hasPnl_true.
      destruct has, (hasPnl s); try discriminate; split; done.
    + intros start Heq. by apply Z.leb_le, Hs.
    + intros end_ Heq. by apply Z.leb_le, He.
  - intros (Hc & Hm & Hmin & Hmax & Ha & Ho & Hs & He).
    split; [|split; [|split; [|split; [|split; [|split; [|split]]]]]].
    + intros l Heq. apply bool_decide_eq_true_2.
      destruct (f_chains filter) as [[|c cs]|] eqn:E; try discriminate.
      injection Heq as <-. by apply Hc.
    + intros l Heq. apply bool_decide_eq_true_2.
      destruct (f_modes filter) as [[|m ms]|] eqn:E; try discriminate.
      injection Heq as <-. by apply Hm.
    + intros q Heq. by apply Qle_bool_iff, Hmin.
    + intros q Heq. by apply Qle_bool_iff, Hmax.
    + intros a Heq. rewrite (Ha a Heq). apply Bool.eqb_reflx.
    + intros has Heq. specialize (Ho has Heq). rewrite <- hasPnl_true in Ho.
      destruct has, (hasPnl s); try done.
      * by apply Ho.
      * destruct Ho as [Ho _]. by specialize (Ho eq_refl).
    + intros start Heq. by apply Z.leb_le, Hs.
    + intros end_ Heq. by apply Z.leb_le, He.
Qed.

(** Before the limit, [find] holds the values that meet the filter. *)
Lemma find_unlimited (values : list LoggedSignal) (filter : SignalFilter)
  (s : LoggedSignal) :
  s ∈ find values
        {| f_chains := f_chains filter; f_modes := f_modes filter;
           f_minScore := f_minScore filter; f_maxScore := f_maxScore filter;
           f_acted := f_acted filter; f_hasOutcome := f_hasOutcome filter;
           f_startDate := f_startDate filter; f_endDate := f_endDate filter;
           f_limit := None |}
  <-> s ∈ values /\ meets filter s.
Proof.
  unfold find. cbn [f_chains f_modes f_minScore f_maxScore f_acted
    f_hasOutcome f_startDate f_endDate f_limit].
  rewrite sort_Permutation, !narrow_elem, <- tests_meet. tauto.
Qed.

(** X16: [find] returns stored signals that meet every criterion of the
    filter, newest first; without a limit (or with the limit 0, which
    counts as none) it returns all of them, and under a positive limit no
    more than that many. *)
Theorem find_filters (values : list LoggedSignal) (filter : SignalFilter) :
  (forall s, s ∈ find values filter -> s ∈ values /\ meets filter s)
  /\ (f_limit filter = None \/ f_limit filter = Some 0 ->
      forall s, s ∈ values -> meets filter s -> s ∈ find values filter)
  /\ StronglySorted (fun a b => loggedAt b <= loggedAt a) (find values filter)
  /\ (forall n, f_limit filter = Some n -> 0 < n ->
       Z.of_nat (length (find values filter)) <= n).
Proof.
  pose proof (fun s => find_unlimited values filter s) as Hall.
  unfold find in *. cbn [f_chains f_modes f_minScore f_maxScore f_acted
    f_hasOutcome f_startDate f_endDate f_limit] in Hall.
  set (sorted := NansenTrader.sort newestFirst _) in *.
  assert (Hsorted : StronglySorted (fun a b => loggedAt b <= loggedAt a) sorted).
  { apply sort_sorted_by.
    - intros a b. unfold newestFirst. rewrite of_Z_gt. lia.
    - intros a b. unfold newestFirst.
      rewrite <- not_true_iff_false, of_Z_gt. lia.
    - intros a b c. lia. }
  split; [|split; [|split]].
  - intros s Hs. apply Hall.
    destruct (f_limit filter) as [n|]; [|exact Hs].
    destruct (n =? 0); [exact Hs | by apply slice0_elem in Hs].
  - intros [-> | ->] s Hin Hmeets; apply Hall; by split.
  - destruct (f_limit filter) as [n|]; [|exact Hsorted].
    destruct (n =? 0); [exact Hsorted | by apply slice0_sorted_by].
  - intros n -> Hn. destruct (Z.eqb_spec n 0); [lia|].
    apply slice0_length. lia.
Qed.

End FindFacts.

Section StatsFacts.
Import SignalLog SignalLogOps.

Lemma filter_split {A} (f : A -> bool) (l : list A) :
  (length (List.filter f l) + length (List.filter (fun x => negb (f x)) l)
   = length l)%nat.
Proof.
  induction l as [|x l IH]; [reflexivity|].
  cbn [List.filter]. destruct (f x); cbn [negb length]; lia.
Qed.

Lemma filter_shorter {A} (f : A -> bool) (l : list A) :
  (length (List.filter f l) <= length l)%nat.
Proof. pose proof (filter_split f l). lia. Qed.

(** X17: the counts of [getStats] add up: every signal is either acted on
    or skipped, the profitable ones are among those with an outcome, those
    among all, and the win rate lies between 0 and 1. *)
Theorem getStats_counts (values : list LoggedSignal) (filter : SignalFilter) :
  let stats := getStats values filter in
  (actedOn stats + skipped stats = totalSignals stats)%nat
  /\ (profitableCount stats <= withOutcome stats <= totalSignals stats)%nat
  /\ totalSignals stats = length (find values filter)
  /\ (0 <= winRate stats <= 1)%Q.
Proof.
  cbv zeta. unfold getStats.
  cbn [actedOn skipped totalSignals profitableCount withOutcome winRate].
  set (signals := find values filter).
  set (withOutcome_ := List.filter hasPnl signals).
  set (profitable := List.filter _ withOutcome_).
  split; [apply filter_split|]. split; [split; apply filter_shorter|].
  split; [reflexivity|].
  destruct (Nat.ltb_spec 0 (length withOutcome_)) as [Hpos|Hzero];
    [|split; discriminate].
  unfold Num.div, len, Num.of_Z. rewrite Qred_correct.
  assert (Hle : (length profitable <= length withOutcome_)%nat)
    by apply filter_shorter.
  assert (Hden : (0 < inject_Z (Z.of_nat (length withOutcome_)))%Q).
  { change 0%Q with (inject_Z 0). rewrite <- Zlt_Qlt. lia. }
  split.
  - apply Qle_shift_div_l; [exact Hden|]. rewrite Qmult_0_l.
    change 0%Q with (inject_Z 0). rewrite <- Zle_Qle. lia.
  - apply Qle_shift_div_r; [exact Hden|]. rewrite Qmult_1_l.
    rewrite <- Zle_Qle. lia.
Qed.

(** A histogram built by counting holds, under each key, how many items
    carry it, and nothing under a key that none carries. *)
Lemma histogram_counts {A} (key : A -> string) (l : list A) :
  forall (h : gmap string nat) (k : string),
    fold_left (fun h s => count1 h (key s)) l h !! k =
      match length (List.filter (fun s => String.eqb (key s) k) l) with
      | O => h !! k
      | S n => Some (default 0%nat (h !! k) + S n)%nat
      end.
Proof.
  induction l as [|x l IH]; intros h k; [reflexivity|].
  cbn [fold_left List.filter]. rewrite IH. unfold count1.
  destruct (String.eqb_spec (key x) k) as [->|Hne].
  - rewrite lookup_insert_eq. cbn [length].
    destruct (length (List.filter _ l)); simpl; f_equal; lia.
  - by rewrite lookup_insert_ne.
Qed.

Lemma chain_name_eqb (a b : Chain) :
  String.eqb (chain_name a) (chain_name b) = bool_decide (a = b).
Proof. by destruct a, b. Qed.

Lemma mode_name_eqb (a b : ScanMode) :
  String.eqb (mode_name a) (mode_name b) = bool_decide (a = b).
Proof. by destruct a, b. Qed.

(** X18: the histograms of [getStats]: [byChain] holds under the name of a
    chain the number of found signals on that chain, and has no entry for
    a chain without any; likewise [byMode]. *)
Theorem getStats_histograms (values : list LoggedSignal)
  (filter : SignalFilter) (c : Chain) (m : ScanMode) :
  let stats := getStats values filter in
  let onChain :=
    length (List.filter (fun s => bool_decide (chain (signal_of s) = c))
              (find values filter)) in
  let inMode :=
    length (List.filter (fun s => bool_decide (sig_type (signal_of s) = m))
              (find values filter)) in
  byChain stats !! chain_name c = (if onChain is O then None else Some onChain)
  /\ byMode stats !! mode_name m = (if inMode is O then None else Some inMode).
Proof.
  cbv zeta. unfold getStats. cbn [byChain byMode].
  rewrite !histogram_counts, !lookup_empty. cbn [default].
  rewrite (filter_ext _ (fun s => bool_decide (chain (signal_of s) = c)))
    by (intros s; apply chain_name_eqb).
  rewrite (filter_ext (fun s => String.eqb (mode_name _) _)
             (fun s => bool_decide (sig_type (signal_of s) = m)))
    by (intros s; apply mode_name_eqb).
  split; by destruct (length _).
Qed.

End StatsFacts.

(** ** The trader, its other methods *)

Section TraderOpsFacts.
Import NansenTrader TraderOps.

Lemma filter_sublist {A} (f : A -> bool) (l : list A) :
  List.filter f l `sublist_of` l.
Proof.
  induction l as [|x l IH]; [constructor|].
  cbn [List.filter]. destruct (f x); by constructor.
Qed.

(** X19: [filterChains] keeps, in their order, the chains that are on the
    allow-list (when there is a non-empty one) and not on the deny-list
    (when there is a non-empty one). *)
Theorem filterChains_spec (chains : list Chain) (risk : RiskConfig) (c : Chain) :
  (c ∈ filterChains chains risk <->
     c ∈ chains
     /\ (forall a allowed, allowedChains risk = Some (a :: allowed) ->
          c ∈ a :: allowed)
     /\ (forall e excluded, excludedChains risk = Some (e :: excluded) ->
          c ∉ e :: excluded))
  /\ filterChains chains risk `sublist_of` chains.
Proof.
  unfold filterChains. split.
  - assert (Hallowed :
      c ∈ match allowedChains risk with
          | Some (a :: allowed) =>
              List.filter (fun c => bool_decide (c ∈ a :: allowed)) chains
          | _ => chains
          end
      <-> c ∈ chains
          /\ (forall a allowed, allowedChains risk = Some (a :: allowed) ->
               c ∈ a :: allowed)).
    { destruct (allowedChains risk) as [[|a allowed]|].
      - split; [intros Hin; split; [exact Hin | intros ?? [=]] | by intros [Hin _]].
      - rewrite list_elem_of_In, filter_In, <- list_elem_of_In,
          bool_decide_eq_true.
        split; intros [Hin Ha]; (split; [exact Hin|]).
        + by intros ?? [= <- <-].
        + by apply Ha.
      - split; [intros Hin; split; [exact Hin | intros ?? [=]] | by intros [Hin _]]. }
    destruct (excludedChains risk) as [[|e excluded]|].
    + rewrite Hallowed. split; [intros [Hin Ha]; repeat split; try done;
        intros ?? [=] | tauto].
    + rewrite list_elem_of_In, filter_In, <- list_elem_of_In, negb_true_iff,
        bool_decide_eq_false, Hallowed.
      split.
      * intros [[Hin Ha] He]. repeat split; try done. by intros ?? [= <- <-].
      * intros (Hin & Ha & He). repeat split; try done. by apply He.
    + rewrite Hallowed. split; [intros [Hin Ha]; repeat split; try done;
        intros ?? [=] | tauto].
  - destruct (allowedChains risk) as [[|a allowed]|],
      (excludedChains risk) as [[|e excluded]|];
      repeat (etransitivity; [apply filter_sublist|]); reflexivity.
Qed.

Lemma filter_sublist_impl {A} (f g : A -> bool) (l : list A) :
  (forall x, f x = true -> g x = true) ->
  List.filter f l `sublist_of` List.filter g l.
Proof.
  intros Himpl. induction l as [|x l IH]; [constructor|].
  cbn [List.filter]. destruct (f x) eqn:Hf.
  - rewrite (Himpl x Hf). by constructor.
  - destruct (g x); [by constructor | exact IH].
Qed.

(** X20: raising [minScore] never lets more through: what passes the
    filters under the higher bar passes them, in the same order, under the
    lower one. *)
Theorem minScore_monotone (signals : list OpportunitySignal)
  (risk : RiskConfig) (low high : Num.number) :
  (low <= high)%Q ->
  applyRiskFilters signals (withMinScore high risk)
    `sublist_of` applyRiskFilters signals (withMinScore low risk)
  /\ (length (applyRiskFilters signals (withMinScore high risk))
      <= length (applyRiskFilters signals (withMinScore low risk)))%nat.
Proof.
  intros Hle.
  assert (Hsub : applyRiskFilters signals (withMinScore high risk)
                   `sublist_of` applyRiskFilters signals (withMinScore low risk)).
  { unfold applyRiskFilters. apply filter_sublist_impl. intros s.
    unfold passesRiskFilters. cbn [withMinScore minScore minSmartMoneyBuyers
      minNetflowUsd minFreshWallets].
    destruct (Num.lt (score s) high) eqn:Hhigh; [discriminate|].
    apply lt_false in Hhigh.
    assert (Hlow : Num.lt (score s) low = false) by (apply lt_false; lra).
    by rewrite Hlow. }
  split; [exact Hsub | by apply sublist_length].
Qed.

Lemma minScore_monotone_witness :
  (length (applyRiskFilters
             [candidate base "X" accumulation 2.5%Q [];
              candidate base "Y" accumulation 6%Q []]
             (withMinScore 3%Q DEFAULT_RISK_CONFIG))
   <= length (applyRiskFilters
                [candidate base "X" accumulation 2.5%Q [];
                 candidate base "Y" accumulation 6%Q []]
                (withMinScore 2%Q DEFAULT_RISK_CONFIG)))%nat.
Proof.
  apply (minScore_monotone
           [candidate base "X" accumulation 2.5%Q [];
            candidate base "Y" accumulation 6%Q []]
           DEFAULT_RISK_CONFIG 2%Q 3%Q).
  discriminate.
Defined.

End TraderOpsFacts.

Section DedupMore.
Import NansenTrader TraderOps.

Lemma map_get_elem {V} (m : list (string * V)) (k : string) (v : V) :
  map_get m k = Some v -> (k, v) ∈ m.
Proof.
  induction m as [|[k' v'] m IH]; [discriminate|]. cbn [map_get].
  destruct (String.eqb_spec k' k) as [->|Hne].
  - intros [= ->]. apply elem_of_cons. by left.
  - intros Hget. apply elem_of_cons. right. by apply IH.
Qed.

Lemma map_set_values {V} (m : list (string * V)) (k : string) (v x : V) :
  x ∈ snd <$> map_set m k v -> x = v \/ x ∈ snd <$> m.
Proof.
  induction m as [|[k' v'] m IH]; cbn [map_set].
  - cbn. intros ->%list_elem_of_singleton. by left.
  - destruct (String.eqb k' k); rewrite !fmap_cons, !elem_of_cons; cbn [snd];
      [tauto|].
    intros [->|Hin]; [tauto|]. destruct (IH Hin); tauto.
Qed.

Lemma map_set_absent {V} (m : list (string * V)) (k : string) (v : V) :
  map_get m k = None -> map_set m k v = m ++ [(k, v)].
Proof.
  induction m as [|[k' v'] m IH]; [reflexivity|]. cbn [map_get map_set app].
  destruct (String.eqb k' k); [discriminate|]. intros Hget. by rewrite IH.
Qed.

Lemma map_get_snoc {V} (m : list (string * V)) (k k' : string) (v : V) :
  k <> k' -> map_get (m ++ [(k, v)]) k' = map_get m k'.
Proof.
  intros Hne. induction m as [|[k0 v0] m IH]; cbn [map_get app].
  - by destruct (String.eqb_spec k k').
  - by rewrite IH.
Qed.

(** What is in the [seen] map came from the batch and got past the
    persisted check. *)
Lemma fold_dedupStep_values (recent : OpportunitySignal -> bool)
  (l : list OpportunitySignal) :
  forall (m : list (string * OpportunitySignal)) (x : OpportunitySignal),
    x ∈ snd <$> fold_left (dedupStep recent) l m ->
    x ∈ snd <$> m \/ (x ∈ l /\ recent x = false).
Proof.
  induction l as [|s l IH]; intros m x Hx; [by left|].
  cbn [fold_left] in Hx. apply IH in Hx as [Hx|[Hx Hr]].
  - unfold dedupStep in Hx. destruct (recent s) eqn:Hs; [by left|].
    assert (Hset : x ∈ snd <$> map_set m (dedupKey s) s ->
                   x ∈ snd <$> m \/ x ∈ s :: l /\ recent x = false).
    { intros [->|Hin]%map_set_values; [right|by left].
      split; [apply elem_of_cons; by left | exact Hs]. }
    destruct (map_get m (dedupKey s)) as [existing|]; [|by apply Hset].
    destruct (Num.gt (score s) (score existing)); [by apply Hset | by left].
  - right. split; [apply elem_of_cons; by right | exact Hr].
Qed.

Lemma dedup_elem (recent : OpportunitySignal -> bool)
  (l : list OpportunitySignal) (x : OpportunitySignal) :
  x ∈ deduplicateSignals recent l -> x ∈ l /\ recent x = false.
Proof.
  unfold deduplicateSignals. intros Hx.
  apply fold_dedupStep_values in Hx as [Hx|Hx]; [|exact Hx].
  by apply elem_of_nil in Hx.
Qed.

(** X21: what survives the deduplication: candidates of the batch that the
    persisted check let through, no two for the same chain and token; and
    every candidate that the check let through has a survivor for its
    chain and token that scores at least as high. *)
Theorem dedup_survivors (recent : OpportunitySignal -> bool)
  (l : list OpportunitySignal) :
  NoDup (dedupKey <$> deduplicateSignals recent l)
  /\ (forall x, x ∈ deduplicateSignals recent l -> x ∈ l /\ recent x = false)
  /\ (forall c, c ∈ l -> recent c = false ->
       exists w, w ∈ deduplicateSignals recent l
                 /\ dedupKey w = dedupKey c /\ (score c <= score w)%Q).
Proof.
  split; [apply dedup_NoDup|]. split; [apply dedup_elem|].
  intros c Hc Hr.
  destruct (fold_dedupStep_best recent l [] c Hc Hr) as (w & Hw & Hq).
  assert (Hok : SeenOk (fold_left (dedupStep recent) l []))
    by apply fold_dedupStep_ok, SeenOk_nil.
  pose proof (survivors_of_key _ (dedupKey c) Hok) as Hsurv.
  rewrite Hw in Hsurv. fold (deduplicateSignals recent l) in Hsurv.
  assert (Hin : In w (List.filter
                        (fun s => String.eqb (dedupKey s) (dedupKey c))
                        (deduplicateSignals recent l)))
    by (rewrite Hsurv; by left).
  apply filter_In in Hin as [Hin Hkey].
  exists w. split; [by apply list_elem_of_In|].
  split; [by apply String.eqb_eq | exact Hq].
Qed.

(** A batch with one candidate per chain and token, all let through, is
    left as it is. *)
Lemma fold_dedupStep_distinct (recent : OpportunitySignal -> bool)
  (l : list OpportunitySignal) :
  forall m : list (string * OpportunitySignal),
    NoDup (dedupKey <$> l) ->
    (forall s, s ∈ l -> recent s = false /\ map_get m (dedupKey s) = None) ->
    fold_left (dedupStep recent) l m = m ++ ((fun s => (dedupKey s, s)) <$> l).
Proof.
  induction l as [|x l IH]; intros m Hnd Hl; [by rewrite app_nil_r|].
  rewrite fmap_cons in Hnd. apply NoDup_cons in Hnd as [Hx Hnd].
  destruct (Hl x) as [Hrx Hgx]; [apply elem_of_cons; by left|].
  cbn [fold_left]. unfold dedupStep at 2. rewrite Hrx, Hgx.
  rewrite (map_set_absent m _ x Hgx), IH.
  - by rewrite <- app_assoc.
  - exact Hnd.
  - intros s Hs. destruct (Hl s) as [Hrs Hgs]; [apply elem_of_cons; by right|].
    split; [exact Hrs|]. rewrite map_get_snoc; [exact Hgs|].
    intros Heq. apply Hx. rewrite Heq. apply list_elem_of_fmap. by exists s.
Qed.

(** X22: deduplicating twice is deduplicating once: the survivors of a
    batch, put through again under the same persisted check, all survive,
    in the same order. *)
Theorem dedup_idempotent (recent : OpportunitySignal -> bool)
  (l : list OpportunitySignal) :
  deduplicateSignals recent (deduplicateSignals recent l)
    = deduplicateSignals recent l.
Proof.
  set (out := deduplicateSignals recent l).
  unfold deduplicateSignals at 1.
  rewrite (fold_dedupStep_distinct recent out []).
  - cbn [app]. rewrite <- list_fmap_compose. apply list_fmap_id.
  - apply dedup_NoDup.
  - intros s Hs. split; [by apply (dedup_elem recent l)|reflexivity].
Qed.

(** X23: a tie goes to the earlier candidate: of two for the same chain
    and token that the check let through, the later replaces the earlier
    only with a strictly higher score. *)
Theorem dedup_tie (recent : OpportunitySignal -> bool)
  (c1 c2 : OpportunitySignal) :
  chain c1 = chain c2 -> token c1 = token c2 ->
  recent c1 = false -> recent c2 = false ->
  (score c2 <= score c1)%Q ->
  deduplicateSignals recent [c1; c2] = [c1].
Proof.
  intros Hchain Htoken Hr1 Hr2 Hle.
  pose proof (dedupKey_eq c1 c2 Hchain Htoken) as Hkey.
  unfold deduplicateSignals, dedupStep. cbn [fold_left map_get map_set].
  rewrite Hr1, Hr2. cbn [map_get map_set]. rewrite Hkey, String.eqb_refl.
  assert (Hgt : Num.gt (score c2) (score c1) = false) by (by apply gt_false).
  by rewrite Hgt.
Qed.

Lemma dedup_tie_witness :
  deduplicateSignals (fun _ => false)
    [candidate base "X" accumulation 6%Q []; candidate base "X" breakout 6%Q []]
  = [candidate base "X" accumulation 6%Q []].
Proof.
  apply dedup_tie; try reflexivity. discriminate.
Defined.

End DedupMore.

Section ScanFacts.
Import NansenTrader TraderOps.

(** Case analysis on the tests of [scoreSignal] that depend on the
    candidate. *)
Ltac split_on_tests :=
  repeat match goal with
         | |- context [if ?c then _ else _] =>
             lazymatch c with
             | context [Num.gt] => destruct c
             | context [Num.truthy] => destruct c
             end
         end.

(** X24: every scored signal has a risk score from -1 to 4, a confidence
    between 0 and 1 and at most three risk factors; it carries a suggested
    action exactly when its risk score is 1 or more, and that action is to
    buy the candidate's token on the candidate's chain, urgently exactly
    when the risk score is 3 or more. *)
Theorem scoreSignal_bounds (now : Z) (s : OpportunitySignal) :
  let t := scoreSignal now s in
  -1 <= riskScore t <= 4
  /\ (0 <= confidence t <= 1)%Q
  /\ (length (riskFactors t) <= 3)%nat
  /\ candidateOf t = s
  /\ (suggestedAction t = None <-> riskScore t < 1)
  /\ (forall a, suggestedAction t = Some a ->
       sa_action a = do_buy /\ targetChain a = chain s
       /\ targetToken a = token s
       /\ (urgency a = high <-> 3 <= riskScore t)).
Proof.
  cbv zeta. unfold scoreSignal, bothAnd, candidateOf.
  destruct (Num.gt (score s) 5%Q); [|destruct (Num.gt (score s) 3%Q)];
    destruct (metrics s !! "buyers") as [b|];
    destruct (metrics s !! "sellers") as [sl|];
    destruct (metrics s !! "netflow24h") as [n|];
    split_on_tests;
    cbv -[join SignalLog.generateId Z.le Z.lt Qle];
    (split; [lia|]); (split; [split; unfold Qle; cbn; lia|]);
    (split; [lia|]); (split; [reflexivity|]);
    (split; [split; [first [discriminate | lia] | first [lia | reflexivity]]|]);
    intros a Ha; first [discriminate |
      injection Ha as <-; cbn [sa_action targetChain targetToken urgency];
      (split; [reflexivity|]); (split; [reflexivity|]);
      (split; [reflexivity|]);
      split; first [lia | discriminate | reflexivity]].
Qed.

(** Scoring keeps the candidate. *)
Lemma scoreSignal_candidate (now : Z) (s : OpportunitySignal) :
  candidateOf (scoreSignal now s) = s.
Proof.
  unfold scoreSignal, bothAnd, candidateOf.
  destruct (Num.gt (score s) 5%Q); [|destruct (Num.gt (score s) 3%Q)];
    destruct (metrics s !! "buyers") as [b|];
    destruct (metrics s !! "sellers") as [sl|];
    destruct (metrics s !! "netflow24h") as [n|];
    split_on_tests; reflexivity.
Qed.

(** Where the signals of a scan come from. *)
Lemma scan_elem (t : NansenTrader) (options : ScanOptions)
  (allSignals : list OpportunitySignal) (now : Z) (x : TradingSignal) :
  x ∈ fst (scan t options allSignals now) ->
  exists c,
    x = scoreSignal now c /\ c ∈ allSignals
    /\ passesRiskFilters (riskOverride options (riskConfig t)) c = true
    /\ SignalLog.hasRecentSignal (signalLog t) c
         (dedupeWindowMs (riskOverride options (riskConfig t))) now = false.
Proof.
  unfold scan. cbn [fst]. intros Hx%slice0_elem.
  unfold scoreSignals in Hx. rewrite sort_Permutation in Hx.
  apply list_elem_of_fmap in Hx as (c & -> & Hc).
  apply dedup_elem in Hc as [Hc Hrecent].
  unfold applyRiskFilters in Hc.
  apply list_elem_of_In, filter_In in Hc as [Hc Hpass].
  exists c. split; [reflexivity|]. split; [by apply list_elem_of_In|].
  split; [exact Hpass | exact Hrecent].
Qed.

(** X25: what a scan returns: each signal is the scoring of a fetched
    candidate that passes the filters of the effective configuration and
    that the log does not hold as recent; no two signals are for the same
    chain and token. *)
Theorem scan_output (t : NansenTrader) (options : ScanOptions)
  (allSignals : list OpportunitySignal) (now : Z) :
  let out := fst (scan t options allSignals now) in
  let risk := riskOverride options (riskConfig t) in
  (forall x, x ∈ out ->
     candidateOf x ∈ allSignals
     /\ x = scoreSignal now (candidateOf x)
     /\ passesRiskFilters risk (candidateOf x) = true
     /\ SignalLog.hasRecentSignal (signalLog t) (candidateOf x)
          (dedupeWindowMs risk) now = false)
  /\ NoDup (dedupKey <$> (candidateOf <$> out)).
Proof.
  cbv zeta. split.
  - intros x Hx. apply scan_elem in Hx as (c & -> & Hc & Hpass & Hrecent).
    rewrite scoreSignal_candidate. by repeat split.
  - unfold scan. cbn [fst]. unfold slice0.
    match goal with
    | |- context [scoreSignals now ?d] => set (deduped := d)
    end.
    assert (Hnd : NoDup (dedupKey <$> (candidateOf <$> scoreSignals now deduped))).
    { unfold scoreSignals. rewrite sort_Permutation, <- !list_fmap_compose.
      rewrite (list_fmap_ext _ dedupKey deduped)
        by (intros i c _; cbn; by rewrite scoreSignal_candidate).
      apply dedup_NoDup. }
    destruct (_ <? 0);
      match goal with
      | |- NoDup (dedupKey <$> (candidateOf <$> take ?n ?l)) =>
          rewrite !fmap_take;
          eapply sublist_NoDup; [exact Hnd | apply sublist_take]
      end.
Qed.

Lemma fold_log_keeps (now : Z) (l : list TradingSignal) :
  forall (signals : SignalLog.store) (k : string) (r : LoggedSignal),
    signals !! k = Some r ->
    fold_left (fun m s => snd (SignalLog.log m (signal_of (logged_of s)) now))
      l signals !! k = Some r.
Proof.
  induction l as [|s l IH]; intros signals k r Hr; [exact Hr|].
  cbn [fold_left]. by apply IH, log_keeps.
Qed.

(** X26: a scan writes what it returns into the log and nothing else:
    afterwards the log holds a record under the id of every returned
    signal, every record it held before is unchanged, it has grown by no
    more than the number of returned signals, and the configuration is as
    it was. *)
Theorem scan_logs (t : NansenTrader) (options : ScanOptions)
  (allSignals : list OpportunitySignal) (now : Z) :
  let '(out, t') := scan t options allSignals now in
  (forall x, x ∈ out ->
     is_Some (signalLog t' !! SignalLog.generateId (candidateOf x)))
  /\ (forall k r, signalLog t !! k = Some r -> signalLog t' !! k = Some r)
  /\ (size (signalLog t') <= size (signalLog t) + length out)%nat
  /\ riskConfig t' = riskConfig t.
Proof.
  unfold scan.
  match goal with
  | |- context [slice0 ?sc ?lim] => generalize (slice0 sc lim)
  end.
  intros out. cbn [signalLog riskConfig].
  split; [|split; [|split; [|reflexivity]]].
  - generalize (signalLog t). induction out as [|s out IH]; intros signals x Hx;
      [by apply elem_of_nil in Hx|].
    cbn [fold_left]. apply elem_of_cons in Hx as [->|Hx]; [|by apply IH].
    eexists. apply fold_log_keeps, log_stores.
  - intros k r. apply fold_log_keeps.
  - generalize (signalLog t). induction out as [|s out IH]; intros signals;
      [cbn; lia|].
    cbn [fold_left length]. etransitivity; [apply IH|].
    assert (Hone : (size (snd (SignalLog.log signals (signal_of (logged_of s)) now))
                    <= S (size signals))%nat).
    { unfold SignalLog.log.
      destruct (signals !! SignalLog.generateId (signal_of (logged_of s))) eqn:E;
        cbn [snd]; [lia|]. by rewrite map_size_insert_None. }
    lia.
Qed.

(** Fresh, distinct ids are logged at the time of the scan. *)
Lemma fold_log_fresh (now : Z) (l : list TradingSignal) :
  forall signals : SignalLog.store,
    NoDup (SignalLog.generateId <$> (candidateOf <$> l)) ->
    (forall x, x ∈ l ->
       signals !! SignalLog.generateId (candidateOf x) = None) ->
    forall x, x ∈ l ->
      exists r,
        fold_left
          (fun m s => snd (SignalLog.log m (signal_of (logged_of s)) now))
          l signals !! SignalLog.generateId (candidateOf x) = Some r
        /\ signal_of r = candidateOf x /\ loggedAt r = now.
Proof.
  induction l as [|s l IH]; intros signals Hnd Hfresh x Hx;
    [by apply elem_of_nil in Hx|].
  rewrite !fmap_cons in Hnd. apply NoDup_cons in Hnd as [Hs Hnd].
  cbn [fold_left]. apply elem_of_cons in Hx as [->|Hx].
  - eexists. split; [apply fold_log_keeps, log_stores|].
    unfold SignalLog.log. fold (candidateOf s).
    rewrite (Hfresh s) by (apply elem_of_cons; by left). by split.
  - apply IH; [exact Hnd | | exact Hx].
    intros y Hy. unfold SignalLog.log. fold (candidateOf s).
    rewrite (Hfresh s) by (apply elem_of_cons; by left). cbn [snd].
    rewrite lookup_insert_ne; [apply Hfresh, elem_of_cons; by right|].
    intros Heq. apply Hs. rewrite Heq.
    apply list_elem_of_fmap. exists (candidateOf y). split; [reflexivity|].
    apply list_elem_of_fmap. by exists y.
Qed.

(** X27: the dedup across scans.  When the signals a scan returns have ids
    that are new to the log and differ from one another, a later scan
    whose dedup window still reaches back to the first returns no signal
    for a token, chain and mode that the first one returned. *)
Theorem scan_suppresses_repeats (t : NansenTrader)
  (options1 options2 : ScanOptions)
  (fetched1 fetched2 : list OpportunitySignal) (now1 now2 : Z)
  (x1 x2 : TradingSignal) :
  let out1 := fst (scan t options1 fetched1 now1) in
  let t1 := snd (scan t options1 fetched1 now1) in
  NoDup (SignalLog.generateId <$> (candidateOf <$> out1)) ->
  (forall x, x ∈ out1 ->
     signalLog t !! SignalLog.generateId (candidateOf x) = None) ->
  now2 - dedupeWindowMs (riskOverride options2 (riskConfig t1)) < now1 ->
  x1 ∈ out1 ->
  x2 ∈ fst (scan t1 options2 fetched2 now2) ->
  ~ sameAim (candidateOf x1) (candidateOf x2).
Proof.
  cbv zeta.
  destruct (scan t options1 fetched1 now1) as [out1 t1] eqn:Hscan.
  cbn [fst snd].
  intros Hnd Hfresh Hwindow Hx1 Hx2 (Htoken & Hchain & Htype).
  assert (Hlog : signalLog t1 =
            fold_left
              (fun m s => snd (SignalLog.log m (signal_of (logged_of s)) now1))
              out1 (signalLog t)).
  { revert Hscan. unfold scan. by intros [= <- <-]. }
  destruct (fold_log_fresh now1 out1 (signalLog t) Hnd Hfresh x1 Hx1)
    as (r & Hr & Hsig & Hat).
  rewrite <- Hlog in Hr.
  apply scan_elem in Hx2 as (c2 & -> & _ & _ & Hrecent).
  apply not_true_iff_false in Hrecent. apply Hrecent.
  rewrite scoreSignal_candidate in Htoken, Hchain, Htype.
  apply hasRecentSignal_true.
  exists (SignalLog.generateId (candidateOf x1)), r. split; [exact Hr|].
  split; [|lia].
  unfold SignalLog.sameTarget. rewrite Hsig.
  rewrite Htoken, String.eqb_refl, !bool_decide_eq_true_2; done.
Qed.

Lemma scan_suppresses_repeats_witness :
  ~ sameAim
      (candidateOf (scoreSignal 1000 (candidate base "X" accumulation 6%Q [])))
      (candidateOf (scoreSignal 61000 (candidate base "Y" accumulation 6%Q []))).
Proof.
  apply (scan_suppresses_repeats (newTrader DEFAULT_RISK_CONFIG)
           noOptions noOptions
           [candidate base "X" accumulation 6%Q []]
           [candidate base "X" accumulation 6%Q [];
            candidate base "Y" accumulation 6%Q []] 1000 61000).
  - apply (bool_decide_unpack _). reflexivity.
  - intros x _. apply lookup_empty.
  - reflexivity.
  - apply elem_of_cons. left. reflexivity.
  - apply elem_of_cons. left. reflexivity.
Defined.

End ScanFacts.

Section ClientFacts.
Import NansenClient.

Lemma div_eq (a b : Num.number) : (Num.div a b == a / b)%Q.
Proof. apply Qred_correct. Qed.

Lemma min_bounds (a b : Num.number) :
  (0 <= a)%Q -> (0 <= b)%Q -> (0 <= min a b <= b)%Q.
Proof.
  intros Ha Hb. unfold min. destruct (Num.lt b a) eqn:E.
  - split; [exact Hb | apply Qle_refl].
  - apply lt_false in E. split; [exact Ha | exact E].
Qed.

Lemma filter_elem {A} (p : A -> bool) (l : list A) (x : A) :
  x ∈ List.filter p l <-> x ∈ l /\ p x = true.
Proof. by rewrite list_elem_of_In, filter_In, <- list_elem_of_In. Qed.

(** X28: the score that [calculateScore] gives an item with a trader
    count that is not negative lies between 0 and 10, so that the
    [Math.abs] around it changes nothing; without a 7-day flow it is 8 at
    most. *)
Theorem calculateScore_range (item : SmartMoneyNetflow) :
  (0 <= traderCount item)%Q ->
  (0 <= calculateScore item <= 10)%Q
  /\ (Num.abs (calculateScore item) == calculateScore item)%Q
  /\ (Num.truthy (netflow7d item) = false -> (calculateScore item <= 8)%Q).
Proof.
  intros Hcount. unfold calculateScore, Num.abs.
  set (ns := min _ 5%Q). set (ts := min _ 3%Q).
  set (bonus := if Num.truthy _ then _ else _).
  assert (Hns : (0 <= ns <= 5)%Q).
  { apply min_bounds; [|discriminate]. rewrite div_eq.
    apply Qle_shift_div_l; [reflexivity|]. rewrite Qmult_0_l.
    apply Qabs_nonneg. }
  assert (Hts : (0 <= ts <= 3)%Q).
  { apply min_bounds; [|discriminate]. rewrite div_eq.
    apply Qle_shift_div_l; [reflexivity|]. by rewrite Qmult_0_l. }
  assert (Hbonus : (0 <= bonus <= 2)%Q
                   /\ (Num.truthy (netflow7d item) = false -> bonus = 0%Q)).
  { subst bonus. cbv zeta. destruct (Num.truthy (netflow7d item)).
    - split; [|discriminate].
      destruct (_ || _); split; discriminate.
    - split; [split; discriminate | reflexivity]. }
  destruct Hbonus as [Hbonus Hnone].
  assert (Hsum : (0 <= Num.add (Num.add ns ts) bonus <= 10)%Q).
  { rewrite !add_eq. lra. }
  split; [exact Hsum|]. split; [apply Qabs_pos, Hsum|].
  intros Hfalsy. rewrite (Hnone Hfalsy), !add_eq. lra.
Qed.

Lemma calculateScore_range_witness :
  (0 <= calculateScore (mkNetflow "0xabc" "ABC" base 120000 120000 40000 12 0)
     <= 10)%Q.
Proof.
  apply (calculateScore_range
           (mkNetflow "0xabc" "ABC" base 120000 120000 40000 12 0)).
  discriminate.
Defined.

Lemma byDirection_elem (dir : option FlowDirection)
  (data : list SmartMoneyNetflow) (d : SmartMoneyNetflow) :
  d ∈ byDirection dir data <->
    d ∈ data /\ (dir = Some inflow -> (0 < netflow d)%Q)
    /\ (dir = Some outflow -> (netflow d < 0)%Q).
Proof.
  unfold byDirection. destruct dir as [[| |]|].
  - rewrite filter_elem, gt_true. split.
    + intros [Hd Hpos]. by repeat split.
    + intros (Hd & Hin & _). split; [exact Hd | by apply Hin].
  - rewrite filter_elem, lt_true. split.
    + intros [Hd Hneg]. by repeat split.
    + intros (Hd & _ & Hout). split; [exact Hd | by apply Hout].
  - split; [intros Hd; by repeat split | by intros [Hd _]].
  - split; [intros Hd; by repeat split | by intros [Hd _]].
Qed.

Lemma byMinValue_elem (minValue_ : option Num.number)
  (data : list SmartMoneyNetflow) (d : SmartMoneyNetflow) :
  d ∈ byMinValue minValue_ data <->
    d ∈ data /\ (forall v, minValue_ = Some v -> ~ (v == 0)%Q ->
                  (v <= Qabs (netflowUsd d))%Q).
Proof.
  unfold byMinValue, Num.truthy_opt. destruct minValue_ as [v|].
  - destruct (Num.truthy v) eqn:Hv.
    + rewrite filter_elem. unfold Num.ge, Num.abs. cbn [default].
      rewrite Qle_bool_iff. apply truthy_true in Hv. split.
      * intros [Hd Hle]. split; [exact Hd|]. by intros ? [= <-] _.
      * intros [Hd Hle]. split; [exact Hd | by apply Hle].
    + apply truthy_false in Hv. split.
      * intros Hd. split; [exact Hd|]. by intros ? [= <-] Hne.
      * by intros [Hd _].
  - split; [intros Hd; split; [exact Hd | by intros ? [=]] | by intros [Hd _]].
Qed.

Lemma byChain_elem (params : SmartMoneyRequest)
  (data : list SmartMoneyNetflow) (d : SmartMoneyNetflow) :
  d ∈ byChain params data <->
    d ∈ data /\ (chains params = None -> item_chain d = rq_chain params).
Proof.
  unfold byChain. destruct (chains params).
  - split; [intros Hd; by split | by intros [Hd _]].
  - rewrite filter_elem. split.
    + intros [Hd Hc]. split; [exact Hd|]. intros _.
      by apply bool_decide_eq_true_1 in Hc.
    + intros [Hd Hc]. split; [exact Hd|]. by apply bool_decide_eq_true_2, Hc.
Qed.

(** The items that the three filters of [getSmartMoneyNetflow] keep. *)
Lemma selected_elem (params : SmartMoneyRequest)
  (data : list SmartMoneyNetflow) (d : SmartMoneyNetflow) :
  d ∈ byChain params
        (byMinValue (minValue params) (byDirection (direction params) data))
  <-> d ∈ data /\ meetsRequest params d.
Proof.
  rewrite byChain_elem, byMinValue_elem, byDirection_elem.
  unfold meetsRequest. tauto.
Qed.

Lemma byNetflow_sorted (l : list SmartMoneyNetflow) :
  StronglySorted
    (fun a b => (Qabs (netflowUsd b) <= Qabs (netflowUsd a))%Q)
    (NansenTrader.sort byNetflow l).
Proof.
  apply sort_sorted_by.
  - intros a b Hc. apply gt_true in Hc. unfold byNetflow, Num.abs in Hc.
    rewrite sub_eq in Hc. lra.
  - intros a b Hc. apply gt_false in Hc. unfold byNetflow, Num.abs in Hc.
    rewrite sub_eq in Hc. lra.
  - intros a b c Hab Hbc. lra.
Qed.

Lemma getSmartMoneyNetflow_elem (params : SmartMoneyRequest)
  (response : option (list RawSmartMoneyNetflow)) (d : SmartMoneyNetflow) :
  d ∈ getSmartMoneyNetflow params response ->
  d ∈ normalize <$> default [] response /\ meetsRequest params d.
Proof.
  unfold getSmartMoneyNetflow. cbv zeta. intros Hd.
  apply selected_elem.
  rewrite <- (sort_Permutation byNetflow).
  destruct (rq_limit params) as [n|]; [|exact Hd].
  destruct (n =? 0); [exact Hd | by apply slice0_elem in Hd].
Qed.

Lemma getSmartMoneyNetflow_length (params : SmartMoneyRequest)
  (response : option (list RawSmartMoneyNetflow)) (n : Z) :
  rq_limit params = Some n -> 0 < n ->
  Z.of_nat (length (getSmartMoneyNetflow params response)) <= n.
Proof.
  intros Hn Hpos. unfold getSmartMoneyNetflow. cbv zeta. rewrite Hn.
  destruct (Z.eqb_spec n 0); [lia|]. apply slice0_length. lia.
Qed.

(** X29: [getSmartMoneyNetflow] returns items of the response that meet
    the request (direction, minimum value, chain), the largest flow first;
    without a limit it returns all of them, and under a positive limit no
    more than that many. *)
Theorem getSmartMoneyNetflow_spec (params : SmartMoneyRequest)
  (response : option (list RawSmartMoneyNetflow)) :
  let out := getSmartMoneyNetflow params response in
  let data := normalize <$> default [] response in
  (forall d, d ∈ out -> d ∈ data /\ meetsRequest params d)
  /\ (rq_limit params = None \/ rq_limit params = Some 0 ->
      forall d, d ∈ data -> meetsRequest params d -> d ∈ out)
  /\ StronglySorted
       (fun a b => (Qabs (netflowUsd b) <= Qabs (netflowUsd a))%Q) out
  /\ (forall n, rq_limit params = Some n -> 0 < n ->
       Z.of_nat (length out) <= n).
Proof.
  cbv zeta. split; [apply getSmartMoneyNetflow_elem|].
  split; [|split; [|apply getSmartMoneyNetflow_length]].
  - intros Hlimit d Hd Hmeets. unfold getSmartMoneyNetflow. cbv zeta.
    assert (Hsorted : d ∈ NansenTrader.sort byNetflow
              (byChain params
                 (byMinValue (minValue params)
                    (byDirection (direction params)
                       (normalize <$> default [] response))))).
    { rewrite sort_Permutation. by apply selected_elem. }
    by destruct Hlimit as [-> | ->].
  - unfold getSmartMoneyNetflow. cbv zeta.
    destruct (rq_limit params) as [n|]; [|apply byNetflow_sorted].
    destruct (n =? 0); [apply byNetflow_sorted|].
    apply slice0_sorted_by, byNetflow_sorted.
Qed.

End ClientFacts.

Section ClientScanFacts.
Import NansenClient.

Variable show : Num.number -> string.
Variable formatNumber : Num.number -> string.
Variable stamps : nat -> string.

Lemma signalOf_shape (mode : ScanMode) (i : nat) (item : SmartMoneyNetflow) :
  chain (signalOf show formatNumber stamps mode i item) = item_chain item
  /\ token (signalOf show formatNumber stamps mode i item) = item_token item
  /\ metrics (signalOf show formatNumber stamps mode i item) = metricsOf item.
Proof. by destruct mode. Qed.

Lemma byScore_sorted (l : list OpportunitySignal) :
  StronglySorted (fun a b => (score b <= score a)%Q)
    (NansenTrader.sort byScore l).
Proof.
  apply sort_sorted_by.
  - intros a b Hc. apply gt_true in Hc. unfold byScore in Hc.
    rewrite sub_eq in Hc. lra.
  - intros a b Hc. apply gt_false in Hc. unfold byScore in Hc.
    rewrite sub_eq in Hc. lra.
  - intros a b c Hab Hbc. lra.
Qed.

(** Without the counts of buyers and sellers among its metrics, a candidate
    can only earn the netflow factor. *)
Lemma scoreSignal_without_counts (now : Z) (s : OpportunitySignal) :
  metrics s !! "buyers" = None ->
  NansenTrader.riskFactors (NansenTrader.scoreSignal now s) = []
  \/ NansenTrader.riskFactors (NansenTrader.scoreSignal now s)
       = ["High netflow"].
Proof.
  intros Hbuyers. unfold NansenTrader.scoreSignal, NansenTrader.bothAnd.
  rewrite Hbuyers.
  destruct (Num.gt (score s) 5%Q); [|destruct (Num.gt (score s) 3%Q)];
    destruct (metrics s !! "sellers") as [sl|];
    destruct (metrics s !! "netflow24h") as [n|];
    repeat match goal with
           | |- context [if ?c then _ else _] =>
               lazymatch c with
               | context [Num.gt] => destruct c
               | context [Num.truthy] => destruct c
               end
           end;
    cbn; auto.
Qed.

(** X30: the signals of [scanOpportunities].  Each is on the chain asked
    for and carries the 24-hour flow of its item; its type is
    [accumulation] when that flow is positive and [distribution] otherwise,
    whatever the mode asked for, the flow being positive and at least
    10000 in mode [accumulation] and negative in mode [distribution].  Its
    metrics hold no count of buyers or sellers, so the trader's scoring
    gives it no risk factor but the netflow one.  The signals come highest
    score first, no more than the positive limit of them, or than 20
    without one. *)
Theorem scanOpportunities_signals (chain_ : Chain) (mode : ScanMode)
  (limit_ : option Z) (response : option (list RawSmartMoneyNetflow)) :
  let out :=
    scanOpportunities show formatNumber stamps chain_ mode limit_ response in
  (forall s, s ∈ out ->
     chain s = chain_
     /\ (exists v,
          metrics s !! "netflow24h" = Some v
          /\ sig_type s
              = (if Num.gt v 0%Q then accumulation else distribution)
          /\ (mode = accumulation -> (0 < v)%Q /\ (10000 <= Qabs v)%Q)
          /\ (mode = distribution -> (v < 0)%Q))
     /\ metrics s !! "buyers" = None
     /\ metrics s !! "sellers" = None
     /\ (forall now,
          NansenTrader.riskFactors (NansenTrader.scoreSignal now s) = []
          \/ NansenTrader.riskFactors (NansenTrader.scoreSignal now s)
               = ["High netflow"]))
  /\ StronglySorted (fun a b => (score b <= score a)%Q) out
  /\ (forall n, limit_ = Some n -> 0 < n -> Z.of_nat (length out) <= n)
  /\ (limit_ = None \/ limit_ = Some 0 -> Z.of_nat (length out) <= 20).
Proof.
  cbv zeta. unfold scanOpportunities.
  split; [|split; [apply byScore_sorted|]].
  - intros s Hs. rewrite sort_Permutation in Hs.
    apply elem_of_lookup_imap_1 in Hs as (i & item & -> & Hitem).
    apply list_elem_of_lookup_2, getSmartMoneyNetflow_elem in Hitem
      as [Hdata (Hin & Hout & Hmin & Hchain)].
    apply list_elem_of_fmap in Hdata as (raw & -> & _).
    destruct (signalOf_shape mode i (normalize raw)) as (-> & _ & Hmetrics).
    assert (Hbuyers :
              metrics (signalOf show formatNumber stamps mode i (normalize raw))
                !! "buyers" = None) by (by rewrite Hmetrics).
    split; [destruct mode; exact (Hchain eq_refl)|].
    split; [|split; [exact Hbuyers|split; [by rewrite Hmetrics|]]].
    + exists (net_flow_24h_usd raw). rewrite Hmetrics.
      split; [reflexivity|]. cbn [normalize netflow netflowUsd] in *.
      split; [|split].
      * destruct mode; cbn [signalOf sig_type normalize netflow];
          try reflexivity.
        -- assert (Hpos : (0 < net_flow_24h_usd raw)%Q)
             by exact (Hin eq_refl).
           apply gt_true in Hpos. by rewrite Hpos.
        -- assert (Hneg : (net_flow_24h_usd raw < 0)%Q)
             by exact (Hout eq_refl).
           assert (Hgt : Num.gt (net_flow_24h_usd raw) 0%Q = false)
             by (apply gt_false; lra).
           by rewrite Hgt.
      * intros ->. split; [exact (Hin eq_refl)|].
        apply (Hmin 10000%Q); [reflexivity | discriminate].
      * intros ->. exact (Hout eq_refl).
    + intros now. by apply scoreSignal_without_counts.
  - assert (Hlen : forall l : list SmartMoneyNetflow,
              length (NansenTrader.sort byScore
                        (imap (signalOf show formatNumber stamps mode) l))
              = length l).
    { intros l. by rewrite sort_Permutation, length_imap. }
    rewrite Hlen. split.
    + intros n -> Hn. apply getSmartMoneyNetflow_length with (n := n); [|exact Hn].
      unfold requestOf. destruct (Z.eqb_spec n 0); [lia|]. by destruct mode.
    + intros Hlimit. apply getSmartMoneyNetflow_length with (n := 20); [|lia].
      destruct Hlimit as [-> | ->]; by destruct mode.
Qed.

End ClientScanFacts.
